(** * monkit: the Registry and the trace-context propagation protocol

    A shallow embedding of [registry.go] (package [monitor]) and of the
    HTTP propagation scenario exercised by the tests of package [http].

    Go pointers are addresses ([loc]); the Go heap objects a Registry refers
    to (Scopes and Spans) live in explicit stores.  Every method of
    [*Registry] is a computation in a small state monad over the [World]
    (the Registry, the stores, and the log of what user callbacks did).
    A [sync.Mutex] is a boolean field: locking a held mutex blocks,
    unlocking a free one panics.  Go leaves the iteration order of a map
    unspecified and [sort.Sort] does not promise stability: both are
    oracles passed to the code that ranges or sorts. *)

From Stdlib Require Import ZArith String Ascii List Permutation.
From Stdlib Require OrderedTypeEx.
From stdpp Require Import gmap strings list sorting pretty.

Local Open Scope Z_scope.

(** ** Addresses, traces and events *)

(** A Go pointer ([*Scope], [*Span]). *)
Abbreviation loc := positive (only parsing).

(** Modelled from the spec: [Trace], declared outside registry.go.  "An
    opaque identifier, mutable mapping from annotation-key to
    annotation-value (used at minimum for a boolean sampled flag)." *)
Record Trace := mkTrace {
  trace_id : Z;
  trace_vals : gmap string bool }.

(** What user-supplied callbacks are seen to do: a trace watcher named [w]
    observed trace [t]; a span visitor was handed span [s]. *)
Inductive Event :=
| Watched (w : nat) (t : Trace)
| Visited (s : loc).

(** A watcher callback [func(t *Trace)], by the events it performs. *)
Abbreviation TraceFn := (Trace → list Event) (only parsing).

(** ** Machine integers *)

(** [int64] arithmetic wraps around. *)
Definition MinInt64 : Z := - 2 ^ 63.
Definition MaxInt64 : Z := 2 ^ 63 - 1.
Definition wrap64 (z : Z) : Z := (z + 2 ^ 63) `mod` 2 ^ 64 - 2 ^ 63.

(** ** Oracles for what Go leaves unspecified *)

(** The order in which one [for ... range m] statement walks a map: some
    rearrangement of its entries. *)
Record shuffle := Shuffle {
  permute : ∀ A : Type, list A → list A;
  permute_perm : ∀ (A : Type) (l : list A), permute A l ≡ₚ l }.

Definition in_order : shuffle :=
  {| permute := λ _ l, l; permute_perm := λ _ l, reflexivity l |}.

Definition reversed : shuffle :=
  {| permute := λ A l, reverse l;
     permute_perm := λ A l, reverse_Permutation l |}.

(** ** The Registry *)

Record traceWatcherRef := TraceWatcherRef { watcher : TraceFn }.

Record Registry := mkRegistry {
  traceWatcher : option traceWatcherRef;   (* atomic pointer; nil is None *)
  watcherMtx : bool;
  watcherCounter : Z;
  traceWatchers : gmap Z TraceFn;
  scopeMtx : bool;
  scopes : gmap string loc;
  spanMtx : bool;
  spans : gset loc;
  orphanMtx : bool;
  orphans : gset loc }.

Definition set_traceWatcher (v : option traceWatcherRef) (r : Registry) :=
  mkRegistry v (watcherMtx r) (watcherCounter r) (traceWatchers r)
    (scopeMtx r) (scopes r) (spanMtx r) (spans r) (orphanMtx r) (orphans r).
Definition set_watcherMtx (v : bool) (r : Registry) :=
  mkRegistry (traceWatcher r) v (watcherCounter r) (traceWatchers r)
    (scopeMtx r) (scopes r) (spanMtx r) (spans r) (orphanMtx r) (orphans r).
Definition set_watcherCounter (v : Z) (r : Registry) :=
  mkRegistry (traceWatcher r) (watcherMtx r) v (traceWatchers r)
    (scopeMtx r) (scopes r) (spanMtx r) (spans r) (orphanMtx r) (orphans r).
Definition set_traceWatchers (v : gmap Z TraceFn) (r : Registry) :=
  mkRegistry (traceWatcher r) (watcherMtx r) (watcherCounter r) v
    (scopeMtx r) (scopes r) (spanMtx r) (spans r) (orphanMtx r) (orphans r).
Definition set_scopeMtx (v : bool) (r : Registry) :=
  mkRegistry (traceWatcher r) (watcherMtx r) (watcherCounter r)
    (traceWatchers r) v (scopes r) (spanMtx r) (spans r) (orphanMtx r)
    (orphans r).
Definition set_scopes (v : gmap string loc) (r : Registry) :=
  mkRegistry (traceWatcher r) (watcherMtx r) (watcherCounter r)
    (traceWatchers r) (scopeMtx r) v (spanMtx r) (spans r) (orphanMtx r)
    (orphans r).
Definition set_spanMtx (v : bool) (r : Registry) :=
  mkRegistry (traceWatcher r) (watcherMtx r) (watcherCounter r)
    (traceWatchers r) (scopeMtx r) (scopes r) v (spans r) (orphanMtx r)
    (orphans r).
Definition set_spans (v : gset loc) (r : Registry) :=
  mkRegistry (traceWatcher r) (watcherMtx r) (watcherCounter r)
    (traceWatchers r) (scopeMtx r) (scopes r) (spanMtx r) v (orphanMtx r)
    (orphans r).
Definition set_orphanMtx (v : bool) (r : Registry) :=
  mkRegistry (traceWatcher r) (watcherMtx r) (watcherCounter r)
    (traceWatchers r) (scopeMtx r) (scopes r) (spanMtx r) (spans r) v
    (orphans r).
Definition set_orphans (v : gset loc) (r : Registry) :=
  mkRegistry (traceWatcher r) (watcherMtx r) (watcherCounter r)
    (traceWatchers r) (scopeMtx r) (scopes r) (spanMtx r) (spans r)
    (orphanMtx r) v.

(** ** Heap objects *)

(** Modelled from the spec: [Scope], declared outside registry.go, by its
    name; the back-reference to the Registry is implicit, a [World] holds
    one Registry. *)
Record Scope := mkScope { scope_name : string }.

(** Modelled from the spec: [Func], declared outside registry.go, by the
    result of its [FullName()] method, the "fully qualified name (scope
    name + func name)". *)
Record Func := mkFunc { FullName : string }.

(** Modelled from the spec: [Span], declared outside registry.go.
    "Numeric id, reference to owning Func, reference to owning Trace,
    optional parentId (presence flag + value), ownership of a child-span
    set"; [span_parent] is the parent in this process, [span_children] the
    child set in the order [Children] enumerates it, [span_done] the guard
    of completion. *)
Record Span := mkSpan {
  span_f : Func;
  span_id : Z;
  span_trace : Trace;
  span_parent : option loc;
  span_parentId : option Z;
  span_children : list loc;
  span_done : bool }.

(** ** The world and the monad *)

Record World := mkWorld {
  registry : Registry;
  scopeHeap : gmap loc Scope;
  spanHeap : gmap loc Span;
  out : list Event }.

Definition set_registry (v : Registry) (w : World) :=
  mkWorld v (scopeHeap w) (spanHeap w) (out w).
Definition set_scopeHeap (v : gmap loc Scope) (w : World) :=
  mkWorld (registry w) v (spanHeap w) (out w).
Definition set_spanHeap (v : gmap loc Span) (w : World) :=
  mkWorld (registry w) (scopeHeap w) v (out w).
Definition set_out (v : list Event) (w : World) :=
  mkWorld (registry w) (scopeHeap w) (spanHeap w) v.

Inductive outcome (A : Type) :=
| Done (a : A)
| Blocked       (* waits for a mutex that is held *)
| Panicked      (* run-time panic *)
| OutOfFuel.    (* the recursion budget of the model ran out *)
Arguments Done {A} a.
Arguments Blocked {A}.
Arguments Panicked {A}.
Arguments OutOfFuel {A}.

Definition M (A : Type) : Type := World → outcome (A * World).

Definition ret {A} (a : A) : M A := λ w, Done (a, w).

Definition bind {A B} (m : M A) (k : A → M B) : M B :=
  λ w, match m w with
       | Done (a, w') => k a w'
       | Blocked => Blocked
       | Panicked => Panicked
       | OutOfFuel => OutOfFuel
       end.

Declare Scope go_scope.
Delimit Scope go_scope with go.
Notation "x <- m ;; k" := (bind m (λ x, k))
  (at level 100, m at next level, right associativity) : go_scope.
Notation "m ;;; k" := (bind m (λ _, k))
  (at level 100, right associativity) : go_scope.
Local Open Scope go_scope.

Definition panic {A} : M A := λ _, Panicked.
Definition getR : M Registry := λ w, Done (registry w, w).
Definition modR (f : Registry → Registry) : M unit :=
  λ w, Done (tt, set_registry (f (registry w)) w).
Definition emit (es : list Event) : M unit :=
  λ w, Done (tt, set_out (out w ++ es) w).

(** [forM_ l f]: [for _, x := range l { f(x) }] over a slice. *)
Fixpoint forM_ {A} (l : list A) (f : A → M unit) : M unit :=
  match l with
  | [] => ret tt
  | x :: l' => f x ;;; forM_ l' f
  end.

(** *** Mutexes *)

Record mutex := Mutex {
  held : Registry → bool;
  set_held : bool → Registry → Registry }.

Definition the_watcherMtx := Mutex watcherMtx set_watcherMtx.
Definition the_scopeMtx := Mutex scopeMtx set_scopeMtx.
Definition the_spanMtx := Mutex spanMtx set_spanMtx.
Definition the_orphanMtx := Mutex orphanMtx set_orphanMtx.

Definition Lock (m : mutex) : M unit :=
  λ w, if held m (registry w) then Blocked
       else Done (tt, set_registry (set_held m true (registry w)) w).

Definition Unlock (m : mutex) : M unit :=
  λ w, if held m (registry w)
       then Done (tt, set_registry (set_held m false (registry w)) w)
       else Panicked.

(** ** registry.go *)

Definition NewRegistry : Registry :=
  {| traceWatcher := None;
     watcherMtx := false; watcherCounter := 0; traceWatchers := ∅;
     scopeMtx := false; scopes := ∅;
     spanMtx := false; spans := ∅;
     orphanMtx := false; orphans := ∅ |}.

(** [observeTrace]: one atomic load, and a call if the pointer is not nil. *)
Definition observeTrace (t : Trace) : M unit :=
  r <- getR ;;
  match traceWatcher r with
  | Some ref => emit (watcher ref t)
  | None => ret tt
  end.

(** The closure published for two or more watchers. *)
Definition call_all (cbs : list TraceFn) : TraceFn :=
  λ t, flat_map (λ cb, cb t) cbs.

Definition updateWatcher (sh : shuffle) : M unit :=
  r <- getR ;;
  let cbs := (permute sh _ (map_to_list (traceWatchers r))).*2 in
  match length cbs with
  | O => modR (set_traceWatcher None)
  | S O =>
      match cbs !! O with
      | Some cb => modR (set_traceWatcher (Some (TraceWatcherRef cb)))
      | None => panic
      end
  | _ => modR (set_traceWatcher (Some (TraceWatcherRef (call_all cbs))))
  end.

(** The closure [ObserveTraces] returns; it captured [cbId]. *)
Definition cancel (cbId : Z) (sh : shuffle) : M unit :=
  Lock the_watcherMtx ;;;
  modR (λ r, set_traceWatchers (delete cbId (traceWatchers r)) r) ;;;
  updateWatcher sh ;;;
  Unlock the_watcherMtx.

Definition ObserveTraces (cb : TraceFn) (sh : shuffle)
  : M (shuffle → M unit) :=
  Lock the_watcherMtx ;;;
  r <- getR ;;
  let cbId := watcherCounter r in
  modR (set_watcherCounter (wrap64 (cbId + 1))) ;;;
  modR (λ r, set_traceWatchers (<[cbId := cb]> (traceWatchers r)) r) ;;;
  updateWatcher sh ;;;
  Unlock the_watcherMtx ;;;
  ret (cancel cbId).

(** ** Running the watcher interface *)

(** A client of the watcher interface: it registers callbacks, calls the
    [i]-th cancel function it was handed so far, or completes a trace. *)
Inductive call :=
| DoObserveTraces (cb : TraceFn) (sh : shuffle)
| DoCancel (i : nat) (sh : shuffle)
| DoObserveTrace (t : Trace).

Fixpoint exec (cs : list call) (cancels : list (shuffle → M unit))
  : M (list (shuffle → M unit)) :=
  match cs with
  | [] => ret cancels
  | DoObserveTraces cb sh :: cs' =>
      c <- ObserveTraces cb sh ;; exec cs' (cancels ++ [c])
  | DoCancel i sh :: cs' =>
      match cancels !! i with
      | Some c => c sh ;;; exec cs' cancels
      | None => exec cs' cancels
      end
  | DoObserveTrace t :: cs' => observeTrace t ;;; exec cs' cancels
  end.

(** What [updateWatcher] publishes for a watcher map. *)
Definition dispatch_of (cbs : list TraceFn) : option traceWatcherRef :=
  match cbs with
  | [] => None
  | [cb] => Some (TraceWatcherRef cb)
  | _ => Some (TraceWatcherRef (call_all cbs))
  end.

Definition published (sh : shuffle) (m : gmap Z TraceFn)
  : option traceWatcherRef :=
  dispatch_of (permute sh _ (map_to_list m)).*2.

(** The published closure is the one some walk of the map produces. *)
Definition consistent (r : Registry) : Prop :=
  ∃ sh, traceWatcher r = published sh (traceWatchers r).

(** A named watcher: all it does is record that it saw the trace. *)
Definition named (n : nat) : TraceFn := λ t, [Watched n t].

Definition after_register (cb : TraceFn) (sh : shuffle) (r : Registry) :=
  let m := <[watcherCounter r := cb]> (traceWatchers r) in
  set_traceWatcher (published sh m)
    (set_traceWatchers m
       (set_watcherCounter (wrap64 (watcherCounter r + 1)) r)).

Definition after_cancel (cbId : Z) (sh : shuffle) (r : Registry) :=
  let m := delete cbId (traceWatchers r) in
  set_traceWatcher (published sh m) (set_traceWatchers m r).

Definition is_cancel (c : shuffle → M unit) : Prop := ∃ cbId, c = cancel cbId.

(** How many registrations a client makes. *)
Fixpoint registrations (cs : list call) : nat :=
  match cs with
  | [] => O
  | DoObserveTraces _ _ :: cs' => S (registrations cs')
  | _ :: cs' => registrations cs'
  end.

(** The cancel functions of the registrations numbered [0 .. n-1]. *)
Definition cancels_upto (n : nat) : list (shuffle → M unit) :=
  (λ i : nat, cancel (Z.of_nat i)) <$> seq 0 n.

(** A client that registers a callback and cancels it at once, [n] times
    over. *)
Fixpoint churn (n : nat) (cb : TraceFn) (sh : shuffle) : M unit :=
  match n with
  | O => ret tt
  | S n' => (c <- ObserveTraces cb sh ;; c sh) ;;; churn n' cb sh
  end.

(** The world after [named 1] was registered under id [0] and the counter
    has come round to [0] again. *)
Definition wrapped_world : World :=
  mkWorld
    (set_traceWatcher (Some (TraceWatcherRef (named 1)))
       (set_traceWatchers {[ 0 := named 1 ]} NewRegistry))
    ∅ ∅ [].

(** ** Scopes *)

(** Modelled from the spec: [newScope(r, name)], declared outside
    registry.go.  A Scope is "created lazily on first lookup": the call
    allocates a Scope of that name, at an address no live Scope has. *)
Definition newScope (name : string) : M loc :=
  λ w, let s := fresh (dom (scopeHeap w)) in
       Done (s, set_scopeHeap (<[s := mkScope name]> (scopeHeap w)) w).

Definition PackageNamed (name : string) : M loc :=
  Lock the_scopeMtx ;;;
  r <- getR ;;
  match scopes r !! name with
  | Some s => Unlock the_scopeMtx ;;; ret s
  | None =>
      s <- newScope name ;;
      modR (λ r, set_scopes (<[name := s]> (scopes r)) r) ;;;
      Unlock the_scopeMtx ;;;
      ret s
  end.

(** [forM f l]: call [f] on each element in turn and collect the results. *)
Fixpoint forM {A B} (f : A → M B) (l : list A) : M (list B) :=
  match l with
  | [] => ret []
  | x :: l' => y <- f x ;; ys <- forM f l' ;; ret (y :: ys)
  end.

(** The world [PackageNamed(name)] leaves when it has to create the
    Scope. *)
Definition with_new_scope (name : string) (w : World) : World :=
  let s := fresh (dom (scopeHeap w)) in
  set_registry (set_scopes (<[name := s]> (scopes (registry w))) (registry w))
    (set_scopeHeap (<[s := mkScope name]> (scopeHeap w)) w).

(** ** Root spans and orphans *)

Definition rootSpanStart (s : loc) : M unit :=
  Lock the_spanMtx ;;;
  modR (λ r, set_spans ({[s]} ∪ spans r) r) ;;;
  Unlock the_spanMtx.

Definition rootSpanEnd (s : loc) : M unit :=
  Lock the_spanMtx ;;;
  modR (λ r, set_spans (spans r ∖ {[s]}) r) ;;;
  Unlock the_spanMtx.

Definition orphanedSpan (s : loc) : M unit :=
  Lock the_orphanMtx ;;;
  modR (λ r, set_orphans ({[s]} ∪ orphans r) r) ;;;
  Unlock the_orphanMtx.

Definition orphanEnd (s : loc) : M unit :=
  Lock the_orphanMtx ;;;
  modR (λ r, set_orphans (orphans r ∖ {[s]}) r) ;;;
  Unlock the_orphanMtx.

(** The sort key of [spanSorter]: the owning Func's full name, then the
    span id. *)
Definition key_of (h : gmap loc Span) (s : loc) : string * Z :=
  match h !! s with
  | Some sp => (FullName (span_f sp), span_id sp)
  | None => (EmptyString, 0)
  end.

Definition key_lt (a b : string * Z) : bool :=
  (a.1 <? b.1)%string || ((a.1 =? b.1)%string && (a.2 <? b.2)).

(** [key_lt] as a proposition: the lexicographic order on (name, id). *)
Definition key_before (a b : string * Z) : Prop :=
  OrderedTypeEx.String_as_OT.lt a.1 b.1 ∨ (a.1 = b.1 ∧ a.2 < b.2).

(** [spanSorter.Less], on the two spans rather than on their indices. *)
Definition Less (h : gmap loc Span) (ispan jspan : loc) : bool :=
  key_lt (key_of h ispan) (key_of h jspan).

(** [sort.Sort] is Go's library: whatever it does, it rearranges the slice
    so that no element is [Less] than one before it, provided [Less] is a
    strict weak order.  It is not stable. *)
Definition sort_order {A} (lt : A → A → bool) : relation A :=
  λ a b, lt b a = false.

Abbreviation sort_fn :=
  (∀ A : Type, (A → A → bool) → list A → list A) (only parsing).

Definition sorts (srt : sort_fn) : Prop :=
  ∀ (A : Type) (lt : A → A → bool) (l : list A),
    srt A lt l ≡ₚ l ∧
    (Total (sort_order lt) → Transitive (sort_order lt) →
     StronglySorted (sort_order lt) (srt A lt l)).

(** On slices of at most 12 elements [sort.Sort] is this insertion sort:
    each element in turn moves left past the elements it is [Less] than.
    [sift] works on the sorted prefix, last element first. *)
Fixpoint sift {A} (lt : A → A → bool) (x : A) (prefix : list A) : list A :=
  match prefix with
  | [] => [x]
  | p :: ps => if lt x p then p :: sift lt x ps else x :: p :: ps
  end.

Definition insertionSort : sort_fn :=
  λ A lt l, reverse (foldl (λ acc x, sift lt x acc) [] l).

(** [sort.Sort(spanSorter(spans))].  [Less] dereferences the spans it
    compares, and a slice of two or more elements has each of them
    compared: a pointer to no Span panics there. *)
Definition sortSpans (srt : sort_fn) (l : list loc) : M (list loc) :=
  λ w, if (length l <=? 1)%nat
          || forallb (λ s, bool_decide (is_Some (spanHeap w !! s))) l
       then Done (srt _ (Less (spanHeap w)) l, w)
       else Panicked.

(** [RootSpans], up to its last loop: the sorted slice of the spans of
    both sets. *)
Definition sortedRootSpans (sh1 sh2 : shuffle) (srt : sort_fn)
  : M (list loc) :=
  Lock the_spanMtx ;;;
  r <- getR ;;
  let spans := permute sh1 _ (elements (spans r)) in
  Unlock the_spanMtx ;;;
  Lock the_orphanMtx ;;;
  r <- getR ;;
  let orphans := permute sh2 _ (elements (orphans r)) in
  Unlock the_orphanMtx ;;;
  let spans := spans ++ orphans in
  sortSpans srt spans.

Definition RootSpans (sh1 sh2 : shuffle) (srt : sort_fn) (cb : loc → M unit)
  : M unit :=
  spans <- sortedRootSpans sh1 sh2 srt ;;
  forM_ spans cb.

(** [RootSpans] called with a closure that assigns to a variable it
    captured: the variable is threaded through the loop. *)
Fixpoint foldM {A S} (f : A → S → M S) (l : list A) (x : S) : M S :=
  match l with
  | [] => ret x
  | a :: l' => y <- f a x ;; foldM f l' y
  end.

Definition RootSpansWith {S} (sh1 sh2 : shuffle) (srt : sort_fn)
    (cb : loc → S → M S) (x : S) : M S :=
  spans <- sortedRootSpans sh1 sh2 srt ;;
  foldM cb spans x.

(** The visitor that records the span it is handed. *)
Definition visit (s : loc) : M unit := emit [Visited s].

(** The slice [RootSpans] hands to [sort.Sort]. *)
Definition snapshot (sh1 sh2 : shuffle) (r : Registry) : list loc :=
  permute sh1 _ (elements (spans r)) ++ permute sh2 _ (elements (orphans r)).

(** Every span of the two sets is a live object. *)
Definition spans_allocated (w : World) : Prop :=
  ∀ s, s ∈ spans (registry w) ∪ orphans (registry w) →
       is_Some (spanHeap w !! s).

(** *** Sample worlds *)

Definition sample_span (name : string) (id : Z) : Span :=
  mkSpan (mkFunc name) id (mkTrace 0 ∅) None None [] false.

(** One span, held by the root set and by the orphan set. *)
Definition world_span_in_both : World :=
  mkWorld (set_orphans {[1%positive]} (set_spans {[1%positive]} NewRegistry))
    ∅ {[ 1%positive := sample_span "f" 7 ]} [].

(** Two root spans of the same Func with the same id, in two traces. *)
Definition world_equal_keys : World :=
  mkWorld (set_spans ({[1%positive]} ∪ {[2%positive]}) NewRegistry)
    ∅ (<[ 1%positive := mkSpan (mkFunc "f") 7 (mkTrace 1 ∅) None None [] false ]>
         {[ 2%positive :=
              mkSpan (mkFunc "f") 7 (mkTrace 2 ∅) None None [] false ]}) [].

(** Two root spans and an orphan, all with different keys. *)
Definition world_three_spans : World :=
  mkWorld
    (set_orphans {[5%positive]}
       (set_spans ({[1%positive]} ∪ {[2%positive]}) NewRegistry))
    ∅ (<[ 1%positive := sample_span "g" 7 ]>
         (<[ 5%positive := sample_span "f" 9 ]>
            {[ 2%positive := sample_span "f" 8 ]})) [].

(** ** Walking the span trees *)

(** Modelled from the spec: [Span.Children], declared outside
    registry.go, "each span's own child-enumeration capability": it hands
    the children of the span to the callback, one after the other.  The
    receiver is dereferenced, so a pointer to no Span panics. *)
Definition Children (s : loc) (cb : loc → M unit) : M unit :=
  λ w, match spanHeap w !! s with
       | Some sp => forM_ (span_children sp) cb w
       | None => Panicked
       end.

(** The recursion of [walkSpan] is bounded by [fuel]. *)
Fixpoint walkSpan (fuel : nat) (s : loc) (cb : loc → M unit) : M unit :=
  match fuel with
  | O => λ _, OutOfFuel
  | S fuel' => cb s ;;; Children s (λ s, walkSpan fuel' s cb)
  end.

Definition AllSpans (fuel : nat) (sh1 sh2 : shuffle) (srt : sort_fn)
    (cb : loc → M unit) : M unit :=
  RootSpans sh1 sh2 srt (λ s, walkSpan fuel s cb).

(** The child relation of a span store, and its closures. *)
Definition child (h : gmap loc Span) (p c : loc) : Prop :=
  ∃ sp, h !! p = Some sp ∧ c ∈ span_children sp.

Definition descendant (h : gmap loc Span) : relation loc := tc (child h).

(** No span is reachable as its own descendant. *)
Definition acyclic (h : gmap loc Span) : Prop := ∀ s, ¬ descendant h s s.

(** Every child is a live object. *)
Definition children_allocated (h : gmap loc Span) : Prop :=
  ∀ p c, child h p c → is_Some (h !! c).

(** A tree: a span is the child of at most one span, and at most once. *)
Definition single_parent (h : gmap loc Span) : Prop :=
  (∀ p q c, child h p c → child h q c → p = q) ∧
  (∀ p sp, h !! p = Some sp → NoDup (span_children sp)).

(** The spans of the root set and the orphan set are the roots of the
    forest: they are in no child set, and in only one of the two sets. *)
Definition roots_apart (w : World) : Prop :=
  spans (registry w) ## orphans (registry w) ∧
  ∀ s p, s ∈ spans (registry w) ∪ orphans (registry w) →
         ¬ child (spanHeap w) p s.

(** The spans in the order [walkSpan] hands them to its callback. *)
Fixpoint preorder (fuel : nat) (h : gmap loc Span) (s : loc)
  : option (list loc) :=
  match fuel with
  | O => None
  | S fuel' =>
      sp ← h !! s;
      ls ← mapM (preorder fuel' h) (span_children sp);
      Some (s :: concat ls)
  end.

(** [a] comes before [d] in [l]. *)
Definition before (a d : loc) (l : list loc) : Prop :=
  ∃ l1 l2 l3, l = l1 ++ a :: l2 ++ d :: l3.

(** A root with two children, one of which has a child of its own, and an
    orphan. *)
Definition world_forest : World :=
  mkWorld
    (set_orphans {[5%positive]} (set_spans {[1%positive]} NewRegistry))
    ∅
    (<[ 1%positive := mkSpan (mkFunc "a") 1 (mkTrace 0 ∅) None None
                        [2%positive; 3%positive] false ]>
    (<[ 2%positive := mkSpan (mkFunc "b") 2 (mkTrace 0 ∅) (Some 1%positive)
                        None [4%positive] false ]>
    (<[ 3%positive := mkSpan (mkFunc "c") 3 (mkTrace 0 ∅) (Some 1%positive)
                        None [] false ]>
    (<[ 4%positive := mkSpan (mkFunc "d") 4 (mkTrace 0 ∅) (Some 2%positive)
                        None [] false ]>
    {[ 5%positive := mkSpan (mkFunc "e") 5 (mkTrace 0 ∅) None (Some 42)
                        [] false ]}))))
    [].

(** ** The life of a span *)

Definition allocSpan (sp : Span) : M loc :=
  λ w, let s := fresh (dom (spanHeap w)) in
       Done (s, set_spanHeap (<[s := sp]> (spanHeap w)) w).

Definition getSpan (s : loc) : M Span :=
  λ w, match spanHeap w !! s with
       | Some sp => Done (sp, w)
       | None => Panicked
       end.

Definition setSpan (s : loc) (sp : Span) : M unit :=
  λ w, Done (tt, set_spanHeap (<[s := sp]> (spanHeap w)) w).

Definition add_child (c : loc) (sp : Span) : Span :=
  mkSpan (span_f sp) (span_id sp) (span_trace sp) (span_parent sp)
    (span_parentId sp) (span_children sp ++ [c]) (span_done sp).

Definition remove_child (c : loc) (sp : Span) : Span :=
  mkSpan (span_f sp) (span_id sp) (span_trace sp) (span_parent sp)
    (span_parentId sp) (filter (λ x, x ≠ c) (span_children sp)) (span_done sp).

Definition mark_done (sp : Span) : Span :=
  mkSpan (span_f sp) (span_id sp) (span_trace sp) (span_parent sp)
    (span_parentId sp) (span_children sp) true.

(** The parent a new span is created under, when it is a span of this
    process that has not finished. *)
Definition knownParent (parent : option loc) : M (option (loc * Span)) :=
  λ w, Done (p ← parent;
             psp ← spanHeap w !! p;
             if span_done psp then None else Some (p, psp), w).

(** Modelled from the spec: the creation of a Span, which is code outside
    registry.go.  "Created when a Func begins execution; if it has no known
    parent in-process it registers itself as a root (or orphan, when it
    carries propagated parent metadata pointing outside this process)";
    otherwise it joins the child set of its parent.  [parentId] is the
    propagated parent id, if any. *)
Definition spanStart (f : Func) (id : Z) (t : Trace)
    (parent : option loc) (parentId : option Z) : M loc :=
  known <- knownParent parent ;;
  match known with
  | Some (p, psp) =>
      s <- allocSpan (mkSpan f id t (Some p) (Some (span_id psp)) [] false) ;;
      setSpan p (add_child s psp) ;;;
      ret s
  | None =>
      s <- allocSpan (mkSpan f id t None parentId [] false) ;;
      match parentId with
      | Some _ => orphanedSpan s
      | None => rootSpanStart s
      end ;;;
      ret s
  end.

(** Modelled from the spec: the completion of a Span, which is code outside
    registry.go.  "A Span's completion must remove itself from whatever
    container holds it (root set, orphan set, or its parent's child set),
    and must do so exactly once"; "a second completion attempt is a no-op";
    "children naturally vanish when their parent finishes (no separate
    bookkeeping needed beyond parent removal)". *)
Definition spanFinish (s : loc) : M unit :=
  sp <- getSpan s ;;
  if span_done sp then ret tt
  else
    setSpan s (mark_done sp) ;;;
    match span_parent sp with
    | Some p => psp <- getSpan p ;; setSpan p (remove_child s psp)
    | None =>
        match span_parentId sp with
        | Some _ => orphanEnd s
        | None => rootSpanEnd s
        end
    end.

(** A program that starts and finishes spans; spans are named by the
    order in which they were started. *)
Inductive span_call :=
| DoStart (f : Func) (id : Z) (t : Trace)
    (parent : option nat) (parentId : option Z)
| DoFinish (i : nat).

Fixpoint exec_spans (cs : list span_call) (started : list loc)
  : M (list loc) :=
  match cs with
  | [] => ret started
  | DoStart f id t parent parentId :: cs' =>
      s <- spanStart f id t (i ← parent; started !! i) parentId ;;
      exec_spans cs' (started ++ [s])
  | DoFinish i :: cs' =>
      match started !! i with
      | Some s => spanFinish s ;;; exec_spans cs' started
      | None => exec_spans cs' started
      end
  end.

(** The live spans: those that were started and have not finished. *)
Definition live (w : World) (s : loc) : Prop :=
  ∃ sp, spanHeap w !! s = Some sp ∧ span_done sp = false.

(** The span is held by exactly one container: the root set, the orphan
    set, or the child set of one span. *)
Definition in_one_container (w : World) (s : loc) : Prop :=
  let r := registry w in
  let h := spanHeap w in
  (s ∈ spans r ∧ (s ∉ orphans r) ∧ ∀ p, ¬ child h p s) ∨
  ((s ∉ spans r) ∧ s ∈ orphans r ∧ ∀ p, ¬ child h p s) ∨
  ((s ∉ spans r) ∧ (s ∉ orphans r) ∧
   ∃ p, child h p s ∧ ∀ q, child h q s → q = p).

(** The span is held by no container. *)
Definition in_no_container (w : World) (s : loc) : Prop :=
  (s ∉ spans (registry w)) ∧ (s ∉ orphans (registry w)) ∧
  ∀ p, ¬ child (spanHeap w) p s.

(** Every span is where its record says: a finished span nowhere, an
    unfinished one in the child set of its parent, or else in the orphan
    set when it has a propagated parent id, or else in the root set. *)
Definition placed (w : World) : Prop :=
  ∀ s sp, spanHeap w !! s = Some sp →
    if span_done sp then in_no_container w s
    else match span_parent sp, span_parentId sp with
         | Some p, _ => child (spanHeap w) p s
         | None, Some _ => s ∈ orphans (registry w)
         | None, None => s ∈ spans (registry w)
         end.

(** The parent a span records is a live object. *)
Definition parents_allocated (h : gmap loc Span) : Prop :=
  ∀ s sp p, h !! s = Some sp → span_parent sp = Some p → is_Some (h !! p).

(** What the life of spans maintains. *)
Definition forest_inv (w : World) : Prop :=
  spanMtx (registry w) = false ∧
  orphanMtx (registry w) = false ∧
  spans_allocated w ∧
  children_allocated (spanHeap w) ∧
  parents_allocated (spanHeap w) ∧
  acyclic (spanHeap w) ∧
  single_parent (spanHeap w) ∧
  roots_apart w.

(** [h'] holds the spans of [h], with the same parents and with child sets
    that only lost members. *)
Definition heap_refines (h h' : gmap loc Span) : Prop :=
  (∀ x, is_Some (h !! x) → is_Some (h' !! x)) ∧
  ∀ x sp', h' !! x = Some sp' →
    ∃ sp, h !! x = Some sp ∧
          span_parent sp' = span_parent sp ∧
          (∀ c, c ∈ span_children sp' → c ∈ span_children sp) ∧
          (NoDup (span_children sp) → NoDup (span_children sp')).

(** The program that leaves [world_equal_keys]. *)
Definition equal_keys_script : list span_call :=
  [DoStart (mkFunc "f") 7 (mkTrace 1 ∅) None None;
   DoStart (mkFunc "f") 7 (mkTrace 2 ∅) None None].

(** ** Trace context propagation *)

(** *** Numbers and booleans as text *)

(** [strconv.FormatInt(i, 10)], which is also what [%d] prints. *)
Definition FormatInt (i : Z) : string := pretty i.

Definition digit_value (c : ascii) : option N :=
  let n := N_of_ascii c in
  if (48 <=? n)%N && (n <=? 57)%N then Some (n - 48)%N else None.

Fixpoint parse_digits (s : string) (acc : N) : option N :=
  match s with
  | EmptyString => Some acc
  | String c s' => d ← digit_value c; parse_digits s' (10 * acc + d)%N
  end.

Definition parse_N (s : string) : option N :=
  match s with
  | EmptyString => None
  | _ => parse_digits s 0
  end.

(** [strconv.ParseInt(s, 10, 64)]: an optional minus sign and decimal
    digits; a value that does not fit an [int64] is an error. *)
Definition ParseInt (s : string) : option Z :=
  z ← match s with
      | String "-" s' => n ← parse_N s'; Some (- Z.of_N n)
      | _ => n ← parse_N s; Some (Z.of_N n)
      end;
  if (MinInt64 <=? z) && (z <=? MaxInt64) then Some z else None.

Definition FormatBool (b : bool) : string := if b then "true" else "false".

Definition ParseBool (s : string) : option bool :=
  if String.eqb s "true" then Some true
  else if String.eqb s "false" then Some false
  else None.

(** [%v] of the value [Trace.Get] returns. *)
Definition format_v (v : option bool) : string :=
  match v with
  | Some b => FormatBool b
  | None => "<nil>"
  end.

(** [strings.Split(s, sep)] for a one-character separator. *)
Fixpoint split_on (sep : ascii) (s : string) : list string :=
  match s with
  | EmptyString => [EmptyString]
  | String c s' =>
      if Ascii.eqb c sep then EmptyString :: split_on sep s'
      else match split_on sep s' with
           | f :: fs => String c f :: fs
           | [] => [String c EmptyString]
           end
  end.

(** [strings.Cut(s, sep)] for a one-character separator. *)
Fixpoint cut (sep : ascii) (s : string) : option (string * string) :=
  match s with
  | EmptyString => None
  | String c s' =>
      if Ascii.eqb c sep then Some (EmptyString, s')
      else '(a, b) ← cut sep s'; Some (String c a, b)
  end.

(** The character does not occur in the string. *)
Fixpoint free_of (c : ascii) (s : string) : bool :=
  match s with
  | EmptyString => true
  | String c' s' => negb (Ascii.eqb c' c) && free_of c s'
  end.

(** *** The header *)

(** [present.SampledKey], the annotation that carries the sampling
    decision. *)
Definition SampledKey : string := "sampled".

(** What a header carries. *)
Record Remote := mkRemote {
  remote_trace : option Z;
  remote_parent : option Z;
  remote_sampled : option bool }.

(** Modelled from the spec: the header encoding, which is code outside
    src/.  The header is "one string-valued header slot carrying trace id,
    parent span id, and a sampling flag in a transport-agnostic encoding
    (key=value pairs, semicolon- or comma-delimited, e.g. sampled=true)".
    The pairs are delimited by commas here; the spec names the key
    [sampled] only, [trace] and [parent] are the names taken for the two
    ids. *)
Definition encode (traceId parentId : Z) (sampled : option bool) : string :=
  String.concat ","
    (["trace=" +:+ FormatInt traceId; "parent=" +:+ FormatInt parentId] ++
     match sampled with
     | Some b => ["sampled=" +:+ FormatBool b]
     | None => []
     end).

Definition decode_field (field : string) (acc : Remote) : option Remote :=
  '(k, v) ← cut "=" field;
  if String.eqb k "trace" then
    i ← ParseInt v;
    Some (mkRemote (Some i) (remote_parent acc) (remote_sampled acc))
  else if String.eqb k "parent" then
    i ← ParseInt v;
    Some (mkRemote (remote_trace acc) (Some i) (remote_sampled acc))
  else if String.eqb k "sampled" then
    b ← ParseBool v;
    Some (mkRemote (remote_trace acc) (remote_parent acc) (Some b))
  else None.

(** Modelled from the spec: the decoding of the header.  A header is valid
    when every comma-delimited field is a pair of a known key and a value
    of its type; anything else is malformed ([None]). *)
Definition decode (header : string) : option Remote :=
  foldl (λ acc field, acc ≫= decode_field field)
        (Some (mkRemote None None None)) (split_on "," header).

(** *** Client and server *)

(** Modelled from the spec: the client injector [TraceRequest], which is
    code outside src/.  "If a Span is active in context, encode: current
    trace id, current span's own id (as the parent id the remote side
    should record), and the trace's sampled annotation, into the outbound
    header.  If no Span is active, send the request with no propagation
    header."  The result is the header of the request that is sent. *)
Definition TraceRequest (ctx : option loc) : M (option string) :=
  match ctx with
  | Some s =>
      sp <- getSpan s ;;
      ret (Some (encode (trace_id (span_trace sp)) (span_id sp)
                   (trace_vals (span_trace sp) !! SampledKey)))
  | None => ret None
  end.

(** Modelled from the spec: what the server extractor makes of the header,
    which is code outside src/.  "Header present and well-formed: extract
    remote trace id and remote parent span id (and any annotations, e.g.
    sampling flag); construct a Trace carrying that id and those
    annotations; open a new root/orphan Span whose parentId is set to the
    decoded remote parent id.  Header absent or malformed: synthesize a
    fresh Trace id; open an ordinary root Span (no parent)."  "A header may
    request sampling be enabled even when no trace/span context is
    supplied."  The result is the Trace and the parent id of the span to
    open; [newTraceId] is the id the id generator hands out. *)
Definition extract (header : option string) (newTraceId : Z)
  : Trace * option Z :=
  let remote := header ≫= decode in
  let vals : gmap string bool :=
    match remote ≫= remote_sampled with
    | Some b => {[ SampledKey := b ]}
    | None => ∅
    end in
  match remote ≫= remote_trace, remote ≫= remote_parent with
  | Some t, Some p => (mkTrace t vals, Some p)
  | _, _ => (mkTrace newTraceId vals, None)
  end.

(** Modelled from the spec: the server side [TraceHandler], which is code
    outside src/.  It opens the span, and "after decode, delegate[s] to the
    wrapped handler chain unconditionally"; the span is "attached to the
    request's execution context for the remainder of handler execution".
    [spanId] is the id the id generator hands out; [next] is the wrapped
    handler, called with the span of the context; the result is the
    response body. *)
Definition TraceHandler (f : Func) (header : option string)
    (newTraceId spanId : Z) (next : loc → M string) : M string :=
  let '(trace, parentId) := extract header newTraceId in
  s <- spanStart f spanId trace None parentId ;;
  body <- next s ;;
  spanFinish s ;;;
  ret body.

(** The handler the tests install behind [TraceHandler] (the function
    literal of [startHTTPServer]).  [mon.Task()] opens a span under the span
    of the context and the deferred call finishes it; [taskId] is the id the
    id generator hands out for it. *)
Definition helloHandler (fn : Func) (taskId : Z)
    (sh1 sh2 : shuffle) (srt : sort_fn) (ctx : loc) : M string :=
  csp <- getSpan ctx ;;
  s <- spanStart fn taskId (span_trace csp) (Some ctx) None ;;
  sp <- getSpan s ;;
  grandParent <-
    match span_parentId sp with
    | Some parent =>
        RootSpansWith sh1 sh2 srt
          (λ s grandParent,
             sp <- getSpan s ;;
             ret (if span_id sp =? parent
                  then default 0 (span_parentId sp)
                  else grandParent)) 0
    | None => ret 0
    end ;;
  let body := FormatInt grandParent +:+ "/" +:+ "hello" +:+ "/" +:+
              format_v (trace_vals (span_trace sp) !! SampledKey) in
  spanFinish s ;;;
  ret body.

(** A client process with one span open: id [spanId], in a trace with id
    [traceId] whose sampled annotation is [sampled]. *)
Definition client_world (traceId spanId : Z) (sampled : option bool) : World :=
  mkWorld (set_spans {[1%positive]} NewRegistry) ∅
    {[ 1%positive :=
         mkSpan (mkFunc "client.GET") spanId
           (mkTrace traceId
              (match sampled with
               | Some b => {[ SampledKey := b ]}
               | None => ∅
               end))
           None None [] false ]} [].

(** The server process before the request arrives. *)
Definition server_world : World := mkWorld NewRegistry ∅ ∅ [].

(** ** The sorters as [sort.Interface] *)

(** [s[i]] on a slice: an index outside it is a run-time panic ([None]). *)
Definition at_index {A} (s : list A) (i : Z) : option A :=
  if 0 <=? i then s !! Z.to_nat i else None.

Definition index {A} (s : list A) (i : Z) : M A :=
  match at_index s i with
  | Some x => ret x
  | None => panic
  end.

(** [s[i], s[j] = s[j], s[i]]: both operands are read, then [s[i]] is
    assigned, then [s[j]]. *)
Definition exchange {A} (s : list A) (i j : Z) : option (list A) :=
  sj ← at_index s j;
  si ← at_index s i;
  Some (<[Z.to_nat j := si]> (<[Z.to_nat i := sj]> s)).

Definition getScope (s : loc) : M Scope :=
  λ w, match scopeHeap w !! s with
       | Some sc => Done (sc, w)
       | None => Panicked
       end.

Module spanSorter.

Definition Len (s : list loc) : Z := Z.of_nat (length s).

Definition Swap (s : list loc) (i j : Z) : option (list loc) := exchange s i j.

Definition Less (s : list loc) (i j : Z) : M bool :=
  ispan <- index s i ;;
  jspan <- index s j ;;
  isp <- getSpan ispan ;;
  jsp <- getSpan jspan ;;
  let iname := FullName (span_f isp) in
  let jname := FullName (span_f jsp) in
  ret ((iname <? jname)%string
       || ((iname =? jname)%string && (span_id isp <? span_id jsp))).

End spanSorter.

Module scopeSorter.

Definition Len (s : list loc) : Z := Z.of_nat (length s).

Definition Swap (s : list loc) (i j : Z) : option (list loc) := exchange s i j.

Definition Less (s : list loc) (i j : Z) : M bool :=
  si <- index s i ;;
  sj <- index s j ;;
  isc <- getScope si ;;
  jsc <- getScope sj ;;
  ret (scope_name isc <? scope_name jsc)%string.

End scopeSorter.

(** ** Scopes, Funcs and Stats *)

(** The sort key of [scopeSorter]: the Scope's name. *)
Definition name_of (h : gmap loc Scope) (s : loc) : string :=
  match h !! s with
  | Some sc => scope_name sc
  | None => EmptyString
  end.

(** [scopeSorter.Less], on the two Scopes rather than on their indices. *)
Definition name_lt (h : gmap loc Scope) (a b : loc) : bool :=
  (name_of h a <? name_of h b)%string.

(** [sort.Sort(scopeSorter(c))]: as for the spans, a slice of two or more
    elements has each of them dereferenced. *)
Definition sortScopes (srt : sort_fn) (c : list loc) : M (list loc) :=
  λ w, if (length c <=? 1)%nat
          || forallb (λ s, bool_decide (is_Some (scopeHeap w !! s))) c
       then Done (srt _ (name_lt (scopeHeap w)) c, w)
       else Panicked.

Definition Scopes (sh : shuffle) (srt : sort_fn) (cb : loc → M unit)
  : M unit :=
  Lock the_scopeMtx ;;;
  r <- getR ;;
  let c := (permute sh _ (map_to_list (scopes r))).*2 in
  Unlock the_scopeMtx ;;;
  c <- sortScopes srt c ;;
  forM_ c cb.

(** [Scope.Funcs] and [Scope.Stats] are declared outside registry.go; the
    two functions below take them as arguments. *)
Definition Funcs {F} (Scope_Funcs : loc → (F → M unit) → M unit)
    (sh : shuffle) (srt : sort_fn) (cb : F → M unit) : M unit :=
  Scopes sh srt (λ s, Scope_Funcs s cb).

(** [fmt.Sprintf("%s.%s", s.name, name)]; [s.name] is read when the inner
    closure runs. *)
Definition Stats {V} (Scope_Stats : loc → (string → V → M unit) → M unit)
    (sh : shuffle) (srt : sort_fn) (cb : string → V → M unit) : M unit :=
  Scopes sh srt (λ s,
    Scope_Stats s (λ name val,
      sc <- getScope s ;;
      cb (scope_name sc +:+ "." +:+ name) val)).

(** A Scope method that hands the entries of a list to its callback, one
    after the other. *)
Definition reporting {A} (entries : loc → list A)
  : loc → (A → M unit) → M unit :=
  λ s cb, forM_ (entries s) cb.

(** Every Scope of the map is a live object that carries the name it is
    stored under. *)
Definition scopes_named (w : World) : Prop :=
  ∀ name s, scopes (registry w) !! name = Some s →
            scopeHeap w !! s = Some (mkScope name).

(** A world with three Scopes. *)
Definition world_three_scopes : World :=
  mkWorld
    (set_scopes (<[ "server" := 1%positive ]>
                 (<[ "client" := 2%positive ]>
                  {[ "main"%string := 3%positive ]})) NewRegistry)
    (<[ 1%positive := mkScope "server" ]>
     (<[ 2%positive := mkScope "client" ]>
      {[ 3%positive := mkScope "main" ]})) ∅ [].

(** ** Calls of the Registry, one at a time *)

Inductive reg_call :=
| CallObserveTraces (cb : TraceFn) (sh : shuffle)
| CallCancel (cbId : Z) (sh : shuffle)
| CallObserveTrace (t : Trace)
| CallPackageNamed (name : string)
| CallRootSpanStart (s : loc)
| CallRootSpanEnd (s : loc)
| CallOrphanedSpan (s : loc)
| CallOrphanEnd (s : loc).

Definition run_call (c : reg_call) : M unit :=
  match c with
  | CallObserveTraces cb sh => ObserveTraces cb sh ;;; ret tt
  | CallCancel cbId sh => cancel cbId sh
  | CallObserveTrace t => observeTrace t
  | CallPackageNamed name => PackageNamed name ;;; ret tt
  | CallRootSpanStart s => rootSpanStart s
  | CallRootSpanEnd s => rootSpanEnd s
  | CallOrphanedSpan s => orphanedSpan s
  | CallOrphanEnd s => orphanEnd s
  end.

(** The mutex a call takes, if it takes one. *)
Definition mutex_of (c : reg_call) : option mutex :=
  match c with
  | CallObserveTraces _ _ | CallCancel _ _ => Some the_watcherMtx
  | CallObserveTrace _ => None
  | CallPackageNamed _ => Some the_scopeMtx
  | CallRootSpanStart _ | CallRootSpanEnd _ => Some the_spanMtx
  | CallOrphanedSpan _ | CallOrphanEnd _ => Some the_orphanMtx
  end.

(** No mutex of the Registry is held. *)
Definition unlocked (r : Registry) : Prop :=
  watcherMtx r = false ∧ scopeMtx r = false ∧
  spanMtx r = false ∧ orphanMtx r = false.

(** The four mutexes are in the same state in both Registries. *)
Definition same_mutexes (r r' : Registry) : Prop :=
  watcherMtx r' = watcherMtx r ∧ scopeMtx r' = scopeMtx r ∧
  spanMtx r' = spanMtx r ∧ orphanMtx r' = orphanMtx r.

(** The visitor that takes each span it is handed out of both sets. *)
Definition end_span (s : loc) : M unit := rootSpanEnd s ;;; orphanEnd s.

(** ** The test client *)

Abbreviation error := string (only parsing).

(** What the world answers to one [clientCall]: whether [http.NewRequest]
    fails, what the [caller] returns, and what [io.ReadAll] reads from the
    body of the response. *)
Record Response := mkResponse {
  resp_body : string + error;
  resp_tracestate : string }.

Record attempt := mkAttempt {
  newRequest_err : option error;
  caller_result : Response + error }.

Definition clientCall (a : attempt) : string * string * option error :=
  match newRequest_err a with
  | Some err => (EmptyString, EmptyString, Some err)
  | None =>
      match caller_result a with
      | inr err => (EmptyString, EmptyString, Some err)
      | inl resp =>
          match resp_body resp with
          | inr err => (EmptyString, EmptyString, Some err)
          | inl body => (body, resp_tracestate resp, None)
          end
      end
  end.

(** The test process: how many calls it made and how long it slept, in
    milliseconds. *)
Record TestWorld := mkTestWorld { calls : nat; slept : Z }.

Inductive test_outcome (A : Type) :=
| Returned (a : A)
| Fatal (arg : option error).   (* t.Fatal(arg): the test stops here *)
Arguments Returned {A} a.
Arguments Fatal {A} arg.

(** The loop of [clientCallWithRetry] with [n] rounds to go.  [err] is the
    variable declared before the loop; the [err] assigned in the body is
    another variable, declared by [:=] in the scope of the body. *)
Fixpoint retry (env : nat → attempt) (n : nat) (err : option error)
    (tw : TestWorld) : test_outcome (string * string) * TestWorld :=
  match n with
  | O => (Fatal err, tw)
  | S n' =>
      let '(body, header, err') := clientCall (env (calls tw)) in
      let tw := mkTestWorld (S (calls tw)) (slept tw) in
      match err' with
      | None => (Returned (body, header), tw)
      | Some _ => retry env n' err (mkTestWorld (calls tw) (slept tw + 50))
      end
  end.

Definition clientCallWithRetry (env : nat → attempt) (tw : TestWorld)
  : test_outcome (string * string) * TestWorld :=
  retry env 100 None tw.

(** The index of the first call, among the next [n], that succeeds. *)
Definition first_success (env : nat → attempt) (from n : nat) (k : nat)
  : Prop :=
  (k < n)%nat ∧ (clientCall (env (from + k)%nat)).2 = None ∧
  ∀ i, (i < k)%nat → (clientCall (env (from + i)%nat)).2 ≠ None.

(** [Scope.Stats] of a Scope that reports the entries of a list. *)
Definition reporting_stats {V} (stats : loc → list (string * V))
  : loc → (string → V → M unit) → M unit :=
  λ s cb, forM_ (stats s) (λ p, cb p.1 p.2).

(** A callback that leaves the Scopes as they are. *)
Definition keeps_scopes {V} (cb : string → V → M unit) : Prop :=
  ∀ name val w r w', cb name val w = Done (r, w') → scopeHeap w' = scopeHeap w.

(** The stats of Scope [s] under the names [Stats] forwards them with. *)
Definition prefixed {V} (h : gmap loc Scope) (s : loc)
    (stats : list (string * V)) : list (string * V) :=
  (λ p, (name_of h s +:+ "." +:+ p.1, p.2)) <$> stats.

(** A span store with a cycle: span 1 has child 2, whose child is 1. *)
Definition world_cycle : World :=
  mkWorld (set_spans {[1%positive]} NewRegistry) ∅
    (<[ 1%positive := mkSpan (mkFunc "a") 1 (mkTrace 0 ∅) None None
                        [2%positive] false ]>
     {[ 2%positive := mkSpan (mkFunc "b") 2 (mkTrace 0 ∅) (Some 1%positive)
                        None [1%positive] false ]}) [].

(** Some span reachable from [s] is its own descendant. *)
Definition reaches_cycle (h : gmap loc Span) (s : loc) : Prop :=
  ∃ c, rtc (child h) s c ∧ descendant h c c.

(** A server that refuses the first [n] calls and answers the others. *)
Definition up_after (n : nat) (body header : string) : nat → attempt :=
  λ i, if (i <? n)%nat
       then mkAttempt None (inr "connection refused"%string)
       else mkAttempt None (inl (mkResponse (inl body) header)).

(** * Properties *)

(** ** The watcher path *)

Lemma updateWatcher_run sh w :
  updateWatcher sh w =
  Done (tt, set_registry
              (set_traceWatcher (published sh (traceWatchers (registry w)))
                                (registry w)) w).
Proof.
  unfold updateWatcher, published, bind, getR.
  destruct ((permute sh _ (map_to_list (traceWatchers (registry w)))).*2)
    as [|cb [|cb' cbs]]; reflexivity.
Qed.

Lemma ObserveTraces_run cb sh w :
  watcherMtx (registry w) = false →
  ObserveTraces cb sh w =
  Done (cancel (watcherCounter (registry w)),
        set_registry (after_register cb sh (registry w)) w).
Proof.
  intros Hfree. destruct w as [r sc sp o]. destruct r. simpl in Hfree. subst.
  unfold ObserveTraces, bind, Lock, getR, modR. simpl.
  rewrite updateWatcher_run. reflexivity.
Qed.

Lemma cancel_run cbId sh w :
  watcherMtx (registry w) = false →
  cancel cbId sh w =
  Done (tt, set_registry (after_cancel cbId sh (registry w)) w).
Proof.
  intros Hfree. destruct w as [r sc sp o]. destruct r. simpl in Hfree. subst.
  unfold cancel, bind, Lock, modR. simpl.
  rewrite updateWatcher_run. reflexivity.
Qed.

Lemma observeTrace_run t w :
  observeTrace t w =
  Done (tt, set_out (out w ++ match traceWatcher (registry w) with
                              | Some ref => watcher ref t
                              | None => []
                              end) w).
Proof.
  unfold observeTrace, bind, getR, emit, ret.
  destruct (traceWatcher (registry w)); [reflexivity|].
  rewrite app_nil_r. by destruct w.
Qed.



(** Every call of the watcher interface returns, releases the mutex and
    leaves a closure that matches the map. *)
Lemma exec_consistent cs : ∀ cancels w,
  watcherMtx (registry w) = false →
  consistent (registry w) →
  Forall is_cancel cancels →
  ∃ cancels' w',
    exec cs cancels w = Done (cancels', w') ∧
    watcherMtx (registry w') = false ∧
    consistent (registry w') ∧
    Forall is_cancel cancels'.
Proof.
  induction cs as [|c cs IH]; intros cancels w Hfree Hcons Hcan.
  - by exists cancels, w.
  - destruct c as [cb sh|i sh|t]; simpl.
    + unfold bind. rewrite ObserveTraces_run by done.
      apply IH.
      * by destruct w as [[] ? ? ?].
      * exists sh. by destruct w as [[] ? ? ?].
      * apply Forall_app. split; [done|]. repeat constructor. by eexists.
    + destruct (cancels !! i) as [c|] eqn:Hi; [|by apply IH].
      assert (is_cancel c) as [cbId ->].
      { eapply Forall_forall; [exact Hcan|]. by eapply list_elem_of_lookup_2. }
      unfold bind. rewrite cancel_run by done.
      apply IH; [by destruct w as [[] ? ? ?]| |done].
      exists sh. by destruct w as [[] ? ? ?].
    + unfold bind. rewrite observeTrace_run. by apply IH.
Qed.

(** [observeTrace] returns while every mutex is held. *)
Example observeTrace_with_mutexes_held :
  let r := set_watcherMtx true (set_scopeMtx true (set_spanMtx true
             (set_orphanMtx true (after_register (named 1) in_order
                                    NewRegistry)))) in
  let t := mkTrace 7 ∅ in
  observeTrace t (mkWorld r ∅ ∅ []) = Done (tt, mkWorld r ∅ ∅ [Watched 1 t]) ∧
  ObserveTraces (named 2) in_order (mkWorld r ∅ ∅ []) = Blocked.
Proof. split; reflexivity. Qed.

(** Three watchers, a trace, the second watcher cancelled twice, a trace. *)
Example three_watchers :
  let t := mkTrace 7 ∅ in
  ∃ cancels w,
    exec [DoObserveTraces (named 1) in_order;
          DoObserveTraces (named 2) reversed;
          DoObserveTraces (named 3) in_order;
          DoObserveTrace t;
          DoCancel 1 reversed; DoCancel 1 in_order;
          DoObserveTrace t] [] (mkWorld NewRegistry ∅ ∅ []) =
      Done (cancels, w) ∧
    out w = [Watched 3 t; Watched 2 t; Watched 1 t; Watched 3 t; Watched 1 t].
Proof. do 2 eexists. split; [by vm_compute|]. reflexivity. Qed.






(** *** Watcher ids *)

Lemma wrap64_small z : MinInt64 ≤ z ≤ MaxInt64 → wrap64 z = z.
Proof.
  unfold MinInt64, MaxInt64, wrap64. intros Hz.
  rewrite Z.mod_small; lia.
Qed.

Lemma wrap64_succ z : wrap64 (wrap64 z + 1) = wrap64 (z + 1).
Proof.
  unfold wrap64.
  replace ((z + 2 ^ 63) `mod` 2 ^ 64 - 2 ^ 63 + 1 + 2 ^ 63)
    with ((z + 2 ^ 63) `mod` 2 ^ 64 + 1) by lia.
  rewrite Zplus_mod_idemp_l. f_equal. f_equal. lia.
Qed.

Lemma wrap64_zero_iff z : 0 < z < 2 ^ 64 → wrap64 z ≠ 0.
Proof.
  unfold wrap64. intros Hz Heq.
  destruct (Z.lt_ge_cases z (2 ^ 63)).
  - rewrite Z.mod_small in Heq; lia.
  - replace (z + 2 ^ 63) with (z - 2 ^ 63 + 1 * 2 ^ 64) in Heq by lia.
    rewrite Z_mod_plus_full, Z.mod_small in Heq; lia.
Qed.

Lemma cancel_only_own_entry cbId sh w :
  watcherMtx (registry w) = false →
  ∃ w', cancel cbId sh w = Done (tt, w') ∧
        watcherMtx (registry w') = false ∧
        watcherCounter (registry w') = watcherCounter (registry w) ∧
        ∀ k, k ≠ cbId →
             traceWatchers (registry w') !! k = traceWatchers (registry w) !! k.
Proof.
  intros Hfree. eexists. split; [by apply cancel_run|].
  split; [by destruct w as [[] ? ? ?]|].
  split; [by destruct w as [[] ? ? ?]|].
  intros k Hk. simpl. by rewrite lookup_delete_ne.
Qed.

Lemma exec_ids cs : ∀ (k : nat) w,
  watcherMtx (registry w) = false →
  watcherCounter (registry w) = wrap64 (Z.of_nat k) →
  (∀ i, is_Some (traceWatchers (registry w) !! i) → 0 ≤ i < Z.of_nat k) →
  Z.of_nat (k + registrations cs) ≤ 2 ^ 63 →
  ∃ w',
    exec cs (cancels_upto k) w =
      Done (cancels_upto (k + registrations cs), w') ∧
    watcherMtx (registry w') = false ∧
    watcherCounter (registry w') = wrap64 (Z.of_nat (k + registrations cs)) ∧
    (∀ i, is_Some (traceWatchers (registry w') !! i) →
          0 ≤ i < Z.of_nat (k + registrations cs)).
Proof.
  induction cs as [|c cs IH]; intros k w Hfree Hctr Hdom Hbound.
  - simpl in *. rewrite Nat.add_0_r. by exists w.
  - destruct c as [cb sh|i sh|t]; simpl in *.
    + unfold bind. rewrite ObserveTraces_run by done.
      rewrite Hctr, wrap64_small by (unfold MinInt64, MaxInt64; lia).
      replace (cancels_upto k ++ [cancel (Z.of_nat k)])
        with (cancels_upto (S k)).
      2:{ unfold cancels_upto. by rewrite seq_S, fmap_app. }
      replace (k + S (registrations cs))%nat
        with (S k + registrations cs)%nat by lia.
      apply IH; [by destruct w as [[] ? ? ?]| | |lia].
      * destruct w as [[] ? ? ?]. simpl in *. rewrite Hctr.
        rewrite wrap64_succ. f_equal. lia.
      * intros i. destruct w as [[] ? ? ?]. simpl in *. rewrite Hctr.
        rewrite wrap64_small by (unfold MinInt64, MaxInt64; lia).
        rewrite lookup_insert. case_decide; [lia|].
        intros Hi%Hdom. lia.
    + destruct (cancels_upto k !! i) as [c|] eqn:Hi; [|by apply IH].
      assert (∃ cbId, c = cancel cbId) as [cbId ->].
      { unfold cancels_upto in Hi. apply list_lookup_fmap_Some in Hi.
        destruct Hi as (j & -> & _). by eexists. }
      destruct (cancel_only_own_entry cbId sh w Hfree)
        as (w' & Hrun & Hfree' & Hctr' & Hother).
      unfold bind. rewrite Hrun.
      apply IH; [done|congruence| |done].
      intros j Hj. apply Hdom.
      destruct (decide (j = cbId)) as [->|Hne]; [|by rewrite <-Hother].
      exfalso. revert Hj.
      rewrite (cancel_run cbId sh w Hfree) in Hrun. injection Hrun as <-.
      simpl. rewrite lookup_delete_eq. by intros [? ?].
    + unfold bind. rewrite observeTrace_run. by apply IH.
Qed.

Lemma churn_run n cb sh : ∀ z w,
  watcherMtx (registry w) = false →
  traceWatcher (registry w) = published sh (traceWatchers (registry w)) →
  watcherCounter (registry w) = wrap64 z →
  (∀ j : nat, (j < n)%nat →
     traceWatchers (registry w) !! wrap64 (z + Z.of_nat j) = None) →
  churn n cb sh w =
  Done (tt, set_registry
              (set_watcherCounter (wrap64 (z + Z.of_nat n)) (registry w)) w).
Proof.
  induction n as [|n IH]; intros z w Hfree Hpub Hctr Hfresh.
  - simpl. unfold ret. rewrite Z.add_0_r, <-Hctr. by destruct w as [[] ? ? ?].
  - simpl. unfold bind at 1 2. rewrite ObserveTraces_run by done.
    rewrite cancel_run by done.
    assert (Habs : traceWatchers (registry w) !! watcherCounter (registry w)
                   = None).
    { rewrite Hctr. specialize (Hfresh O). rewrite Z.add_0_r in Hfresh.
      apply Hfresh. lia. }
    set (w1 := set_registry _ _).
    assert (Hw1 : w1 = set_registry
                         (set_watcherCounter (wrap64 (z + 1)) (registry w)) w).
    { subst w1. destruct w as [[] ? ? ?]. simpl in *.
      unfold after_cancel, after_register. simpl.
      rewrite delete_insert_id by done.
      rewrite <-Hpub, Hctr, wrap64_succ. reflexivity. }
    rewrite Hw1. rewrite (IH (z + 1)).
    + replace (z + Z.of_nat (S n)) with (z + 1 + Z.of_nat n) by lia.
      by destruct w as [[] ? ? ?].
    + by destruct w as [[] ? ? ?].
    + by destruct w as [[] ? ? ?].
    + by destruct w as [[] ? ? ?].
    + intros j Hj. destruct w as [[] ? ? ?]. simpl in *.
      specialize (Hfresh (S j)).
      replace (z + 1 + Z.of_nat j) with (z + Z.of_nat (S j)) by lia.
      apply Hfresh. lia.
Qed.

(** C9, as far as the counter reaches.  A client that starts from
    [NewRegistry()] and registers at most [2^63] times is handed, for its
    [i]-th registration, the cancel function of id [i]: the ids are
    [0, 1, 2, ...], each larger than the one before and none used twice,
    also when the same callback is registered again.  Every key of the
    watcher map is one of these ids.  And whatever the world, the cancel
    function of id [i] returns and leaves every entry other than [i] as it
    was. *)
Theorem watcher_ids_unique_until_wrap (script : list call) (w0 : World)
    (Hbound : Z.of_nat (registrations script) ≤ 2 ^ 63) :
  ∃ w,
    exec script [] (set_registry NewRegistry w0) =
      Done (cancels_upto (registrations script), w) ∧
    watcherCounter (registry w) = wrap64 (Z.of_nat (registrations script)) ∧
    (∀ i, is_Some (traceWatchers (registry w) !! i) →
          0 ≤ i < Z.of_nat (registrations script)) ∧
    ∀ (i : Z) sh w',
      watcherMtx (registry w') = false →
      ∃ w'', cancel i sh w' = Done (tt, w'') ∧
             ∀ k, k ≠ i →
                  traceWatchers (registry w'') !! k =
                  traceWatchers (registry w') !! k.
Proof.
  destruct (exec_ids script O (set_registry NewRegistry w0))
    as (w & Hrun & _ & Hctr & Hdom); [done|done| |done|].
  { simpl. intros i. rewrite lookup_empty. by intros [? ?]. }
  exists w. split; [done|]. split; [done|]. split; [done|].
  intros i sh w' Hfree.
  destruct (cancel_only_own_entry i sh w' Hfree) as (w'' & ? & _ & _ & ?).
  by exists w''.
Qed.

(** C9 at a concrete client: the same callback registered twice, the first
    registration cancelled. *)
Lemma watcher_ids_unique_until_wrap_witness :
  let script := [DoObserveTraces (named 1) in_order;
                 DoObserveTraces (named 1) reversed;
                 DoCancel 0 in_order] in
  Z.of_nat (registrations script) ≤ 2 ^ 63 ∧
  ∃ w,
    exec script [] (mkWorld NewRegistry ∅ ∅ []) = Done (cancels_upto 2, w) ∧
    watcherCounter (registry w) = wrap64 2.
Proof.
  intros script. split; [simpl; lia|].
  destruct (watcher_ids_unique_until_wrap script (mkWorld NewRegistry ∅ ∅ []))
    as (w & Hrun & Hctr & _); [simpl; lia|].
  by exists w.
Defined.

(** C9 as stated does not survive the wrap-around of the [int64] counter.
    At [MaxInt64] the next value of the counter is [MinInt64], which is
    smaller.  And [wrapped_world] is reached from [NewRegistry()] by
    registering [named 1] and then registering and cancelling another
    callback [2^64 - 1] times; there a new registration is handed id [0]
    again, it replaces the entry of [named 1], and the cancel function of
    the first registration removes the entry of the new one. *)
Lemma watcher_ids_reused_after_wrap :
  (∃ c w1,
     ObserveTraces (named 1) in_order
       (mkWorld (set_watcherCounter MaxInt64 NewRegistry) ∅ ∅ []) =
       Done (c, w1) ∧
     watcherCounter (registry w1) = MinInt64 ∧
     watcherCounter (registry w1) < MaxInt64) ∧
  ∃ (n : nat) c1 w1 c2 w3 w4,
    Z.of_nat n = 2 ^ 64 - 1 ∧
    ObserveTraces (named 1) in_order (mkWorld NewRegistry ∅ ∅ []) =
      Done (c1, w1) ∧
    churn n (named 2) in_order w1 = Done (tt, wrapped_world) ∧
    ObserveTraces (named 2) in_order wrapped_world = Done (c2, w3) ∧
    c1 = cancel 0 ∧ c2 = cancel 0 ∧
    traceWatchers (registry w3) = {[ 0 := named 2 ]} ∧
    c1 in_order w3 = Done (tt, w4) ∧
    traceWatchers (registry w4) = ∅.
Proof.
  split.
  { do 2 eexists. split; [by apply ObserveTraces_run|]. by vm_compute. }
  remember (Z.to_nat (2 ^ 64 - 1)) as n eqn:Hn.
  assert (Hn' : Z.of_nat n = 2 ^ 64 - 1) by (subst n; by rewrite Z2Nat.id).
  clear Hn.
  exists n. do 5 eexists.
  split; [done|].
  split; [by apply ObserveTraces_run|].
  split.
  { rewrite (churn_run n (named 2) in_order 1).
    - simpl. rewrite Hn'. reflexivity.
    - done.
    - reflexivity.
    - reflexivity.
    - intros j Hj. simpl. rewrite lookup_insert_ne; [apply lookup_empty|].
      intros Heq. symmetry in Heq. revert Heq. apply wrap64_zero_iff. lia. }
  split; [by apply ObserveTraces_run|].
  split; [done|]. split; [done|].
  split; [simpl; apply insert_singleton_eq|].
  split; [by apply cancel_run|].
  simpl. rewrite delete_insert_eq. apply delete_singleton_eq.
Qed.

(** ** Scopes *)

Lemma PackageNamed_run name w :
  scopeMtx (registry w) = false →
  PackageNamed name w =
  match scopes (registry w) !! name with
  | Some s => Done (s, w)
  | None => Done (fresh (dom (scopeHeap w)), with_new_scope name w)
  end.
Proof.
  intros Hfree. destruct w as [r sc sp o]. destruct r. simpl in *. subst.
  unfold PackageNamed, bind, Lock, getR. simpl.
  destruct (_ !! name) as [s|]; reflexivity.
Qed.

Lemma PackageNamed_keeps name s other w :
  scopeMtx (registry w) = false →
  scopes (registry w) !! name = Some s →
  ∃ s' w', PackageNamed other w = Done (s', w') ∧
           scopeMtx (registry w') = false ∧
           scopes (registry w') !! name = Some s.
Proof.
  intros Hfree Hs. rewrite PackageNamed_run by done.
  destruct (scopes (registry w) !! other) as [s'|] eqn:Ho.
  - by exists s', w.
  - do 2 eexists. split; [done|]. split; [by destruct w as [[] ? ? ?]|].
    simpl. rewrite lookup_insert_ne; [done|]. congruence.
Qed.

Lemma forM_PackageNamed_keeps name s others : ∀ w,
  scopeMtx (registry w) = false →
  scopes (registry w) !! name = Some s →
  ∃ ss w', forM PackageNamed others w = Done (ss, w') ∧
           scopeMtx (registry w') = false ∧
           scopes (registry w') !! name = Some s.
Proof.
  induction others as [|o others IH]; intros w Hfree Hs.
  - by exists [], w.
  - destruct (PackageNamed_keeps name s o w Hfree Hs)
      as (s' & w' & Hrun & Hfree' & Hs').
    destruct (IH w' Hfree' Hs') as (ss & w'' & Hrun' & ? & ?).
    exists (s' :: ss), w''. simpl. unfold bind. by rewrite Hrun, Hrun'.
Qed.

(** C2. [PackageNamed(name)] returns a Scope [s] and leaves it stored under
    [name].  When no Scope was stored under [name] the call allocates [s]
    at an address no Scope had, as a Scope of that name, and the only
    change to the map is the new entry; when one was stored it is the one
    returned and the world is unchanged.  Calling again returns the same
    [s] and changes nothing, and so does any later call, whatever other
    names were looked up in between. *)
Theorem PackageNamed_idempotent (name : string) (w : World)
    (Hfree : scopeMtx (registry w) = false) :
  ∃ s w1,
    PackageNamed name w = Done (s, w1) ∧
    scopes (registry w1) !! name = Some s ∧
    (scopes (registry w) !! name = None →
       (s ∉ dom (scopeHeap w)) ∧
       scopeHeap w1 = <[s := mkScope name]> (scopeHeap w) ∧
       scopes (registry w1) = <[name := s]> (scopes (registry w))) ∧
    (∀ s0, scopes (registry w) !! name = Some s0 → s = s0 ∧ w1 = w) ∧
    PackageNamed name w1 = Done (s, w1) ∧
    ∀ others : list string,
      ∃ ss w2,
        forM PackageNamed others w1 = Done (ss, w2) ∧
        PackageNamed name w2 = Done (s, w2).
Proof.
  assert (∃ s w1, PackageNamed name w = Done (s, w1) ∧
                  scopeMtx (registry w1) = false ∧
                  scopes (registry w1) !! name = Some s ∧
                  (scopes (registry w) !! name = None →
                   (s ∉ dom (scopeHeap w)) ∧
                   scopeHeap w1 = <[s := mkScope name]> (scopeHeap w) ∧
                   scopes (registry w1) = <[name := s]> (scopes (registry w))) ∧
                  (∀ s0, scopes (registry w) !! name = Some s0 →
                         s = s0 ∧ w1 = w))
    as (s & w1 & Hrun & Hfree1 & Hs & Hnew & Hold).
  { rewrite PackageNamed_run by done.
    destruct (scopes (registry w) !! name) as [s|] eqn:Hl.
    - exists s, w. split; [done|]. split; [done|]. split; [done|].
      split; [done|]. by intros s0 [= ->].
    - do 2 eexists. split; [done|]. split; [by destruct w as [[] ? ? ?]|].
      split; [apply lookup_insert_eq|]. split; [|done].
      intros _. split; [apply is_fresh|done]. }
  exists s, w1. repeat (split; [done|]).
  split.
  { rewrite PackageNamed_run by done. by rewrite Hs. }
  intros others.
  destruct (forM_PackageNamed_keeps name s others w1 Hfree1 Hs)
    as (ss & w2 & Hrun2 & Hfree2 & Hs2).
  exists ss, w2. split; [done|].
  rewrite PackageNamed_run by done. by rewrite Hs2.
Qed.

(** C2 at a concrete world: a fresh Registry, the name looked up before and
    after two other names. *)
Lemma PackageNamed_idempotent_witness :
  let w := mkWorld NewRegistry ∅ ∅ [] in
  scopeMtx (registry w) = false ∧
  ∃ s w1 ss w2,
    PackageNamed "monkit" w = Done (s, w1) ∧
    forM PackageNamed ["client"; "server"]%string w1 = Done (ss, w2) ∧
    PackageNamed "monkit" w2 = Done (s, w2).
Proof.
  intros w. split; [reflexivity|].
  destruct (PackageNamed_idempotent "monkit" w eq_refl)
    as (s & w1 & Hrun & _ & _ & _ & _ & Hlater).
  destruct (Hlater ["client"; "server"]%string) as (ss & w2 & ? & ?).
  by exists s, w1, ss, w2.
Defined.

(** ** The order of [spanSorter] *)

Lemma string_ltb_lt (a b : string) :
  (a <? b)%string = true ↔ OrderedTypeEx.String_as_OT.lt a b.
Proof.
  rewrite <-OrderedTypeEx.String_as_OT.cmp_lt.
  unfold String.ltb, OrderedTypeEx.String_as_OT.cmp.
  destruct (String.compare a b); naive_solver.
Qed.

Lemma string_lt_irrefl (a : string) : ¬ OrderedTypeEx.String_as_OT.lt a a.
Proof. intros H. by apply OrderedTypeEx.String_as_OT.lt_not_eq in H. Qed.

Lemma string_trichotomy (a b : string) :
  OrderedTypeEx.String_as_OT.lt a b ∨ a = b ∨
  OrderedTypeEx.String_as_OT.lt b a.
Proof.
  destruct (String.compare a b) eqn:Hc.
  - right; left. by apply String.compare_eq_iff.
  - left. by apply OrderedTypeEx.String_as_OT.cmp_lt.
  - right; right. apply OrderedTypeEx.String_as_OT.cmp_lt.
    unfold OrderedTypeEx.String_as_OT.cmp.
    rewrite String.compare_antisym, Hc. done.
Qed.

Lemma key_lt_before a b : key_lt a b = true ↔ key_before a b.
Proof.
  unfold key_lt, key_before.
  rewrite orb_true_iff, andb_true_iff, string_ltb_lt, String.eqb_eq,
    Z.ltb_lt. done.
Qed.

Lemma key_before_irrefl a : ¬ key_before a a.
Proof.
  intros [H|[_ H]]; [by apply string_lt_irrefl in H|lia].
Qed.

Lemma key_before_trans a b c :
  key_before a b → key_before b c → key_before a c.
Proof.
  intros [H1|[E1 H1]] [H2|[E2 H2]].
  - left. by eapply OrderedTypeEx.String_as_OT.lt_trans.
  - left. by rewrite <-E2.
  - left. by rewrite E1.
  - right. split; [congruence|lia].
Qed.

Lemma key_trichotomy a b : key_before a b ∨ a = b ∨ key_before b a.
Proof.
  destruct a as [n1 i1], b as [n2 i2]. unfold key_before. simpl.
  destruct (string_trichotomy n1 n2) as [H|[->|H]]; [by left; left| |by right; right; left].
  destruct (Z.lt_trichotomy i1 i2) as [H|[->|H]].
  - left; right. done.
  - right; left. done.
  - right; right; right. done.
Qed.

Lemma key_order_false a b : sort_order key_lt a b ↔ ¬ key_before b a.
Proof.
  unfold sort_order. rewrite <-key_lt_before. by destruct (key_lt b a).
Qed.

Global Instance key_order_total : Total (sort_order key_lt).
Proof.
  intros a b. rewrite !key_order_false.
  destruct (key_trichotomy a b) as [H|[->|H]].
  - left. intros H'. eapply key_before_irrefl, key_before_trans; eauto.
  - left. apply key_before_irrefl.
  - right. intros H'. eapply key_before_irrefl, key_before_trans; eauto.
Qed.

Global Instance key_order_trans : Transitive (sort_order key_lt).
Proof.
  intros a b c. rewrite !key_order_false. intros Hab Hbc Hca.
  destruct (key_trichotomy a b) as [H|[->|H]]; [|done..].
  apply Hbc. by eapply key_before_trans.
Qed.

Global Instance key_order_antisym : AntiSymm (=) (sort_order key_lt).
Proof.
  intros a b. rewrite !key_order_false. intros Hab Hba.
  by destruct (key_trichotomy a b) as [H|[->|H]].
Qed.

Lemma Less_total h : Total (sort_order (Less h)).
Proof. intros a b. apply (key_order_total (key_of h a) (key_of h b)). Qed.

Lemma Less_trans h : Transitive (sort_order (Less h)).
Proof.
  intros a b c. apply (key_order_trans (key_of h a) (key_of h b) (key_of h c)).
Qed.

(** ** Insertion sort meets the contract of [sort.Sort] *)

Lemma sift_perm {A} (lt : A → A → bool) x acc : sift lt x acc ≡ₚ x :: acc.
Proof.
  induction acc as [|p ps IH]; simpl; [done|].
  destruct (lt x p); [|done]. rewrite IH. apply Permutation_swap.
Qed.

Lemma sift_HdRel {A} (lt : A → A → bool) x p ps :
  lt p x = false →
  HdRel (flip (sort_order lt)) p ps →
  HdRel (flip (sort_order lt)) p (sift lt x ps).
Proof.
  intros Hpx Hhd. destruct ps as [|q qs]; simpl; [by constructor|].
  destruct (lt x q); constructor; [|done]. by inversion Hhd.
Qed.

Lemma sift_Sorted {A} (lt : A → A → bool) x acc :
  Total (sort_order lt) →
  Sorted (flip (sort_order lt)) acc →
  Sorted (flip (sort_order lt)) (sift lt x acc).
Proof.
  intros Htot. induction 1 as [|p ps Hs IH Hhd]; simpl.
  { repeat constructor. }
  destruct (lt x p) eqn:Hxp.
  - constructor; [done|]. apply sift_HdRel; [|done].
    destruct (Htot x p) as [H|H]; unfold sort_order in H; congruence.
  - constructor; [by constructor|]. by constructor.
Qed.

Lemma insertionSort_sorts : sorts insertionSort.
Proof.
  intros A lt l. unfold insertionSort.
  assert (Hgen : ∀ acc,
    foldl (λ acc x, sift lt x acc) acc l ≡ₚ reverse l ++ acc ∧
    (Total (sort_order lt) → Sorted (flip (sort_order lt)) acc →
     Sorted (flip (sort_order lt)) (foldl (λ acc x, sift lt x acc) acc l))).
  { induction l as [|x l IH]; intros acc; simpl; [done|].
    destruct (IH (sift lt x acc)) as [Hp Hs]. split.
    - by rewrite Hp, sift_perm, reverse_cons, <-app_assoc.
    - intros Htot Hacc. apply Hs; [done|]. by apply sift_Sorted. }
  destruct (Hgen []) as [Hp Hs]. split.
  - by rewrite reverse_Permutation, Hp, app_nil_r, reverse_Permutation.
  - intros Htot Htrans. apply Sorted_StronglySorted; [done|].
    apply (Sorted_reverse (flip (sort_order lt))). apply Hs; [done|].
    constructor.
Qed.

(** ** RootSpans *)

Lemma forM__visit l : ∀ w,
  forM_ l visit w = Done (tt, set_out (out w ++ (Visited <$> l)) w).
Proof.
  induction l as [|s l IH]; intros w; simpl.
  - unfold ret. rewrite app_nil_r. by destruct w.
  - unfold bind, visit, emit. rewrite IH. simpl.
    by rewrite <-app_assoc.
Qed.

Lemma snapshot_perm sh1 sh2 r :
  snapshot sh1 sh2 r ≡ₚ elements (spans r) ++ elements (orphans r).
Proof. unfold snapshot. by rewrite !permute_perm. Qed.

Lemma elem_of_snapshot sh1 sh2 r s :
  s ∈ snapshot sh1 sh2 r ↔ s ∈ spans r ∪ orphans r.
Proof.
  rewrite snapshot_perm, elem_of_app, !elem_of_elements. set_solver.
Qed.

Lemma sortSpans_run srt l w :
  (∀ s, s ∈ l → is_Some (spanHeap w !! s)) →
  sortSpans srt l w = Done (srt _ (Less (spanHeap w)) l, w).
Proof.
  intros Hall. unfold sortSpans.
  assert (forallb (λ s, bool_decide (is_Some (spanHeap w !! s))) l = true)
    as ->; [|by rewrite orb_true_r].
  apply forallb_forall. intros s Hs. apply bool_decide_eq_true.
  apply Hall. by apply list_elem_of_In.
Qed.

Lemma RootSpans_run sh1 sh2 srt cb w :
  spanMtx (registry w) = false →
  orphanMtx (registry w) = false →
  spans_allocated w →
  RootSpans sh1 sh2 srt cb w =
  forM_ (srt _ (Less (spanHeap w)) (snapshot sh1 sh2 (registry w))) cb w.
Proof.
  intros Hm1 Hm2 Hall.
  assert (Hfa : forallb (λ s, bool_decide (is_Some (spanHeap w !! s)))
                  (snapshot sh1 sh2 (registry w)) = true).
  { apply forallb_forall. intros s Hs. apply bool_decide_eq_true.
    apply Hall. apply (elem_of_snapshot sh1 sh2). by apply list_elem_of_In. }
  destruct w as [r sc sp o]. destruct r. simpl in *. subst.
  unfold RootSpans, sortedRootSpans, bind, Lock, Unlock, getR, sortSpans.
  simpl.
  unfold snapshot in Hfa. simpl in Hfa. by rewrite Hfa, orb_true_r.
Qed.

Lemma same_keys_same_list {A B} (f : A → B) (l1 : list A) : ∀ l2,
  l1 ≡ₚ l2 →
  f <$> l1 = f <$> l2 →
  (∀ a b, a ∈ l1 → b ∈ l1 → f a = f b → a = b) →
  l1 = l2.
Proof.
  induction l1 as [|x l1 IH]; intros [|y l2] Hp Heq Hinj; try done.
  injection Heq as Hxy Heq.
  assert (x = y) as <-.
  { apply Hinj; [left| |done]. rewrite Hp. left. }
  f_equal. apply IH; [by eapply Permutation_cons_inv|done|].
  intros a b Ha Hb. apply Hinj; by right.
Qed.

(** The outcome of [RootSpans] with the recording visitor, in full. *)
Lemma RootSpans_visit sh1 sh2 srt w :
  sorts srt →
  spanMtx (registry w) = false →
  orphanMtx (registry w) = false →
  spans_allocated w →
  ∃ visited,
    RootSpans sh1 sh2 srt visit w =
      Done (tt, set_out (out w ++ (Visited <$> visited)) w) ∧
    visited ≡ₚ elements (spans (registry w)) ++ elements (orphans (registry w)) ∧
    StronglySorted (sort_order (Less (spanHeap w))) visited.
Proof.
  intros Hsrt Hm1 Hm2 Hall.
  exists (srt _ (Less (spanHeap w)) (snapshot sh1 sh2 (registry w))).
  destruct (Hsrt _ (Less (spanHeap w)) (snapshot sh1 sh2 (registry w)))
    as [Hp Hs].
  split; [by rewrite RootSpans_run, forM__visit|].
  split; [by rewrite Hp, snapshot_perm|].
  apply Hs; [apply Less_total|apply Less_trans].
Qed.

Lemma disjoint_sets_NoDup (X Y : gset loc) (l : list loc) :
  X ## Y → l ≡ₚ elements X ++ elements Y → NoDup l.
Proof.
  intros Hdisj ->. apply NoDup_app.
  split; [apply NoDup_elements|]. split; [|apply NoDup_elements].
  intros s. rewrite !elem_of_elements. set_solver.
Qed.

(** C3, as the code has it.  With both mutexes free and every span of the
    two sets a live object, [RootSpans(visit)] returns and has called
    [visit] on the spans of a list [visited] that is a rearrangement of the
    root-span set followed by the orphan set: every span of either set is
    visited, once for each of the two sets that holds it, so exactly once
    each when the sets are disjoint.  No span comes after one whose key
    (full name of the Func, then span id) is larger.  A second call with no
    mutation in between, whatever order the maps are walked in and however
    [sort.Sort] breaks ties, visits the same sequence of keys; it visits
    the same sequence of spans when no two of the spans share a key. *)
Theorem RootSpans_sorted_snapshot
    (sh1 sh2 sh1' sh2' : shuffle) (srt srt' : sort_fn) (w : World)
    (Hsrt : sorts srt) (Hsrt' : sorts srt')
    (Hm1 : spanMtx (registry w) = false)
    (Hm2 : orphanMtx (registry w) = false)
    (Hall : spans_allocated w) :
  let h := spanHeap w in
  let r := registry w in
  ∃ visited visited' w1,
    RootSpans sh1 sh2 srt visit w = Done (tt, w1) ∧
    w1 = set_out (out w ++ (Visited <$> visited)) w ∧
    visited ≡ₚ elements (spans r) ++ elements (orphans r) ∧
    (∀ s, s ∈ visited ↔ s ∈ spans r ∪ orphans r) ∧
    (spans r ## orphans r → NoDup visited) ∧
    StronglySorted (λ a b, key_lt (key_of h b) (key_of h a) = false) visited ∧
    RootSpans sh1' sh2' srt' visit w1 =
      Done (tt, set_out (out w1 ++ (Visited <$> visited')) w1) ∧
    key_of h <$> visited' = key_of h <$> visited ∧
    ((∀ a b, a ∈ visited → b ∈ visited → key_of h a = key_of h b → a = b) →
     visited' = visited).
Proof.
  intros h r.
  destruct (RootSpans_visit sh1 sh2 srt w) as (visited & Hrun & Hp & Hs);
    try done.
  set (w1 := set_out (out w ++ (Visited <$> visited)) w) in *.
  destruct (RootSpans_visit sh1' sh2' srt' w1) as (visited' & Hrun' & Hp' & Hs');
    try done.
  exists visited, visited', w1.
  split; [done|]. split; [done|]. split; [done|].
  split.
  { intros s. rewrite Hp, elem_of_app, !elem_of_elements. set_solver. }
  split.
  { intros Hdisj. by eapply disjoint_sets_NoDup. }
  split; [done|]. split; [done|].
  assert (Hpp : visited' ≡ₚ visited) by (by rewrite Hp, Hp').
  assert (Hkeys : key_of h <$> visited' = key_of h <$> visited).
  { apply (StronglySorted_unique (sort_order key_lt)).
    - eapply StronglySorted_fmap; [|exact Hs']. done.
    - eapply StronglySorted_fmap; [|exact Hs]. done.
    - by rewrite Hpp. }
  split; [done|].
  intros Hinj. apply (same_keys_same_list (key_of h)); [done|done|].
  intros a b Ha Hb. apply Hinj; by rewrite <-Hpp.
Qed.

Lemma world_three_spans_allocated : spans_allocated world_three_spans.
Proof.
  intros s Hs. simpl in Hs.
  rewrite !elem_of_union, !elem_of_singleton in Hs.
  destruct Hs as [[-> | ->] | ->]; by vm_compute; eexists.
Qed.

(** C3 at a concrete world: two root spans and an orphan; the second call
    walks the root set backwards. *)
Lemma RootSpans_sorted_snapshot_witness :
  sorts insertionSort ∧
  spanMtx (registry world_three_spans) = false ∧
  orphanMtx (registry world_three_spans) = false ∧
  spans_allocated world_three_spans ∧
  ∃ visited visited' w1,
    RootSpans in_order in_order insertionSort visit world_three_spans =
      Done (tt, w1) ∧
    visited ≡ₚ elements (spans (registry world_three_spans)) ++
               elements (orphans (registry world_three_spans)) ∧
    RootSpans reversed in_order insertionSort visit w1 =
      Done (tt, set_out (out w1 ++ (Visited <$> visited')) w1) ∧
    key_of (spanHeap world_three_spans) <$> visited' =
    key_of (spanHeap world_three_spans) <$> visited.
Proof.
  split; [apply insertionSort_sorts|].
  split; [reflexivity|]. split; [reflexivity|].
  split; [apply world_three_spans_allocated|].
  destruct (RootSpans_sorted_snapshot in_order in_order reversed in_order
              insertionSort insertionSort world_three_spans
              insertionSort_sorts insertionSort_sorts eq_refl eq_refl
              world_three_spans_allocated)
    as (visited & visited' & w1 & H1 & _ & H2 & _ & _ & _ & H3 & H4 & _).
  by exists visited, visited', w1.
Defined.

(** C3 as stated fails in two ways.  Two spans with the same key (here
    two root spans of one Func that were given the same id in two traces)
    are visited in the order the map walk happened to produce them, so two
    calls with no mutation in between can visit them in different orders.
    And a span held by both sets is visited twice. *)
Lemma RootSpans_reorders_or_visits_twice :
  (exec_spans equal_keys_script [] (mkWorld NewRegistry ∅ ∅ []) =
     Done ([1%positive; 2%positive], world_equal_keys) ∧
   ∃ w1 w2,
     RootSpans in_order in_order insertionSort visit world_equal_keys =
       Done (tt, w1) ∧
     out w1 = [Visited 2%positive; Visited 1%positive] ∧
     RootSpans reversed in_order insertionSort visit w1 = Done (tt, w2) ∧
     out w2 = out w1 ++ [Visited 1%positive; Visited 2%positive]) ∧
  (∃ w1, RootSpans in_order in_order insertionSort visit world_span_in_both =
           Done (tt, w1) ∧
         out w1 = [Visited 1%positive; Visited 1%positive]).
Proof.
  split; [split|].
  - by vm_compute.
  - do 2 eexists. split; [by vm_compute|]. split; [reflexivity|].
    split; [by vm_compute|]. reflexivity.
  - eexists. split; [by vm_compute|]. reflexivity.
Qed.

(** ** Walking the span trees *)

Lemma elem_of_concat_Forall2 {A B} (f : A → option (list B)) cs ls x :
  Forall2 (λ c l, f c = Some l) cs ls →
  x ∈ concat ls ↔ ∃ c l, c ∈ cs ∧ f c = Some l ∧ x ∈ l.
Proof.
  induction 1 as [|c l cs ls HP _ IH]; simpl.
  - split; [by intros ?%elem_of_nil|]. by intros (? & ? & ?%elem_of_nil & _).
  - rewrite elem_of_app, IH. split.
    + intros [Hx|(c' & l' & Hc' & HP' & Hx)].
      * exists c, l. split; [left|done].
      * exists c', l'. split; [by right|done].
    + intros (c' & l' & Hc' & HP' & Hx).
      apply elem_of_cons in Hc' as [->|Hc'].
      * left. congruence.
      * right. by exists c', l'.
Qed.

Lemma before_concat_Forall2 {A} (f : A → option (list loc)) cs ls c l a d :
  Forall2 (λ c l, f c = Some l) cs ls →
  c ∈ cs → f c = Some l → before a d l → before a d (concat ls).
Proof.
  induction 1 as [|c' l' cs ls HP _ IH]; simpl.
  - by intros ?%elem_of_nil.
  - intros Hc Hl Hb. apply elem_of_cons in Hc as [->|Hc].
    + assert (l' = l) as -> by congruence.
      destruct Hb as (l1 & l2 & l3 & ->).
      exists l1, l2, (l3 ++ concat ls).
      rewrite <-app_assoc. simpl. by rewrite <-app_assoc.
    + destruct (IH Hc Hl Hb) as (l1 & l2 & l3 & ->).
      exists (l' ++ l1), l2, l3. by rewrite <-app_assoc.
Qed.

Lemma NoDup_concat_Forall2 {A B} (f : A → option (list B)) cs ls :
  Forall2 (λ c l, f c = Some l) cs ls →
  NoDup cs →
  (∀ c l, c ∈ cs → f c = Some l → NoDup l) →
  (∀ c c' l l' x, c ∈ cs → c' ∈ cs → c ≠ c' →
     f c = Some l → f c' = Some l' → x ∈ l → x ∉ l') →
  NoDup (concat ls).
Proof.
  induction 1 as [|c l cs ls HP HF IH]; simpl; intros Hnd Hl Hdisj.
  { constructor. }
  apply NoDup_cons in Hnd as [Hc Hnd].
  apply NoDup_app. split; [|split].
  - apply (Hl c); [left|done].
  - intros x Hx Hx'.
    apply (elem_of_concat_Forall2 f cs) in Hx' as (c' & l' & Hc' & HP' & Hx');
      [|done].
    eapply (Hdisj c c'); eauto; [left|by right|]. by intros ->.
  - apply IH; [done| |].
    + intros c' l' Hc'. apply Hl. by right.
    + intros c1 c2 l1 l2 x H1 H2. apply Hdisj; by right.
Qed.

Section walk.
Context (h : gmap loc Span).

Lemma preorder_unfold fuel s l :
  preorder (S fuel) h s = Some l ↔
  ∃ sp ls, h !! s = Some sp ∧
           Forall2 (λ c l, preorder fuel h c = Some l) (span_children sp) ls ∧
           l = s :: concat ls.
Proof.
  simpl. split.
  - intros H. destruct (h !! s) as [sp|]; [|done]. simpl in H.
    destruct (mapM _ _) as [ls|] eqn:Hm; [|done]. simpl in H.
    injection H as <-. exists sp, ls. split; [done|].
    split; [by apply mapM_Some|done].
  - intros (sp & ls & -> & Hm%mapM_Some & ->). simpl. by rewrite Hm.
Qed.

(** The walk hands over a span exactly when the root of the walk reaches
    it. *)
Lemma preorder_reaches fuel : ∀ s l,
  preorder fuel h s = Some l → ∀ x, x ∈ l ↔ rtc (child h) s x.
Proof.
  induction fuel as [|fuel IH]; intros s l Hl x; [done|].
  apply preorder_unfold in Hl as (sp & ls & Hs & Hls & ->).
  rewrite elem_of_cons, (elem_of_concat_Forall2 _ _ _ _ Hls). split.
  - intros [->|(c & lc & Hc & Hlc & Hx)]; [done|].
    apply (rtc_l _ _ c); [by exists sp|]. by apply (IH c lc).
  - intros [->|(c & (sp' & Hs' & Hc) & Hcx)]%rtc_inv; [by left|].
    right. assert (sp' = sp) as -> by congruence.
    apply list_elem_of_lookup_1 in Hc as Hi. destruct Hi as [i Hi].
    destruct (Forall2_lookup_l _ _ _ _ _ Hls Hi) as (lc & _ & Hlc).
    exists c, lc. split; [done|]. split; [done|]. by apply (IH c lc).
Qed.

(** A span is handed over before each of its descendants. *)
Lemma preorder_before fuel : ∀ s l,
  preorder fuel h s = Some l →
  ∀ a d, a ∈ l → descendant h a d → before a d l.
Proof.
  induction fuel as [|fuel IH]; intros s l Hl a d Ha Had; [done|].
  pose proof (preorder_reaches _ _ _ Hl) as Hreach.
  apply preorder_unfold in Hl as (sp & ls & Hs & Hls & ->).
  apply elem_of_cons in Ha as [->|Ha].
  - assert (d ∈ concat ls) as Hd.
    { apply (elem_of_concat_Forall2 _ _ _ _ Hls).
      inversion Had as [? ? (sp' & Hs' & Hc)|? c ? (sp' & Hs' & Hc) Hcd];
        subst; assert (sp' = sp) as -> by congruence.
      - apply list_elem_of_lookup_1 in Hc as Hi. destruct Hi as [i Hi].
        destruct (Forall2_lookup_l _ _ _ _ _ Hls Hi) as (lc & _ & Hlc).
        exists d, lc. split; [done|]. split; [done|].
        by apply (preorder_reaches _ _ _ Hlc).
      - apply list_elem_of_lookup_1 in Hc as Hi. destruct Hi as [i Hi].
        destruct (Forall2_lookup_l _ _ _ _ _ Hls Hi) as (lc & _ & Hlc).
        exists c, lc. split; [done|]. split; [done|].
        apply (preorder_reaches _ _ _ Hlc). by apply tc_rtc. }
    apply list_elem_of_split in Hd as (l2 & l3 & ->).
    by exists [], l2, l3.
  - apply (elem_of_concat_Forall2 _ _ _ _ Hls) in Ha
      as (c & lc & Hc & Hlc & Ha).
    pose proof (IH c lc Hlc a d Ha Had) as Hb.
    destruct (before_concat_Forall2 _ _ _ _ _ _ _ Hls Hc Hlc Hb)
      as (l1 & l2 & l3 & ->).
    by exists (s :: l1), l2, l3.
Qed.

(** With single parents the ancestors of a span form a chain. *)
Lemma ancestors_chain x a :
  single_parent h →
  rtc (child h) a x → ∀ b, rtc (child h) b x →
  rtc (child h) a b ∨ rtc (child h) b a.
Proof.
  intros [Hpar _] Hax. revert x Hax.
  refine (rtc_ind_r _ a _ _); [by right|].
  intros y x Hay Hyx IH b Hbx.
  apply rtc_inv_r in Hbx as [->|(y' & Hby' & Hy'x)].
  - left. by eapply rtc_r.
  - assert (y' = y) as -> by (by eapply Hpar). by apply IH.
Qed.

Lemma subtrees_apart c c' x :
  single_parent h → c ≠ c' →
  rtc (child h) c x → rtc (child h) c' x →
  (∃ p, rtc (child h) c p ∧ child h p c') ∨
  (∃ p, rtc (child h) c' p ∧ child h p c).
Proof.
  intros Hsp Hne Hc Hc'.
  destruct (ancestors_chain x c Hsp Hc c' Hc') as [H|H].
  - apply rtc_inv_r in H as [?|H]; [done|]. by left.
  - apply rtc_inv_r in H as [?|H]; [done|]. by right.
Qed.

Lemma siblings_apart s c c' x :
  single_parent h → acyclic h → c ≠ c' →
  child h s c → child h s c' →
  rtc (child h) c x → rtc (child h) c' x → False.
Proof.
  intros Hsp Hac Hne Hsc Hsc' Hc Hc'.
  destruct (subtrees_apart c c' x Hsp Hne Hc Hc')
    as [(p & Hcp & Hpc')|(p & Hcp & Hpc)].
  - assert (p = s) as Hp by (eapply (proj1 Hsp); eauto). subst p.
    apply (Hac s). eapply tc_rtc_r; [apply tc_once; exact Hsc|exact Hcp].
  - assert (p = s) as Hp by (eapply (proj1 Hsp); eauto). subst p.
    apply (Hac s). eapply tc_rtc_r; [apply tc_once; exact Hsc'|exact Hcp].
Qed.

(** In a tree the walk hands over no span twice. *)
Lemma preorder_NoDup fuel :
  single_parent h → acyclic h →
  ∀ s l, preorder fuel h s = Some l → NoDup l.
Proof.
  intros Hsp Hac. induction fuel as [|fuel IH]; intros s l Hl; [done|].
  apply preorder_unfold in Hl as (sp & ls & Hs & Hls & ->).
  apply NoDup_cons. split.
  - intros (c & lc & Hc & Hlc & Hx)%(elem_of_concat_Forall2 _ _ _ _ Hls).
    apply (Hac s). eapply tc_rtc_r; [apply tc_once; by exists sp|].
    by apply (preorder_reaches _ _ _ Hlc).
  - apply (NoDup_concat_Forall2 _ _ _ Hls).
    + by apply (proj2 Hsp s).
    + intros c lc _. apply IH.
    + intros c c' lc lc' x Hc Hc' Hne Hlc Hlc' Hx Hx'.
      apply (siblings_apart s c c' x); try done; try by exists sp.
      * by apply (preorder_reaches _ _ _ Hlc).
      * by apply (preorder_reaches _ _ _ Hlc').
Qed.

(** Termination: in an acyclic store a walk needs no more fuel than
    there are spans that are not among the ancestors of its root. *)
Lemma preorder_terminates_from fuel :
  acyclic h → children_allocated h →
  ∀ (P : gset loc) s,
    is_Some (h !! s) →
    (∀ p, p ∈ P → descendant h p s) →
    P ⊆ dom h →
    (size (dom h ∖ P) ≤ fuel)%nat →
    is_Some (preorder fuel h s).
Proof.
  intros Hac Hcl. induction fuel as [|fuel IH]; intros P s Hs HP Hdom Hsize.
  - exfalso. assert (s ∈ dom h ∖ P) as Hin.
    { apply elem_of_difference. split; [by apply elem_of_dom|].
      intros Hp%HP. by apply (Hac s). }
    assert (size (dom h ∖ P) ≠ 0)%nat; [|lia].
    intros Hz%size_empty_inv. set_solver.
  - destruct Hs as [sp Hs]. simpl. rewrite Hs. simpl.
    assert (is_Some (mapM (preorder fuel h) (span_children sp))) as [ls ->];
      [|done].
    apply mapM_is_Some, Forall_forall. intros c Hc.
    assert (s ∉ P) as HsP by (intros Hp%HP; by apply (Hac s)).
    apply (IH ({[s]} ∪ P)).
    + apply (Hcl s). by exists sp.
    + intros p [->%elem_of_singleton|Hp]%elem_of_union.
      * apply tc_once. by exists sp.
      * eapply tc_r; [by apply HP|]. by exists sp.
    + apply union_subseteq. split; [|done].
      apply singleton_subseteq_l, elem_of_dom. by eexists.
    + assert (size (dom h ∖ P) = size (dom h ∖ ({[s]} ∪ P)) + 1)%nat; [|lia].
      rewrite <-(size_singleton (C:=gset loc) s), <-size_union by set_solver.
      assert (s ∈ dom h) as Hsd by (apply elem_of_dom; by eexists).
      f_equal. apply set_eq. intros y.
      destruct (decide (y = s)) as [->|Hne]; set_solver.
Qed.

Lemma preorder_terminates fuel s :
  acyclic h → children_allocated h →
  is_Some (h !! s) → (size (dom h) ≤ fuel)%nat →
  is_Some (preorder fuel h s).
Proof.
  intros Hac Hcl Hs Hsize.
  apply (preorder_terminates_from fuel Hac Hcl ∅); try done.
  by rewrite difference_empty_L.
Qed.
End walk.

Lemma forM__emits {A} (f : A → M unit) (g : A → option (list loc)) h cs ls :
  (∀ c l w, spanHeap w = h → g c = Some l →
            f c w = Done (tt, set_out (out w ++ (Visited <$> l)) w)) →
  Forall2 (λ c l, g c = Some l) cs ls →
  ∀ w, spanHeap w = h →
       forM_ cs f w = Done (tt, set_out (out w ++ (Visited <$> concat ls)) w).
Proof.
  intros Hf. induction 1 as [|c l cs ls Hg _ IH]; intros w Hw; simpl.
  - unfold ret. rewrite app_nil_r. by destruct w.
  - unfold bind. rewrite (Hf c l w Hw Hg). rewrite IH by (by destruct w).
    destruct w. simpl. by rewrite fmap_app, app_assoc.
Qed.

Lemma walkSpan_visit fuel : ∀ s l w,
  preorder fuel (spanHeap w) s = Some l →
  walkSpan fuel s visit w = Done (tt, set_out (out w ++ (Visited <$> l)) w).
Proof.
  induction fuel as [|fuel IH]; intros s l w Hl; [done|].
  apply preorder_unfold in Hl as (sp & ls & Hs & Hls & ->).
  simpl. unfold bind, visit, emit, Children. simpl. rewrite Hs.
  rewrite (forM__emits _ (preorder fuel (spanHeap w)) (spanHeap w) _ ls);
    [| |done|done].
  - destruct w. simpl. by rewrite <-app_assoc.
  - intros c l w' Hw' Hc. apply IH. by rewrite Hw'.
Qed.

(** C10. Take a world whose span store is acyclic (no span is its own
    descendant) and a forest: children are live objects, a span is the
    child of at most one span and at most once, and the spans of the root
    and orphan sets are in no child set and in one of the two sets only.
    With the mutexes free and as much fuel as the store has spans,
    [walkSpan] from any live span returns, and so does [AllSpans]: it has
    called the callback on the concatenation, over the spans [roots] that
    [RootSpans] visits and in that order, of the pre-order walk of each (the
    span, then the walks of its children one after the other).  In that
    sequence no span occurs twice, the spans that occur are those reachable
    from a root or orphan, and each span occurs before each of its
    descendants. *)
Theorem AllSpans_preorder_once
    (fuel : nat) (sh1 sh2 : shuffle) (srt : sort_fn) (w : World)
    (Hsrt : sorts srt)
    (Hm1 : spanMtx (registry w) = false)
    (Hm2 : orphanMtx (registry w) = false)
    (Hall : spans_allocated w)
    (Hcl : children_allocated (spanHeap w))
    (Hac : acyclic (spanHeap w))
    (Htree : single_parent (spanHeap w))
    (Hroots : roots_apart w)
    (Hfuel : (size (dom (spanHeap w)) ≤ fuel)%nat) :
  let h := spanHeap w in
  let r := registry w in
  (∀ s, is_Some (h !! s) →
     ∃ l, preorder fuel h s = Some l ∧
          walkSpan fuel s visit w =
            Done (tt, set_out (out w ++ (Visited <$> l)) w)) ∧
  ∃ roots ls,
    RootSpans sh1 sh2 srt visit w =
      Done (tt, set_out (out w ++ (Visited <$> roots)) w) ∧
    Forall2 (λ s l, preorder fuel h s = Some l) roots ls ∧
    AllSpans fuel sh1 sh2 srt visit w =
      Done (tt, set_out (out w ++ (Visited <$> concat ls)) w) ∧
    NoDup (concat ls) ∧
    (∀ x, x ∈ concat ls ↔
          ∃ s, s ∈ spans r ∪ orphans r ∧ rtc (child h) s x) ∧
    (∀ a d, a ∈ concat ls → descendant h a d → before a d (concat ls)).
Proof.
  intros h r.
  assert (Hterm : ∀ s, is_Some (h !! s) → is_Some (preorder fuel h s)).
  { intros s Hs. by apply preorder_terminates. }
  split.
  { intros s [l Hl]%Hterm. exists l. split; [done|]. by apply walkSpan_visit. }
  set (roots := srt _ (Less h) (snapshot sh1 sh2 r)).
  destruct (Hsrt _ (Less h) (snapshot sh1 sh2 r)) as [Hp _].
  assert (Hin : ∀ s, s ∈ roots ↔ s ∈ spans r ∪ orphans r).
  { intros s. unfold roots. rewrite Hp. apply elem_of_snapshot. }
  assert (is_Some (mapM (preorder fuel h) roots)) as [ls Hls].
  { apply mapM_is_Some, Forall_forall. intros s Hs. apply Hterm, Hall.
    by apply Hin. }
  apply mapM_Some in Hls.
  exists roots, ls.
  split; [by rewrite RootSpans_run, forM__visit|].
  split; [done|].
  split.
  { unfold AllSpans. rewrite RootSpans_run by done.
    apply (forM__emits _ (preorder fuel h) h); [|done|done].
    intros c l w' Hw' Hc. apply walkSpan_visit. by rewrite Hw'. }
  split.
  { apply (NoDup_concat_Forall2 _ _ _ Hls).
    - eapply disjoint_sets_NoDup; [exact (proj1 Hroots)|].
      unfold roots. by rewrite Hp, snapshot_perm.
    - intros s l _. by apply preorder_NoDup.
    - intros s s' l l' x Hs Hs' Hne Hl Hl' Hx Hx'.
      apply (preorder_reaches _ _ _ _ Hl) in Hx.
      apply (preorder_reaches _ _ _ _ Hl') in Hx'.
      destruct Hroots as [_ Hnp].
      destruct (subtrees_apart h s s' x Htree Hne Hx Hx')
        as [(p & _ & Hc)|(p & _ & Hc)]; eapply Hnp; try exact Hc;
        by apply Hin. }
  split.
  { intros x. rewrite (elem_of_concat_Forall2 _ _ _ _ Hls). split.
    - intros (s & l & Hs & Hl & Hx). exists s. split; [by apply Hin|].
      by apply (preorder_reaches _ _ _ _ Hl).
    - intros (s & Hs & Hx). destruct (Hterm s) as [l Hl].
      { apply Hall. done. }
      exists s, l. split; [by apply Hin|]. split; [done|].
      by apply (preorder_reaches _ _ _ _ Hl). }
  intros a d Ha Had.
  apply (elem_of_concat_Forall2 _ _ _ _ Hls) in Ha as (s & l & Hs & Hl & Ha).
  eapply before_concat_Forall2; eauto.
  by eapply preorder_before.
Qed.

(** *** A concrete forest *)

Ltac decide_by_computing :=
  match goal with
  | |- ?P => apply (@bool_decide_unpack P _); vm_compute; exact I
  end.

Lemma child_map_Forall h (P : loc → loc → Prop) :
  map_Forall (λ p sp, Forall (P p) (span_children sp)) h →
  ∀ p c, child h p c → P p c.
Proof.
  intros HF p c (sp & Hp & Hc).
  specialize (HF p sp Hp). simpl in HF.
  by eapply Forall_forall in HF.
Qed.

Lemma acyclic_increasing h :
  (∀ p c, child h p c → (p < c)%positive) → acyclic h.
Proof.
  intros Hinc s Hs.
  assert (∀ a b, descendant h a b → (a < b)%positive) as Hlt.
  { induction 1 as [a b Hab|a b c Hab _ IH].
    - by apply Hinc.
    - apply Hinc in Hab. lia. }
  apply Hlt in Hs. lia.
Qed.

Lemma world_forest_well_formed :
  spans_allocated world_forest ∧
  children_allocated (spanHeap world_forest) ∧
  acyclic (spanHeap world_forest) ∧
  single_parent (spanHeap world_forest) ∧
  roots_apart world_forest.
Proof.
  set (h := spanHeap world_forest).
  assert (Hpar : ∀ p c, child h p c → (h !! c) ≫= span_parent = Some p).
  { apply (child_map_Forall h (λ p c, (h !! c) ≫= span_parent = Some p)).
    decide_by_computing. }
  split; [|split; [|split; [|split]]].
  - intros s Hs. simpl in Hs.
    rewrite elem_of_union, !elem_of_singleton in Hs.
    destruct Hs as [-> | ->]; by vm_compute; eexists.
  - intros p c Hc.
    assert (map_Forall
              (λ _ sp, Forall (λ c, is_Some (h !! c)) (span_children sp)) h)
      as HF by decide_by_computing.
    by apply (child_map_Forall h (λ _ c, is_Some (h !! c)) HF p c).
  - apply acyclic_increasing.
    apply (child_map_Forall h (λ p c, (p < c)%positive)).
    decide_by_computing.
  - split.
    + intros p q c Hp%Hpar Hq%Hpar. congruence.
    + intros p sp Hp.
      assert (map_Forall (λ _ sp, NoDup (span_children sp)) h) as HF
        by (decide_by_computing).
      by apply (HF p sp).
  - split.
    + decide_by_computing.
    + intros s p Hs Hc%Hpar. simpl in Hs.
      rewrite elem_of_union, !elem_of_singleton in Hs.
      destruct Hs as [-> | ->]; by vm_compute in Hc.
Qed.

(** C10 at a concrete world: [world_forest] is walked as 1, 2, 4, 3, 5. *)
Lemma AllSpans_preorder_once_witness :
  sorts insertionSort ∧
  spanMtx (registry world_forest) = false ∧
  orphanMtx (registry world_forest) = false ∧
  (size (dom (spanHeap world_forest)) ≤ 5)%nat ∧
  ∃ ls,
    AllSpans 5 in_order reversed insertionSort visit world_forest =
      Done (tt, set_out (out world_forest ++ (Visited <$> concat ls))
                  world_forest) ∧
    NoDup (concat ls).
Proof.
  split; [apply insertionSort_sorts|].
  split; [reflexivity|]. split; [reflexivity|].
  assert (Hsz : (size (dom (spanHeap world_forest)) ≤ 5)%nat)
    by (by vm_compute).
  split; [exact Hsz|].
  destruct world_forest_well_formed as (Ha & Hc & Hac & Ht & Hr).
  destruct (AllSpans_preorder_once 5 in_order reversed insertionSort
              world_forest insertionSort_sorts eq_refl eq_refl
              Ha Hc Hac Ht Hr Hsz)
    as (_ & roots & ls & _ & _ & Hrun & Hnd & _).
  by exists ls.
Defined.

Example AllSpans_world_forest :
  AllSpans 5 in_order reversed insertionSort visit world_forest =
  Done (tt, set_out [Visited 1%positive; Visited 2%positive;
                     Visited 4%positive; Visited 3%positive;
                     Visited 5%positive] world_forest).
Proof. by vm_compute. Qed.

(** ** The life of a span keeps the forest *)

Lemma child_insert h s sp a b :
  child (<[s := sp]> h) a b ↔
  (a = s ∧ b ∈ span_children sp) ∨ (a ≠ s ∧ child h a b).
Proof.
  unfold child. destruct (decide (a = s)) as [->|Hne].
  - rewrite lookup_insert_eq. naive_solver.
  - rewrite lookup_insert_ne by done. naive_solver.
Qed.

Lemma acyclic_mono h h' :
  (∀ a b, child h' a b → child h a b) → acyclic h → acyclic h'.
Proof.
  intros Hsub Hac s Hs. apply (Hac s).
  by apply (tc_congruence (λ x, x) (child h)) in Hs.
Qed.

(** Removing edges and set members keeps the forest. *)
Lemma forest_inv_shrink w w' :
  spanMtx (registry w') = false →
  orphanMtx (registry w') = false →
  dom (spanHeap w) ⊆ dom (spanHeap w') →
  spans (registry w') ⊆ spans (registry w) →
  orphans (registry w') ⊆ orphans (registry w) →
  (∀ a b, child (spanHeap w') a b → child (spanHeap w) a b) →
  (∀ p sp, spanHeap w' !! p = Some sp → NoDup (span_children sp)) →
  parents_allocated (spanHeap w') →
  forest_inv w → forest_inv w'.
Proof.
  intros Hm1 Hm2 Hdom Hsp Hor Hch Hnd Hpa
    (_ & _ & Hall & Hcl & _ & Hac & [Hone _] & [Hdisj Hnp]).
  split; [done|]. split; [done|]. split; [|split; [|split; [done|split]]].
  - intros s Hs. apply elem_of_dom, Hdom, elem_of_dom, Hall. set_solver.
  - intros p c Hc%Hch. by apply elem_of_dom, Hdom, elem_of_dom, (Hcl p).
  - by apply (acyclic_mono (spanHeap w)).
  - split; [split; [|done]|split].
    + intros p q c Hp%Hch Hq%Hch. by apply (Hone p q c).
    + set_solver.
    + intros s p Hs Hc%Hch. apply (Hnp s p); [set_solver|done].
Qed.

(** A new span that nothing refers to, put into one of the two sets. *)
Lemma forest_inv_new_root w w' s f id t pid :
  spanHeap w !! s = None →
  spanHeap w' = <[s := mkSpan f id t None pid [] false]> (spanHeap w) →
  spanMtx (registry w') = false →
  orphanMtx (registry w') = false →
  (spans (registry w') = {[s]} ∪ spans (registry w) ∧
   orphans (registry w') = orphans (registry w) ∨
   spans (registry w') = spans (registry w) ∧
   orphans (registry w') = {[s]} ∪ orphans (registry w)) →
  forest_inv w → forest_inv w'.
Proof.
  intros Hfresh Hh Hm1 Hm2 Hsets
    (_ & _ & Hall & Hcl & Hpa & Hac & [Hone Hnd] & [Hdisj Hnp]).
  assert (Hch : ∀ a b, child (spanHeap w') a b ↔ child (spanHeap w) a b).
  { intros a b. rewrite Hh, child_insert. simpl. split.
    - intros [[_ ?%elem_of_nil]|[_ ?]]; done.
    - intros Hc. right. split; [|done]. intros ->.
      destruct Hc as (sp & Hsp & _). congruence. }
  assert (Hsroot : s ∉ spans (registry w) ∪ orphans (registry w)).
  { intros [sp Hsp]%Hall. congruence. }
  assert (Hschild : ∀ p, ¬ child (spanHeap w) p s).
  { intros p [sp Hsp]%Hcl. congruence. }
  split; [done|]. split; [done|].
  split; [|split; [|split; [|split; [|split]]]].
  - intros x Hx. rewrite Hh.
    destruct (decide (x = s)) as [->|Hne]; [rewrite lookup_insert_eq; eauto|].
    rewrite lookup_insert_ne by done. apply Hall.
    destruct Hsets as [[Hs Ho]|[Hs Ho]]; rewrite Hs, Ho in Hx; set_solver.
  - intros p c Hc%Hch. rewrite Hh.
    destruct (decide (c = s)) as [->|Hne]; [rewrite lookup_insert_eq; eauto|].
    rewrite lookup_insert_ne by done. by apply (Hcl p).
  - intros x sp p. rewrite Hh.
    destruct (decide (x = s)) as [->|Hne].
    { rewrite lookup_insert_eq. by intros [= <-]. }
    rewrite lookup_insert_ne by done. intros Hx Hp.
    destruct (Hpa x sp p Hx Hp) as [psp Hpsp].
    destruct (decide (p = s)) as [->|Hne']; [congruence|].
    rewrite lookup_insert_ne by done. eauto.
  - apply (acyclic_mono (spanHeap w)); [|done]. intros a b. by rewrite Hch.
  - split.
    + intros p q c Hp%Hch Hq%Hch. by apply (Hone p q c).
    + intros p sp. rewrite Hh.
      destruct (decide (p = s)) as [->|Hne].
      { rewrite lookup_insert_eq. intros [= <-]. constructor. }
      rewrite lookup_insert_ne by done. apply Hnd.
  - split.
    + destruct Hsets as [[Hs Ho]|[Hs Ho]]; rewrite Hs, Ho; set_solver.
    + intros x p Hx Hc%Hch.
      destruct (decide (x = s)) as [->|Hne]; [by apply (Hschild p)|].
      apply (Hnp x p); [|done].
      destruct Hsets as [[Hs Ho]|[Hs Ho]]; rewrite Hs, Ho in Hx; set_solver.
Qed.

(** A new span that joins the child set of a span. *)
Lemma forest_inv_new_child w w' s p psp f id t pid :
  spanHeap w !! s = None →
  spanHeap w !! p = Some psp →
  spanHeap w' =
    <[p := add_child s psp]>
      (<[s := mkSpan f id t (Some p) pid [] false]> (spanHeap w)) →
  registry w' = registry w →
  forest_inv w → forest_inv w'.
Proof.
  intros Hfresh Hp Hh Hr
    (Hm1 & Hm2 & Hall & Hcl & Hpa & Hac & [Hone Hnd] & [Hdisj Hnp]).
  assert (Hps : p ≠ s) by congruence.
  assert (Hschild : ∀ q, ¬ child (spanHeap w) q s).
  { intros q [sp Hsp]%Hcl. congruence. }
  assert (Hsparent : ∀ c, ¬ child (spanHeap w) s c).
  { intros c (sp & Hsp & _). congruence. }
  assert (Hch : ∀ a b, child (spanHeap w') a b ↔
                       child (spanHeap w) a b ∨ (a = p ∧ b = s)).
  { intros a b. rewrite Hh, !child_insert. simpl.
    rewrite elem_of_app, list_elem_of_singleton. split.
    - intros [[-> [Hb| ->]]|[Hne [[_ ?%elem_of_nil]|[_ Hc]]]]; try done.
      + left. by exists psp.
      + by right.
      + by left.
    - intros [Hc|[-> ->]]; [|by left; split; [|right]].
      destruct (decide (a = p)) as [->|Hne].
      + left. split; [done|]. left.
        destruct Hc as (sp & Hsp & Hb). congruence.
      + right. split; [done|]. right. split; [|done].
        intros ->. by apply (Hsparent b). }
  assert (Hdom : ∀ x, is_Some (spanHeap w !! x) → is_Some (spanHeap w' !! x)).
  { intros x [sp Hx]. rewrite Hh.
    destruct (decide (x = p)) as [->|Hne]; [rewrite lookup_insert_eq; eauto|].
    rewrite lookup_insert_ne by done.
    rewrite lookup_insert_ne by congruence. eauto. }
  assert (Hs' : is_Some (spanHeap w' !! s)).
  { rewrite Hh, lookup_insert_ne, lookup_insert_eq by done. eauto. }
  split; [by rewrite Hr|]. split; [by rewrite Hr|].
  split; [|split; [|split; [|split; [|split]]]].
  - intros x Hx. rewrite Hr in Hx. by apply Hdom, Hall.
  - intros q c [Hc|[-> ->]]%Hch; [|done]. by apply Hdom, (Hcl q).
  - intros x sp q Hx Hq. rewrite Hh in Hx.
    destruct (decide (x = p)) as [->|Hne].
    { rewrite lookup_insert_eq in Hx. injection Hx as <-. simpl in Hq.
      by apply Hdom, (Hpa p psp q). }
    rewrite lookup_insert_ne in Hx by done.
    destruct (decide (x = s)) as [->|Hne'].
    { rewrite lookup_insert_eq in Hx. injection Hx as <-. simpl in Hq.
      injection Hq as <-. apply Hdom. eauto. }
    rewrite lookup_insert_ne in Hx by done.
    by apply Hdom, (Hpa x sp q).
  - assert (Htc : ∀ a b, descendant (spanHeap w') a b →
                         descendant (spanHeap w) a b ∨ b = s).
    { induction 1 as [a b [Hc|[-> ->]]%Hch|a c b [Hc|[-> ->]]%Hch _ IH].
      - left. by apply tc_once.
      - by right.
      - destruct IH as [IH| ->]; [|by right]. left. by eapply tc_l.
      - destruct IH as [IH| ->]; [|by right]. exfalso.
        inversion IH as [? ? Hc|? ? ? Hc _]; by apply Hsparent in Hc. }
    intros x Hx. destruct (Htc x x Hx) as [Hx'| ->]; [by apply (Hac x)|].
    inversion Hx as [? ? Hc|? ? ? Hc _]; subst;
      apply Hch in Hc as [Hc|[Heq _]]; try by apply Hsparent in Hc.
    all: congruence.
  - split.
    + intros q1 q2 c [H1|[-> ->]]%Hch [H2|[-> Hcs]]%Hch; try done.
      * by apply (Hone q1 q2 c).
      * subst. by apply Hschild in H1.
      * by apply Hschild in H2.
    + intros x sp. rewrite Hh.
      destruct (decide (x = p)) as [->|Hne].
      { rewrite lookup_insert_eq. intros [= <-]. simpl.
        apply NoDup_app. split; [by apply (Hnd p)|].
        split; [|apply NoDup_singleton].
        intros y Hy ->%list_elem_of_singleton.
        apply (Hschild p). by exists psp. }
      rewrite lookup_insert_ne by done.
      destruct (decide (x = s)) as [->|Hne'].
      { rewrite lookup_insert_eq. intros [= <-]. constructor. }
      rewrite lookup_insert_ne by done. apply Hnd.
  - split; [by rewrite Hr|].
    intros x q Hx [Hc|[-> ->]]%Hch; rewrite Hr in Hx.
    + by apply (Hnp x q).
    + apply Hall in Hx as [sp Hsp]. congruence.
Qed.

Lemma fresh_span_unallocated w : spanHeap w !! fresh (dom (spanHeap w)) = None.
Proof. apply not_elem_of_dom, is_fresh. Qed.

Lemma heap_refines_insert h s sp sp' :
  h !! s = Some sp →
  span_parent sp' = span_parent sp →
  (∀ c, c ∈ span_children sp' → c ∈ span_children sp) →
  (NoDup (span_children sp) → NoDup (span_children sp')) →
  heap_refines h (<[s := sp']> h).
Proof.
  intros Hs Hpar Hsub Hnd. split.
  - intros x Hx. destruct (decide (x = s)) as [->|Hne].
    + rewrite lookup_insert_eq. eauto.
    + by rewrite lookup_insert_ne.
  - intros x sp1. destruct (decide (x = s)) as [->|Hne].
    + rewrite lookup_insert_eq. intros [= <-]. by exists sp.
    + rewrite lookup_insert_ne by done. intros Hx. by exists sp1.
Qed.

Lemma heap_refines_trans h1 h2 h3 :
  heap_refines h1 h2 → heap_refines h2 h3 → heap_refines h1 h3.
Proof.
  intros [Hd12 H12] [Hd23 H23]. split; [by auto|].
  intros x sp3 Hx3.
  destruct (H23 x sp3 Hx3) as (sp2 & Hx2 & Hp2 & Hc2 & Hn2).
  destruct (H12 x sp2 Hx2) as (sp1 & Hx1 & Hp1 & Hc1 & Hn1).
  exists sp1. split; [done|]. split; [congruence|]. split; by auto.
Qed.

Lemma forest_inv_refine w w' :
  spanMtx (registry w') = false →
  orphanMtx (registry w') = false →
  heap_refines (spanHeap w) (spanHeap w') →
  spans (registry w') ⊆ spans (registry w) →
  orphans (registry w') ⊆ orphans (registry w) →
  forest_inv w → forest_inv w'.
Proof.
  intros Hm1 Hm2 [Hdom Href] Hsp Hor Hinv.
  pose proof Hinv as (_ & _ & _ & _ & Hpa & _ & [_ Hnd] & _).
  apply (forest_inv_shrink w w'); try done.
  - intros x Hx%elem_of_dom. by apply elem_of_dom, Hdom.
  - intros a b (sp' & Ha & Hb).
    destruct (Href a sp' Ha) as (sp & Ha' & _ & Hsub & _).
    exists sp. split; [done|]. by apply Hsub.
  - intros p sp' Hp.
    destruct (Href p sp' Hp) as (sp & Hp' & _ & _ & Hnd').
    by apply Hnd', (Hnd p).
  - intros x sp' p Hx Hp.
    destruct (Href x sp' Hx) as (sp & Hx' & Hpar & _ & _).
    apply Hdom, (Hpa x sp p); [done|congruence].
Qed.

Lemma forest_inv_initial w0 :
  forest_inv (set_spanHeap ∅ (set_registry NewRegistry w0)).
Proof.
  split; [done|]. split; [done|]. simpl.
  assert (Hno : ∀ p c, ¬ child (∅ : gmap loc Span) p c).
  { intros p c (sp & Hp & _). by rewrite lookup_empty in Hp. }
  split; [|split; [|split; [|split; [|split]]]].
  - intros s Hs. simpl in Hs. set_solver.
  - intros p c Hc. by apply Hno in Hc.
  - intros s sp p Hs. by rewrite lookup_empty in Hs.
  - intros s Hs. inversion Hs as [? ? Hc|? ? ? Hc _]; by apply Hno in Hc.
  - split.
    + intros p q c Hc. by apply Hno in Hc.
    + intros p sp Hp. by rewrite lookup_empty in Hp.
  - split; [simpl; set_solver|]. intros s p Hs. simpl in Hs. set_solver.
Qed.

(** *** What starting and finishing a span does to the world *)

Lemma spanStart_shape f id t parent pid w :
  spanMtx (registry w) = false →
  orphanMtx (registry w) = false →
  let s := fresh (dom (spanHeap w)) in
  ∃ w',
    spanStart f id t parent pid w = Done (s, w') ∧
    ((∃ p psp,
        spanHeap w !! p = Some psp ∧ span_done psp = false ∧
        spanHeap w' =
          <[p := add_child s psp]>
            (<[s := mkSpan f id t (Some p) (Some (span_id psp)) [] false]>
               (spanHeap w)) ∧
        registry w' = registry w) ∨
     (spanHeap w' = <[s := mkSpan f id t None pid [] false]> (spanHeap w) ∧
      spanMtx (registry w') = false ∧
      orphanMtx (registry w') = false ∧
      (pid = None ∧
       spans (registry w') = {[s]} ∪ spans (registry w) ∧
       orphans (registry w') = orphans (registry w) ∨
       is_Some pid ∧
       spans (registry w') = spans (registry w) ∧
       orphans (registry w') = {[s]} ∪ orphans (registry w)))).
Proof.
  intros Hm1 Hm2 s.
  unfold spanStart, bind at 1, knownParent.
  destruct (p ← parent; psp ← spanHeap w !! p;
            if span_done psp then None else Some (p, psp))
    as [[p psp]|] eqn:Hk.
  - assert (spanHeap w !! p = Some psp ∧ span_done psp = false) as [Hp Hd].
    { destruct parent as [p'|]; [|done]. simpl in Hk.
      destruct (spanHeap w !! p') as [psp'|] eqn:Hp'; [|done]. simpl in Hk.
      destruct (span_done psp') eqn:Hd; [done|]. by injection Hk as <- <-. }
    eexists. split; [reflexivity|]. left. by exists p, psp.
  - assert (∃ w',
      (s <- allocSpan (mkSpan f id t None pid [] false) ;;
       match pid with
       | Some _ => orphanedSpan s
       | None => rootSpanStart s
       end ;;; ret s) w = Done (s, w') ∧
      spanHeap w' = <[s := mkSpan f id t None pid [] false]> (spanHeap w) ∧
      spanMtx (registry w') = false ∧
      orphanMtx (registry w') = false ∧
      (pid = None ∧
       spans (registry w') = {[s]} ∪ spans (registry w) ∧
       orphans (registry w') = orphans (registry w) ∨
       is_Some pid ∧
       spans (registry w') = spans (registry w) ∧
       orphans (registry w') = {[s]} ∪ orphans (registry w)))
      as (w' & Hrun & Hrest).
    { clear Hk. unfold s. clear s.
      destruct w as [r sc sp o]. destruct r. simpl in *. subst.
      destruct pid; eexists; (split; [reflexivity|]); simpl;
        (split; [done|]); (split; [done|]); (split; [done|]);
        [right|left]; eauto. }
    exists w'. split; [done|]. by right.
Qed.

Lemma spanFinish_shape s sp w :
  spanMtx (registry w) = false →
  orphanMtx (registry w) = false →
  parents_allocated (spanHeap w) →
  spanHeap w !! s = Some sp →
  ∃ w',
    spanFinish s w = Done (tt, w') ∧
    (span_done sp = true ∧ w' = w ∨
     span_done sp = false ∧
     (∃ p psp,
        span_parent sp = Some p ∧
        <[s := mark_done sp]> (spanHeap w) !! p = Some psp ∧
        spanHeap w' =
          <[p := remove_child s psp]> (<[s := mark_done sp]> (spanHeap w)) ∧
        registry w' = registry w) ∨
     span_done sp = false ∧
     span_parent sp = None ∧
     spanHeap w' = <[s := mark_done sp]> (spanHeap w) ∧
     spanMtx (registry w') = false ∧
     orphanMtx (registry w') = false ∧
     (span_parentId sp = None ∧
      spans (registry w') = spans (registry w) ∖ {[s]} ∧
      orphans (registry w') = orphans (registry w) ∨
      is_Some (span_parentId sp) ∧
      spans (registry w') = spans (registry w) ∧
      orphans (registry w') = orphans (registry w) ∖ {[s]})).
Proof.
  intros Hm1 Hm2 Hpa Hs.
  unfold spanFinish, bind at 1, getSpan. rewrite Hs.
  destruct (span_done sp) eqn:Hdone; [exists w; by eauto|].
  unfold bind at 1, setSpan.
  destruct (span_parent sp) as [p|] eqn:Hpar.
  - destruct (Hpa s sp p Hs Hpar) as [psp0 Hp0].
    assert (is_Some (<[s := mark_done sp]> (spanHeap w) !! p)) as [psp Hp].
    { destruct (decide (p = s)) as [->|Hne].
      - rewrite lookup_insert_eq. eauto.
      - rewrite lookup_insert_ne by done. eauto. }
    unfold bind, getSpan. simpl. rewrite Hp.
    eexists. split; [reflexivity|]. right; left. split; [done|].
    by exists p, psp.
  - assert (∃ w',
      match span_parentId sp with
      | Some _ => orphanEnd s
      | None => rootSpanEnd s
      end (set_spanHeap (<[s := mark_done sp]> (spanHeap w)) w)
      = Done (tt, w') ∧
      spanHeap w' = <[s := mark_done sp]> (spanHeap w) ∧
      spanMtx (registry w') = false ∧
      orphanMtx (registry w') = false ∧
      (span_parentId sp = None ∧
       spans (registry w') = spans (registry w) ∖ {[s]} ∧
       orphans (registry w') = orphans (registry w) ∨
       is_Some (span_parentId sp) ∧
       spans (registry w') = spans (registry w) ∧
       orphans (registry w') = orphans (registry w) ∖ {[s]}))
      as (w' & Hrun & Hrest).
    { clear Hpa Hs.
      destruct w as [r sc h o]. destruct r. simpl in *. subst.
      destruct (span_parentId sp); eexists; (split; [reflexivity|]); simpl;
        (split; [done|]); (split; [done|]); (split; [done|]);
        [right|left]; eauto. }
    exists w'. split; [done|]. right; right. by repeat (split; [done|]).
Qed.

(** *** The child relation after an update *)

Lemma child_same_children h s sp sp' a b :
  h !! s = Some sp →
  span_children sp' = span_children sp →
  child (<[s := sp']> h) a b ↔ child h a b.
Proof.
  intros Hs Hc. rewrite child_insert, Hc. split.
  - intros [[-> Hb]|[_ H]]; [by exists sp|done].
  - intros Hab. destruct (decide (a = s)) as [->|Hne]; [|by right].
    left. split; [done|]. destruct Hab as (sp0 & Hs0 & Hb). congruence.
Qed.

Lemma child_new_leaf h s sp a b :
  h !! s = None →
  span_children sp = [] →
  child (<[s := sp]> h) a b ↔ child h a b.
Proof.
  intros Hs Hc. rewrite child_insert, Hc. split.
  - intros [[_ ?%elem_of_nil]|[_ ?]]; done.
  - intros Hab. right. split; [|done]. intros ->.
    destruct Hab as (sp0 & Hs0 & _). congruence.
Qed.

Lemma child_new_child h s p psp sp a b :
  h !! s = None →
  h !! p = Some psp →
  span_children sp = [] →
  child (<[p := add_child s psp]> (<[s := sp]> h)) a b ↔
  child h a b ∨ (a = p ∧ b = s).
Proof.
  intros Hs Hp Hc. assert (p ≠ s) by congruence.
  rewrite child_insert. simpl.
  rewrite elem_of_app, list_elem_of_singleton, (child_new_leaf h s sp) by done.
  split.
  - intros [[-> [Hb| ->]]|[Hne Hab]]; [left; by exists psp|by right|by left].
  - intros [Hab|[-> ->]]; [|by left; split; [|right]].
    destruct (decide (a = p)) as [->|Hne]; [|by right].
    left. split; [done|]. left. destruct Hab as (sp0 & Hs0 & Hb). congruence.
Qed.

Lemma child_after_finish h s sp p psp a b :
  h !! s = Some sp →
  <[s := mark_done sp]> h !! p = Some psp →
  child (<[p := remove_child s psp]> (<[s := mark_done sp]> h)) a b ↔
  child h a b ∧ ¬ (a = p ∧ b = s).
Proof.
  intros Hs Hp.
  assert (Hh1 : ∀ a b, child (<[s := mark_done sp]> h) a b ↔ child h a b).
  { intros. by apply (child_same_children h s sp). }
  rewrite child_insert. simpl. rewrite list_elem_of_filter, Hh1. split.
  - intros [[-> [Hne Hb]]|[Hne Hab]].
    + split; [|by intros [_ ?]]. apply Hh1. by exists psp.
    + split; [done|]. by intros [? _].
  - intros [Hab Hnot]. destruct (decide (a = p)) as [->|Hne]; [|by right].
    left. split; [done|]. split; [by intros ->; apply Hnot|].
    apply Hh1 in Hab. destruct Hab as (sp0 & Hs0 & Hb). congruence.
Qed.

(** *** Every span stays where its record says *)

Lemma placed_new_root w w' s f id t pid :
  spanHeap w !! s = None →
  spanHeap w' = <[s := mkSpan f id t None pid [] false]> (spanHeap w) →
  (pid = None ∧
   spans (registry w') = {[s]} ∪ spans (registry w) ∧
   orphans (registry w') = orphans (registry w) ∨
   is_Some pid ∧
   spans (registry w') = spans (registry w) ∧
   orphans (registry w') = {[s]} ∪ orphans (registry w)) →
  placed w → placed w'.
Proof.
  intros Hfresh Hh Hsets Hpl x sp Hx.
  assert (Hch : ∀ a b, child (spanHeap w') a b ↔ child (spanHeap w) a b).
  { intros. rewrite Hh. by apply child_new_leaf. }
  rewrite Hh in Hx. destruct (decide (x = s)) as [->|Hne].
  - rewrite lookup_insert_eq in Hx. injection Hx as <-. simpl.
    destruct Hsets as [(-> & -> & _)|([v ->] & _ & ->)]; set_solver.
  - rewrite lookup_insert_ne in Hx by done.
    specialize (Hpl x sp Hx).
    assert (Hs1 : x ∈ spans (registry w') ↔ x ∈ spans (registry w)).
    { destruct Hsets as [(_ & -> & _)|(_ & -> & _)]; set_solver. }
    assert (Hs2 : x ∈ orphans (registry w') ↔ x ∈ orphans (registry w)).
    { destruct Hsets as [(_ & _ & ->)|(_ & _ & ->)]; set_solver. }
    destruct (span_done sp).
    + destruct Hpl as (H1 & H2 & H3). split; [by rewrite Hs1|].
      split; [by rewrite Hs2|]. intros p. by rewrite Hch.
    + destruct (span_parent sp); [by apply Hch|].
      destruct (span_parentId sp); [by apply Hs2|by apply Hs1].
Qed.

Lemma placed_new_child w w' s p psp f id t pid :
  spanHeap w !! s = None →
  spanHeap w !! p = Some psp →
  span_done psp = false →
  spanHeap w' =
    <[p := add_child s psp]>
      (<[s := mkSpan f id t (Some p) pid [] false]> (spanHeap w)) →
  registry w' = registry w →
  placed w → placed w'.
Proof.
  intros Hfresh Hp Hdone Hh Hr Hpl x sp Hx.
  assert (Hps : p ≠ s) by congruence.
  assert (Hch : ∀ a b, child (spanHeap w') a b ↔
                       child (spanHeap w) a b ∨ (a = p ∧ b = s)).
  { intros. rewrite Hh. by apply child_new_child. }
  assert (Hold : ∀ sp0, spanHeap w !! x = Some sp0 →
            span_done sp = span_done sp0 →
            span_parent sp = span_parent sp0 →
            span_parentId sp = span_parentId sp0 →
            if span_done sp then in_no_container w' x
            else match span_parent sp, span_parentId sp with
                 | Some q, _ => child (spanHeap w') q x
                 | None, Some _ => x ∈ orphans (registry w')
                 | None, None => x ∈ spans (registry w')
                 end).
  { intros sp0 Hx0 Hd Hpar Hpid. specialize (Hpl x sp0 Hx0).
    unfold in_no_container in *.
    rewrite Hd, Hpar, Hpid, Hr. destruct (span_done sp0).
    - destruct Hpl as (H1 & H2 & H3). split; [done|]. split; [done|].
      intros q [Hc|[_ ->]]%Hch; [by apply (H3 q)|congruence].
    - destruct (span_parent sp0); [apply Hch; by left|done]. }
  rewrite Hh in Hx.
  destruct (decide (x = p)) as [->|Hne].
  { rewrite lookup_insert_eq in Hx. injection Hx as <-. by apply (Hold psp). }
  rewrite lookup_insert_ne in Hx by done.
  destruct (decide (x = s)) as [->|Hne'].
  { rewrite lookup_insert_eq in Hx. injection Hx as <-. simpl.
    apply Hch. by right. }
  rewrite lookup_insert_ne in Hx by done. by apply (Hold sp).
Qed.

Lemma placed_finish_root w w' s sp :
  spanHeap w !! s = Some sp →
  span_done sp = false →
  span_parent sp = None →
  spanHeap w' = <[s := mark_done sp]> (spanHeap w) →
  (span_parentId sp = None ∧
   spans (registry w') = spans (registry w) ∖ {[s]} ∧
   orphans (registry w') = orphans (registry w) ∨
   is_Some (span_parentId sp) ∧
   spans (registry w') = spans (registry w) ∧
   orphans (registry w') = orphans (registry w) ∖ {[s]}) →
  forest_inv w → placed w → placed w'.
Proof.
  intros Hs Hdone Hpar Hh Hsets
    (_ & _ & _ & _ & _ & _ & _ & [Hdisj Hnp]) Hpl x sp' Hx.
  assert (Hch : ∀ a b, child (spanHeap w') a b ↔ child (spanHeap w) a b).
  { intros. rewrite Hh. by apply (child_same_children _ s sp). }
  pose proof (Hpl s sp Hs) as Hpls. rewrite Hdone, Hpar in Hpls.
  rewrite Hh in Hx. destruct (decide (x = s)) as [->|Hne].
  - rewrite lookup_insert_eq in Hx. injection Hx as <-. simpl.
    assert (s ∈ spans (registry w) ∪ orphans (registry w)) as Hroot.
    { destruct (span_parentId sp); set_solver. }
    split; [|split].
    + destruct Hsets as [(Hn & -> & _)|([v Hv] & -> & _)]; [set_solver|].
      rewrite Hv in Hpls. set_solver.
    + destruct Hsets as [(Hn & _ & ->)|(_ & _ & ->)]; [|set_solver].
      rewrite Hn in Hpls. set_solver.
    + intros p Hc%Hch. by apply (Hnp s p).
  - rewrite lookup_insert_ne in Hx by done.
    specialize (Hpl x sp' Hx).
    assert (Hs1 : x ∈ spans (registry w') ↔ x ∈ spans (registry w)).
    { destruct Hsets as [(_ & -> & _)|(_ & -> & _)]; set_solver. }
    assert (Hs2 : x ∈ orphans (registry w') ↔ x ∈ orphans (registry w)).
    { destruct Hsets as [(_ & _ & ->)|(_ & _ & ->)]; set_solver. }
    destruct (span_done sp').
    + destruct Hpl as (H1 & H2 & H3). split; [by rewrite Hs1|].
      split; [by rewrite Hs2|]. intros p. by rewrite Hch.
    + destruct (span_parent sp'); [by apply Hch|].
      destruct (span_parentId sp'); [by apply Hs2|by apply Hs1].
Qed.

Lemma placed_finish_child w w' s sp p psp :
  spanHeap w !! s = Some sp →
  span_done sp = false →
  span_parent sp = Some p →
  <[s := mark_done sp]> (spanHeap w) !! p = Some psp →
  spanHeap w' =
    <[p := remove_child s psp]> (<[s := mark_done sp]> (spanHeap w)) →
  registry w' = registry w →
  forest_inv w → placed w → placed w'.
Proof.
  intros Hs Hdone Hpar Hp Hh Hr
    (_ & _ & _ & _ & _ & Hac & [Hone _] & [Hdisj Hnp]) Hpl x sp' Hx.
  assert (Hch : ∀ a b, child (spanHeap w') a b ↔
                       child (spanHeap w) a b ∧ ¬ (a = p ∧ b = s)).
  { intros. rewrite Hh. by apply (child_after_finish _ s sp). }
  pose proof (Hpl s sp Hs) as Hps. rewrite Hdone, Hpar in Hps.
  assert (Hne : p ≠ s).
  { intros ->. apply (Hac s). by apply tc_once. }
  rewrite lookup_insert_ne in Hp by done.
  assert (Hold : ∀ sp0, x ≠ s → spanHeap w !! x = Some sp0 →
            span_done sp' = span_done sp0 →
            span_parent sp' = span_parent sp0 →
            span_parentId sp' = span_parentId sp0 →
            if span_done sp' then in_no_container w' x
            else match span_parent sp', span_parentId sp' with
                 | Some q, _ => child (spanHeap w') q x
                 | None, Some _ => x ∈ orphans (registry w')
                 | None, None => x ∈ spans (registry w')
                 end).
  { intros sp0 Hxs Hx0 Hd Hpar0 Hpid. specialize (Hpl x sp0 Hx0).
    unfold in_no_container in *.
    rewrite Hd, Hpar0, Hpid, Hr. destruct (span_done sp0).
    - destruct Hpl as (H1 & H2 & H3). split; [done|]. split; [done|].
      intros q [Hc _]%Hch. by apply (H3 q).
    - destruct (span_parent sp0); [|done]. apply Hch. split; [done|].
      by intros [_ ?]. }
  rewrite Hh in Hx.
  destruct (decide (x = p)) as [->|Hxp].
  { rewrite lookup_insert_eq in Hx. injection Hx as <-. by apply (Hold psp). }
  rewrite lookup_insert_ne in Hx by done.
  destruct (decide (x = s)) as [->|Hxs].
  - rewrite lookup_insert_eq in Hx. injection Hx as <-. simpl.
    unfold in_no_container. rewrite Hr. split; [|split].
    + intros Hin. apply (Hnp s p); [set_solver|done].
    + intros Hin. apply (Hnp s p); [set_solver|done].
    + intros q [Hc Hnot]%Hch. apply Hnot. split; [|done].
      by apply (Hone q p s).
  - rewrite lookup_insert_ne in Hx by done. by apply (Hold sp').
Qed.

(** *** Starting and finishing spans keeps the forest *)

Lemma spanStart_keeps_forest f id t parent pid w :
  forest_inv w → placed w →
  ∃ s w',
    spanStart f id t parent pid w = Done (s, w') ∧
    forest_inv w' ∧ placed w' ∧
    is_Some (spanHeap w' !! s) ∧
    (∀ x, is_Some (spanHeap w !! x) → is_Some (spanHeap w' !! x)).
Proof.
  intros Hinv Hpl. pose proof Hinv as (Hm1 & Hm2 & _).
  pose proof (fresh_span_unallocated w) as Hfresh.
  destruct (spanStart_shape f id t parent pid w Hm1 Hm2)
    as (w' & Hrun & [(p & psp & Hp & Hd & Hh & Hr)|(Hh & Hm1' & Hm2' & Hsets)]).
  - assert (p ≠ fresh (dom (spanHeap w))) by congruence.
    eexists _, w'. split; [exact Hrun|].
    split; [by eapply forest_inv_new_child|].
    split; [by eapply placed_new_child|].
    split.
    + rewrite Hh, lookup_insert_ne, lookup_insert_eq by done. eauto.
    + intros x [sp Hx]. rewrite Hh.
      destruct (decide (x = p)) as [->|Hne];
        [rewrite lookup_insert_eq; eauto|].
      rewrite lookup_insert_ne by done.
      rewrite lookup_insert_ne by congruence. eauto.
  - eexists _, w'. split; [exact Hrun|].
    split.
    { eapply forest_inv_new_root; try done.
      destruct Hsets as [(_ & ? & ?)|(_ & ? & ?)]; [by left|by right]. }
    split; [by eapply placed_new_root|].
    split; [rewrite Hh, lookup_insert_eq; eauto|].
    intros x [sp Hx]. rewrite Hh.
    rewrite lookup_insert_ne by congruence. eauto.
Qed.

Lemma spanFinish_keeps_forest s w :
  forest_inv w → placed w →
  is_Some (spanHeap w !! s) →
  ∃ w',
    spanFinish s w = Done (tt, w') ∧
    forest_inv w' ∧ placed w' ∧
    (∀ x, is_Some (spanHeap w !! x) → is_Some (spanHeap w' !! x)).
Proof.
  intros Hinv Hpl [sp Hs].
  pose proof Hinv as (Hm1 & Hm2 & _ & _ & Hpa & _).
  assert (H1 : heap_refines (spanHeap w) (<[s := mark_done sp]> (spanHeap w))).
  { by apply (heap_refines_insert _ s sp). }
  destruct (spanFinish_shape s sp w Hm1 Hm2 Hpa Hs)
    as (w' & Hrun & [[_ ->]|[(Hd & p & psp & Hpar & Hp & Hh & Hr)|
                             (Hd & Hpar & Hh & Hm1' & Hm2' & Hsets)]]).
  - by exists w.
  - exists w'. split; [done|].
    assert (H2 : heap_refines (spanHeap w) (spanHeap w')).
    { rewrite Hh. eapply heap_refines_trans; [exact H1|].
      apply (heap_refines_insert _ p psp); [done|done| |].
      - intros c [_ Hc]%list_elem_of_filter. done.
      - apply NoDup_filter. }
    split; [apply (forest_inv_refine w); try done; by rewrite Hr|].
    split; [by eapply placed_finish_child|]. by apply (proj1 H2).
  - exists w'. split; [done|].
    split.
    { apply (forest_inv_refine w); try done; [by rewrite Hh|..];
        destruct Hsets as [(_ & Hs1 & Hs2)|(_ & Hs1 & Hs2)];
        rewrite ?Hs1, ?Hs2; set_solver. }
    split; [by eapply placed_finish_root|].
    rewrite Hh. by apply (proj1 H1).
Qed.

Lemma exec_spans_keeps_forest cs : ∀ started w,
  forest_inv w → placed w →
  Forall (λ s, is_Some (spanHeap w !! s)) started →
  ∃ started' w',
    exec_spans cs started w = Done (started', w') ∧
    forest_inv w' ∧ placed w' ∧
    Forall (λ s, is_Some (spanHeap w' !! s)) started'.
Proof.
  induction cs as [|c cs IH]; intros started w Hinv Hpl Hst.
  - by exists started, w.
  - destruct c as [f id t parent pid|i]; simpl.
    + destruct (spanStart_keeps_forest f id t (i ← parent; started !! i)
                  pid w Hinv Hpl) as (s & w' & Hrun & Hinv' & Hpl' & Hs & Hdom).
      unfold bind. rewrite Hrun. apply IH; [done|done|].
      apply Forall_app. split; [|by repeat constructor].
      eapply Forall_impl; [exact Hst|]. done.
    + destruct (started !! i) as [s|] eqn:Hi; [|by apply IH].
      destruct (spanFinish_keeps_forest s w Hinv Hpl)
        as (w' & Hrun & Hinv' & Hpl' & Hdom).
      { eapply Forall_forall in Hst; [exact Hst|].
        by eapply list_elem_of_lookup_2. }
      unfold bind. rewrite Hrun. apply IH; [done|done|].
      eapply Forall_impl; [exact Hst|]. done.
Qed.

Lemma placed_initial w0 :
  placed (set_spanHeap ∅ (set_registry NewRegistry w0)).
Proof. intros s sp Hs. simpl in Hs. by rewrite lookup_empty in Hs. Qed.

Lemma live_in_one_container w s :
  forest_inv w → placed w → live w s → in_one_container w s.
Proof.
  intros (_ & _ & _ & _ & _ & _ & [Hone _] & [Hdisj Hnp]) Hpl (sp & Hs & Hdone).
  specialize (Hpl s sp Hs). rewrite Hdone in Hpl.
  destruct (span_parent sp) as [p|]; [|destruct (span_parentId sp)].
  - right; right.
    assert (s ∉ spans (registry w) ∪ orphans (registry w)) as Hs'.
    { intros Hin. by apply (Hnp s p). }
    split; [set_solver|]. split; [set_solver|].
    exists p. split; [done|]. intros q Hq. by apply (Hone q p s).
  - right; left. split; [set_solver|]. split; [done|].
    intros p. apply Hnp. set_solver.
  - left. split; [done|]. split; [set_solver|].
    intros p. apply Hnp. set_solver.
Qed.

Lemma not_live_in_no_container w s :
  forest_inv w → placed w → ¬ live w s → in_no_container w s.
Proof.
  intros (_ & _ & Hall & Hcl & _) Hpl Hnl.
  destruct (spanHeap w !! s) as [sp|] eqn:Hs.
  - specialize (Hpl s sp Hs). destruct (span_done sp) eqn:Hd; [done|].
    exfalso. apply Hnl. by exists sp.
  - split; [|split].
    + intros Hin. destruct (Hall s) as [? ?]; [set_solver|congruence].
    + intros Hin. destruct (Hall s) as [? ?]; [set_solver|congruence].
    + intros p [? ?]%Hcl. congruence.
Qed.

(** C5. Start from a fresh Registry and an empty span store, and let any
    program start and finish spans.  The program runs to its end, and then
    every live span (started and not finished) is held by exactly one
    container: the root set, the orphan set, or the child set of one span;
    every other span is held by none.  [RootSpans], however it walks the
    maps and sorts, returns and visits a rearrangement of the two sets that
    has no span twice. *)
Theorem live_span_in_one_container (script : list span_call) (w0 : World) :
  ∃ started w,
    exec_spans script [] (set_spanHeap ∅ (set_registry NewRegistry w0)) =
      Done (started, w) ∧
    (∀ s, live w s → in_one_container w s) ∧
    (∀ s, ¬ live w s → in_no_container w s) ∧
    ∀ (sh1 sh2 : shuffle) (srt : sort_fn),
      sorts srt →
      ∃ visited,
        RootSpans sh1 sh2 srt visit w =
          Done (tt, set_out (out w ++ (Visited <$> visited)) w) ∧
        visited ≡ₚ elements (spans (registry w)) ++
                   elements (orphans (registry w)) ∧
        NoDup visited.
Proof.
  destruct (exec_spans_keeps_forest script []
              (set_spanHeap ∅ (set_registry NewRegistry w0)))
    as (started & w & Hrun & Hinv & Hpl & _);
    [apply forest_inv_initial|apply placed_initial|done|].
  exists started, w. split; [done|].
  split; [intros s; by apply live_in_one_container|].
  split; [intros s; by apply not_live_in_no_container|].
  intros sh1 sh2 srt Hsrt.
  pose proof Hinv as (Hm1 & Hm2 & Hall & _ & _ & _ & _ & [Hdisj _]).
  destruct (RootSpans_visit sh1 sh2 srt w Hsrt Hm1 Hm2 Hall)
    as (visited & Hvis & Hp & _).
  exists visited. split; [done|]. split; [done|].
  by eapply disjoint_sets_NoDup.
Qed.

(** ** The propagation header *)

Lemma digit_value_pretty_char d :
  (d < 10)%N → digit_value (pretty_N_char d) = Some d.
Proof.
  intros Hd.
  assert (d = 0 ∨ d = 1 ∨ d = 2 ∨ d = 3 ∨ d = 4 ∨ d = 5 ∨ d = 6 ∨ d = 7 ∨
          d = 8 ∨ d = 9)%N as Hcases by lia.
  repeat (destruct Hcases as [->|Hcases]; [reflexivity|]). by subst.
Qed.

Lemma parse_digits_pretty_go x : ∀ s,
  parse_digits (pretty_N_go x s) 0 = parse_digits s x.
Proof.
  induction (N.lt_wf_0 x) as [x _ IH]; intros s.
  destruct (decide (x = 0)%N) as [->|Hx].
  { by rewrite pretty_N_go_0. }
  rewrite pretty_N_go_step by lia.
  rewrite IH by (apply N.div_lt; lia). simpl.
  rewrite digit_value_pretty_char by (apply N.mod_lt; lia). simpl.
  f_equal. pose proof (N.div_mod x 10). lia.
Qed.

Lemma pretty_N_go_nonempty x : ∀ s,
  s ≠ EmptyString → pretty_N_go x s ≠ EmptyString.
Proof.
  induction (N.lt_wf_0 x) as [x _ IH]; intros s Hs.
  destruct (decide (x = 0)%N) as [->|Hx].
  { by rewrite pretty_N_go_0. }
  rewrite pretty_N_go_step by lia. apply IH; [apply N.div_lt; lia|done].
Qed.

Lemma parse_N_pretty_pos (p : positive) :
  parse_N (pretty_N_go (N.pos p) EmptyString) = Some (N.pos p).
Proof.
  unfold parse_N.
  destruct (pretty_N_go (N.pos p) EmptyString) eqn:Hp.
  - exfalso. rewrite pretty_N_go_step in Hp by lia.
    by apply pretty_N_go_nonempty in Hp.
  - rewrite <-Hp. by rewrite parse_digits_pretty_go.
Qed.

Lemma pretty_pos_unfold (p : positive) :
  pretty (N.pos p) = pretty_N_go (N.pos p) EmptyString.
Proof. unfold pretty, pretty_N. by rewrite decide_False. Qed.

(** Printing an [int64] and reading it back gives the number. *)
Lemma ParseInt_FormatInt z :
  MinInt64 ≤ z ≤ MaxInt64 → ParseInt (FormatInt z) = Some z.
Proof.
  intros Hz. unfold ParseInt, FormatInt.
  remember (λ z : Z, if (MinInt64 <=? z) && (z <=? MaxInt64)
                     then Some z else None) as check eqn:Hcheck.
  assert (Hin : check z = Some z).
  { subst check.
    assert ((MinInt64 <=? z) && (z <=? MaxInt64) = true) as ->; [|done].
    apply andb_true_iff. split; apply Z.leb_le; lia. }
  destruct z as [|p|p].
  - simpl. by rewrite Hin.
  - change (pretty (Z.pos p)) with (pretty (N.pos p)).
    rewrite pretty_pos_unfold.
    pose proof (parse_N_pretty_pos p) as Hparse.
    destruct (pretty_N_go (N.pos p) EmptyString) as [|c s] eqn:Hp; [done|].
    destruct (decide (c = "-"%char)) as [->|Hc].
    { exfalso. by apply (pretty_N_go_ne_dash (N.pos p) EmptyString s) in Hp. }
    assert (match String c s with
            | String "-" s' => n ← parse_N s'; Some (- Z.of_N n)
            | _ => n ← parse_N (String c s); Some (Z.of_N n)
            end = Some (Z.pos p)) as ->.
    { rewrite Hparse. simpl.
      destruct c as [[] [] [] [] [] [] [] []]; try done. }
    simpl. by rewrite Hin.
  - change (pretty (Z.neg p)) with ("-" +:+ pretty (N.pos p)).
    rewrite pretty_pos_unfold.
    pose proof (parse_N_pretty_pos p) as Hparse.
    destruct (pretty_N_go (N.pos p) EmptyString) as [|c s]; [done|].
    simpl in *. rewrite Hparse. exact Hin.
Qed.

Lemma free_of_app c a b : free_of c (a +:+ b) = free_of c a && free_of c b.
Proof.
  induction a as [|c' a IH]; simpl; [done|]. rewrite IH.
  by rewrite andb_assoc.
Qed.

Lemma pretty_N_go_free c x : ∀ s,
  (∀ d, pretty_N_char d ≠ c) →
  free_of c s = true → free_of c (pretty_N_go x s) = true.
Proof.
  induction (N.lt_wf_0 x) as [x _ IH]; intros s Hc Hs.
  destruct (decide (x = 0)%N) as [->|Hx].
  { by rewrite pretty_N_go_0. }
  rewrite pretty_N_go_step by lia. apply IH; [apply N.div_lt; lia|done|].
  simpl. rewrite Hs, andb_true_r. apply negb_true_iff, Ascii.eqb_neq, Hc.
Qed.

Lemma FormatInt_free_comma z : free_of "," (FormatInt z) = true.
Proof.
  assert (Hc : ∀ d, pretty_N_char d ≠ ","%char).
  { intros d. unfold pretty_N_char. by repeat case_match. }
  unfold FormatInt. destruct z as [|p|p].
  - reflexivity.
  - change (pretty (Z.pos p)) with (pretty (N.pos p)).
    rewrite pretty_pos_unfold. by apply pretty_N_go_free.
  - change (pretty (Z.neg p)) with ("-" +:+ pretty (N.pos p)).
    rewrite pretty_pos_unfold, free_of_app. simpl.
    by apply pretty_N_go_free.
Qed.

Lemma split_on_free c a : free_of c a = true → split_on c a = [a].
Proof.
  induction a as [|c' a IH]; simpl; [done|].
  intros [Hc Ha]%andb_true_iff. apply negb_true_iff in Hc.
  by rewrite Hc, IH.
Qed.

Lemma split_on_app c a b :
  free_of c a = true → split_on c (a +:+ String c b) = a :: split_on c b.
Proof.
  induction a as [|c' a IH]; simpl.
  - intros _. by rewrite Ascii.eqb_refl.
  - intros [Hc Ha]%andb_true_iff. apply negb_true_iff in Hc.
    by rewrite Hc, IH.
Qed.

Lemma decode_field_trace v acc :
  decode_field ("trace=" +:+ v) acc =
  i ← ParseInt v;
  Some (mkRemote (Some i) (remote_parent acc) (remote_sampled acc)).
Proof. reflexivity. Qed.

Lemma decode_field_parent v acc :
  decode_field ("parent=" +:+ v) acc =
  i ← ParseInt v;
  Some (mkRemote (remote_trace acc) (Some i) (remote_sampled acc)).
Proof. reflexivity. Qed.

Lemma decode_field_sampled b acc :
  decode_field ("sampled=" +:+ FormatBool b) acc =
  Some (mkRemote (remote_trace acc) (remote_parent acc) (Some b)).
Proof. by destruct b. Qed.

(** The header of the client decodes to what went into it. *)
Lemma decode_encode traceId parentId sampled :
  MinInt64 ≤ traceId ≤ MaxInt64 →
  MinInt64 ≤ parentId ≤ MaxInt64 →
  decode (encode traceId parentId sampled) =
  Some (mkRemote (Some traceId) (Some parentId) sampled).
Proof.
  intros Ht Hp.
  assert (H1 : free_of "," ("trace=" +:+ FormatInt traceId) = true).
  { rewrite free_of_app. by rewrite FormatInt_free_comma. }
  assert (H2 : free_of "," ("parent=" +:+ FormatInt parentId) = true).
  { rewrite free_of_app. by rewrite FormatInt_free_comma. }
  unfold decode, encode. destruct sampled as [b|].
  - change (String.concat _ _) with
      (("trace=" +:+ FormatInt traceId) +:+
       String "," (("parent=" +:+ FormatInt parentId) +:+
                   String "," ("sampled=" +:+ FormatBool b))).
    rewrite !split_on_app by done.
    rewrite split_on_free by (by destruct b).
    cbn [foldl]. unfold mbind at 3, option_bind.
    rewrite decode_field_trace, ParseInt_FormatInt by done.
    cbn [mbind option_bind]. 
    rewrite decode_field_parent, ParseInt_FormatInt by done.
    cbn [mbind option_bind]. by rewrite decode_field_sampled.
  - change (String.concat _ _) with
      (("trace=" +:+ FormatInt traceId) +:+
       String "," ("parent=" +:+ FormatInt parentId)).
    rewrite split_on_app by done.
    rewrite split_on_free by done.
    cbn [foldl]. unfold mbind at 2, option_bind.
    rewrite decode_field_trace, ParseInt_FormatInt by done.
    cbn [mbind option_bind].
    by rewrite decode_field_parent, ParseInt_FormatInt by done.
Qed.

(** ** The server side *)

Lemma permute_singleton {A} sh (x : A) : permute sh A [x] = [x].
Proof. apply Permutation_singleton_r, permute_perm. Qed.

Lemma sorts_singleton {A} srt (lt : A → A → bool) (x : A) :
  sorts srt → srt A lt [x] = [x].
Proof. intros Hsrt. apply Permutation_singleton_r, (Hsrt A lt [x]). Qed.

Lemma snapshot_singleton sh1 sh2 r x :
  elements (spans r) ++ elements (orphans r) = [x] →
  snapshot sh1 sh2 r = [x].
Proof.
  intros Hx. apply Permutation_singleton_r. by rewrite snapshot_perm, Hx.
Qed.

Lemma bind_ret {A} (m : M A) w : bind m ret w = m w.
Proof. unfold bind, ret. by destruct (m w) as [[a w']| | |]. Qed.

Lemma RootSpansWith_singleton {S} sh1 sh2 srt (cb : loc → S → M S) init x w :
  sorts srt →
  spanMtx (registry w) = false →
  orphanMtx (registry w) = false →
  elements (spans (registry w)) ++ elements (orphans (registry w)) = [x] →
  RootSpansWith sh1 sh2 srt cb init w = cb x init w.
Proof.
  intros Hsrt Hm1 Hm2 Hx.
  pose proof (snapshot_singleton sh1 sh2 (registry w) x Hx) as Hsnap.
  destruct w as [r sc h o]. destruct r. simpl in *. subst.
  unfold RootSpansWith, sortedRootSpans, bind at 1 2 3 4 5 6 7, Lock, Unlock,
    getR, sortSpans. simpl.
  unfold snapshot in Hsnap. simpl in Hsnap. rewrite Hsnap. simpl.
  rewrite sorts_singleton by done. simpl. apply bind_ret.
Qed.

Lemma spanStart_child_run f id t p psp pid w :
  spanHeap w !! p = Some psp →
  span_done psp = false →
  let s := fresh (dom (spanHeap w)) in
  spanStart f id t (Some p) pid w =
  Done (s, set_spanHeap
             (<[p := add_child s psp]>
                (<[s := mkSpan f id t (Some p) (Some (span_id psp)) [] false]>
                   (spanHeap w))) w).
Proof.
  intros Hp Hdone s. unfold spanStart, bind at 1, knownParent. simpl.
  rewrite Hp. simpl. rewrite Hdone. reflexivity.
Qed.

(** What the handler of the tests answers when the span of the context is
    the only span of the root and orphan sets: the parent id of that span
    (0 when it has none), then the sampled annotation of its trace. *)
Lemma helloHandler_run fn taskId sh1 sh2 srt ctx csp w :
  sorts srt →
  spanMtx (registry w) = false →
  orphanMtx (registry w) = false →
  spanHeap w !! ctx = Some csp →
  span_done csp = false →
  elements (spans (registry w)) ++ elements (orphans (registry w)) = [ctx] →
  let s := fresh (dom (spanHeap w)) in
  let task := mkSpan fn taskId (span_trace csp) (Some ctx)
                (Some (span_id csp)) [] false in
  helloHandler fn taskId sh1 sh2 srt ctx w =
  Done (FormatInt (default 0 (span_parentId csp)) +:+ "/" +:+ "hello" +:+
          "/" +:+ format_v (trace_vals (span_trace csp) !! SampledKey),
        set_spanHeap
          (<[ctx := remove_child s (add_child s csp)]>
             (<[s := mark_done task]>
                (<[ctx := add_child s csp]>
                   (<[s := task]> (spanHeap w))))) w).
Proof.
  intros Hsrt Hm1 Hm2 Hctx Hdone Hroots s task.
  assert (Hs : s ≠ ctx).
  { intros Heq. pose proof (fresh_span_unallocated w) as Hf.
    fold s in Hf. congruence. }
  unfold helloHandler. unfold bind at 1. unfold getSpan at 1. rewrite Hctx.
  unfold bind at 1. rewrite (spanStart_child_run _ _ _ _ csp) by done.
  fold s. fold task.
  unfold bind at 1. unfold getSpan at 1. simpl.
  rewrite lookup_insert_ne, lookup_insert_eq by done. simpl.
  unfold bind at 1.
  rewrite (RootSpansWith_singleton _ _ _ _ _ ctx) by done.
  unfold bind at 1. unfold getSpan at 1. simpl.
  rewrite lookup_insert_eq. simpl. rewrite Z.eqb_refl.
  unfold ret at 1.
  unfold spanFinish, bind at 1 2, getSpan at 1. simpl.
  rewrite lookup_insert_ne, lookup_insert_eq by done. simpl.
  unfold bind at 1, setSpan at 1. simpl.
  unfold bind at 1, getSpan at 1. simpl.
  rewrite lookup_insert_ne, lookup_insert_eq by done.
  reflexivity.
Qed.

(** The request of the tests, served from the start: [TraceHandler] opens
    the span the header asks for, the handler answers, the span is
    finished. *)
Lemma TraceHandler_run f header newTraceId spanId fn taskId sh1 sh2 srt
    trace parentId :
  sorts srt →
  extract header newTraceId = (trace, parentId) →
  ∃ w' sp,
    TraceHandler f header newTraceId spanId
      (helloHandler fn taskId sh1 sh2 srt) server_world =
    Done (FormatInt (default 0 parentId) +:+ "/" +:+ "hello" +:+ "/" +:+
            format_v (trace_vals trace !! SampledKey), w') ∧
    spanHeap w' !! 1%positive = Some sp ∧
    span_id sp = spanId ∧
    span_parent sp = None ∧
    span_parentId sp = parentId ∧
    span_trace sp = trace ∧
    span_done sp = true.
Proof.
  intros Hsrt Hex. unfold TraceHandler. rewrite Hex.
  set (S1 := mkSpan f spanId trace None parentId [] false).
  assert (∃ w1,
    spanStart f spanId trace None parentId server_world =
      Done (1%positive, w1) ∧
    spanHeap w1 = {[ 1%positive := S1 ]} ∧
    spanMtx (registry w1) = false ∧
    orphanMtx (registry w1) = false ∧
    watcherMtx (registry w1) = false ∧
    elements (spans (registry w1)) ++ elements (orphans (registry w1)) =
      [1%positive] ∧
    (∀ h, ∃ w2,
       match parentId with
       | Some _ => orphanEnd 1%positive
       | None => rootSpanEnd 1%positive
       end (set_spanHeap h w1) = Done (tt, w2) ∧ spanHeap w2 = h))
    as (w1 & Hstart & Hh1 & Hm1 & Hm2 & _ & Hroots & Hend).
  { destruct parentId; eexists; (split; [by vm_compute|]);
      (split; [reflexivity|]); (split; [reflexivity|]);
      (split; [reflexivity|]); (split; [reflexivity|]);
      (split; [by vm_compute|]); intros h; eexists;
      (split; [reflexivity|]); reflexivity. }
  unfold bind at 1. rewrite Hstart.
  assert (Hctx : spanHeap w1 !! 1%positive = Some S1).
  { by rewrite Hh1, lookup_singleton_eq. }
  unfold bind at 1.
  rewrite (helloHandler_run fn taskId sh1 sh2 srt 1%positive S1 w1) by done.
  set (s := fresh (dom (spanHeap w1))).
  set (task := mkSpan fn taskId trace (Some 1%positive) (Some spanId) []
                 false).
  set (sp' := remove_child s (add_child s S1)).
  unfold spanFinish, bind at 1 2, getSpan at 1. simpl.
  rewrite lookup_insert_eq. simpl.
  unfold bind at 1, setSpan at 1. simpl.
  match goal with
  | |- context [set_spanHeap ?h (set_spanHeap _ w1)] =>
      destruct (Hend h) as (w2 & Hrun & Hh2);
      replace (set_spanHeap h (set_spanHeap _ w1)) with (set_spanHeap h w1)
        by (by destruct w1)
  end.
  unfold bind. rewrite Hrun. unfold ret.
  exists w2, (mark_done sp'). split; [reflexivity|].
  split; [by rewrite Hh2, lookup_insert_eq|]. done.
Qed.

(** Where [TraceHandler] registers the span it opens on a fresh server:
    in the orphan set when the header gave a parent id, in the root set
    otherwise. *)
Lemma server_span_registered f spanId trace parentId :
  ∃ w1,
    spanStart f spanId trace None parentId server_world =
      Done (1%positive, w1) ∧
    match parentId with
    | Some _ => 1%positive ∈ orphans (registry w1) ∧ spans (registry w1) = ∅
    | None => 1%positive ∈ spans (registry w1) ∧ orphans (registry w1) = ∅
    end.
Proof.
  destruct parentId; eexists; (split; [by vm_compute|]); simpl;
    (split; [set_solver|done]).
Qed.

Lemma extract_encoded traceId parentId sampled newTraceId :
  MinInt64 ≤ traceId ≤ MaxInt64 →
  MinInt64 ≤ parentId ≤ MaxInt64 →
  extract (Some (encode traceId parentId sampled)) newTraceId =
  (mkTrace traceId (match sampled with
                    | Some b => {[ SampledKey := b ]}
                    | None => ∅
                    end), Some parentId).
Proof.
  intros Ht Hp. unfold extract. simpl. by rewrite decode_encode.
Qed.

Lemma extract_malformed h newTraceId :
  decode h = None →
  extract (Some h) newTraceId = (mkTrace newTraceId ∅, None).
Proof. intros Hbad. unfold extract. simpl. by rewrite Hbad. Qed.

Lemma sampled_annotation (sampled : option bool) :
  (match sampled with
   | Some b => {[ SampledKey := b ]}
   | None => ∅
   end : gmap string bool) !! SampledKey = sampled.
Proof.
  destruct sampled; [apply lookup_singleton_eq|apply lookup_empty].
Qed.

(** C4. For every trace id and span id (both [int64]) and every sampled
    annotation, the header the client writes decodes on the server to that
    trace id, that span id as parent id, and that annotation.  Hence when a
    client whose open span has id [spanId], in a trace [traceId] annotated
    [sampled], sends its request to a fresh server, the span the server
    opens (an orphan: it is registered in the orphan set) has parent id
    [spanId] and a Trace with id [traceId] and the same annotation, and the
    handler of the tests answers ["<spanId>/hello/<sampled>"]. *)
Theorem propagation_round_trip
    (traceId spanId : Z) (sampled : option bool)
    (f fn : Func) (newTraceId serverSpanId taskId : Z)
    (sh1 sh2 : shuffle) (srt : sort_fn)
    (Htrace : MinInt64 ≤ traceId ≤ MaxInt64)
    (Hspan : MinInt64 ≤ spanId ≤ MaxInt64)
    (Hsrt : sorts srt) :
  decode (encode traceId spanId sampled) =
    Some (mkRemote (Some traceId) (Some spanId) sampled) ∧
  ∃ header w1 w' sp,
    TraceRequest (Some 1%positive) (client_world traceId spanId sampled) =
      Done (Some header, client_world traceId spanId sampled) ∧
    header = encode traceId spanId sampled ∧
    spanStart f serverSpanId (extract (Some header) newTraceId).1 None
      (extract (Some header) newTraceId).2 server_world =
      Done (1%positive, w1) ∧
    1%positive ∈ orphans (registry w1) ∧
    TraceHandler f (Some header) newTraceId serverSpanId
      (helloHandler fn taskId sh1 sh2 srt) server_world =
      Done (FormatInt spanId +:+ "/" +:+ "hello" +:+ "/" +:+ format_v sampled,
            w') ∧
    spanHeap w' !! 1%positive = Some sp ∧
    span_parentId sp = Some spanId ∧
    trace_id (span_trace sp) = traceId ∧
    trace_vals (span_trace sp) !! SampledKey = sampled.
Proof.
  split; [by apply decode_encode|].
  destruct (TraceHandler_run f (Some (encode traceId spanId sampled))
              newTraceId serverSpanId fn taskId sh1 sh2 srt _ _ Hsrt
              (extract_encoded traceId spanId sampled newTraceId Htrace Hspan))
    as (w' & sp & Hrun & Hsp & _ & _ & Hpid & Htr & _).
  destruct (server_span_registered f serverSpanId
              (mkTrace traceId (match sampled with
                                | Some b => {[ SampledKey := b ]}
                                | None => ∅
                                end)) (Some spanId))
    as (w1 & Hstart & Horph & _).
  exists (encode traceId spanId sampled), w1, w', sp.
  rewrite (extract_encoded traceId spanId sampled newTraceId Htrace Hspan).
  simpl. split.
  { unfold TraceRequest, bind, getSpan, client_world. simpl.
    rewrite lookup_singleton_eq. simpl. unfold ret.
    by rewrite sampled_annotation. }
  split; [done|]. split; [exact Hstart|]. split; [exact Horph|]. split.
  { rewrite Hrun. simpl. by rewrite sampled_annotation. }
  split; [done|]. split; [done|]. rewrite Htr. simpl.
  split; [done|]. apply sampled_annotation.
Qed.

(** C4 at the values of the tests: span 42, sampled. *)
Lemma propagation_round_trip_witness :
  MinInt64 ≤ 99 ≤ MaxInt64 ∧ MinInt64 ≤ 42 ≤ MaxInt64 ∧
  sorts insertionSort ∧
  decode (encode 99 42 (Some true)) =
    Some (mkRemote (Some 99) (Some 42) (Some true)) ∧
  ∃ w' sp,
    TraceHandler (mkFunc "server.GET") (Some (encode 99 42 (Some true)))
      1000 7 (helloHandler (mkFunc "http.handler") 8
                in_order in_order insertionSort) server_world =
      Done ("42/hello/true"%string, w') ∧
    spanHeap w' !! 1%positive = Some sp ∧
    span_parentId sp = Some 42 ∧
    trace_vals (span_trace sp) !! SampledKey = Some true.
Proof.
  assert (H1 : MinInt64 ≤ 99 ≤ MaxInt64) by (unfold MinInt64, MaxInt64; lia).
  assert (H2 : MinInt64 ≤ 42 ≤ MaxInt64) by (unfold MinInt64, MaxInt64; lia).
  split; [exact H1|]. split; [exact H2|].
  split; [apply insertionSort_sorts|].
  destruct (propagation_round_trip 99 42 (Some true) (mkFunc "server.GET")
              (mkFunc "http.handler") 1000 7 8 in_order in_order
              insertionSort H1 H2 insertionSort_sorts)
    as (Hdec & header & w1 & w' & sp & _ & -> & _ & _ & Hrun & Hsp & Hpid & _
        & Hsam).
  split; [exact Hdec|]. by exists w', sp.
Defined.

(** C7. A request whose header is just [sampled=true] is valid and carries
    neither a trace id nor a parent id.  On a fresh server the span
    [TraceHandler] opens for it has no parent, in process or remote, and
    its Trace has the id the id generator handed out, whatever that is, and
    the annotation sampled = true; it is registered in the root set, not
    among the orphans; the handler of the tests answers
    ["0/hello/true"]. *)
Theorem forced_sampling_without_context
    (f fn : Func) (newTraceId serverSpanId taskId : Z)
    (sh1 sh2 : shuffle) (srt : sort_fn)
    (Hsrt : sorts srt) :
  decode "sampled=true" = Some (mkRemote None None (Some true)) ∧
  extract (Some "sampled=true"%string) newTraceId =
    (mkTrace newTraceId {[ SampledKey := true ]}, None) ∧
  ∃ w1 w' sp,
    spanStart f serverSpanId (mkTrace newTraceId {[ SampledKey := true ]})
      None None server_world = Done (1%positive, w1) ∧
    1%positive ∈ spans (registry w1) ∧
    orphans (registry w1) = ∅ ∧
    TraceHandler f (Some "sampled=true"%string) newTraceId serverSpanId
      (helloHandler fn taskId sh1 sh2 srt) server_world =
      Done ("0/hello/true"%string, w') ∧
    spanHeap w' !! 1%positive = Some sp ∧
    span_parent sp = None ∧
    span_parentId sp = None ∧
    trace_id (span_trace sp) = newTraceId ∧
    trace_vals (span_trace sp) !! SampledKey = Some true.
Proof.
  split; [reflexivity|]. split; [reflexivity|].
  destruct (TraceHandler_run f (Some "sampled=true"%string)
              newTraceId serverSpanId fn taskId sh1 sh2 srt
              (mkTrace newTraceId {[ SampledKey := true ]}) None Hsrt eq_refl)
    as (w' & sp & Hrun & Hsp & _ & Hpar & Hpid & Htr & _).
  destruct (server_span_registered f serverSpanId
              (mkTrace newTraceId {[ SampledKey := true ]}) None)
    as (w1 & Hstart & Hroot & Hno).
  exists w1, w', sp. split; [exact Hstart|]. split; [exact Hroot|].
  split; [exact Hno|].
  split; [exact Hrun|]. split; [done|]. split; [done|].
  split; [done|]. rewrite Htr. split; [done|]. apply lookup_singleton_eq.
Qed.

(** C7 with insertion sort for [sort.Sort]. *)
Lemma forced_sampling_without_context_witness :
  sorts insertionSort ∧
  ∃ w' sp,
    TraceHandler (mkFunc "server.GET") (Some "sampled=true"%string) 1000 7
      (helloHandler (mkFunc "http.handler") 8 in_order in_order insertionSort)
      server_world = Done ("0/hello/true"%string, w') ∧
    spanHeap w' !! 1%positive = Some sp ∧
    span_parentId sp = None ∧
    trace_id (span_trace sp) = 1000.
Proof.
  split; [apply insertionSort_sorts|].
  destruct (forced_sampling_without_context (mkFunc "server.GET")
              (mkFunc "http.handler") 1000 7 8 in_order in_order
              insertionSort insertionSort_sorts)
    as (_ & _ & w1 & w' & sp & _ & _ & _ & Hrun & Hsp & _ & Hpid & Htid & _).
  by exists w', sp.
Defined.

(** C8. A header that does not decode is treated as no header: whatever
    the wrapped handler and the world, [TraceHandler] does with it exactly
    what it does without a header.  On a fresh server the request is
    served (no panic, no error): the span opened for it is a root span (it
    is registered in the root set) with no parent, in process or remote,
    under a Trace with the id the id generator handed out and no
    annotation, and the handler of the tests answers ["0/hello/<nil>"]. *)
Theorem malformed_header_is_absent
    (h : string) (f fn : Func) (newTraceId serverSpanId taskId : Z)
    (sh1 sh2 : shuffle) (srt : sort_fn)
    (Hbad : decode h = None)
    (Hsrt : sorts srt) :
  (∀ (next : loc → M string) (w : World),
     TraceHandler f (Some h) newTraceId serverSpanId next w =
     TraceHandler f None newTraceId serverSpanId next w) ∧
  extract (Some h) newTraceId = (mkTrace newTraceId ∅, None) ∧
  ∃ w1 w' sp,
    spanStart f serverSpanId (mkTrace newTraceId ∅) None None server_world =
      Done (1%positive, w1) ∧
    1%positive ∈ spans (registry w1) ∧
    orphans (registry w1) = ∅ ∧
    TraceHandler f (Some h) newTraceId serverSpanId
      (helloHandler fn taskId sh1 sh2 srt) server_world =
      Done ("0/hello/<nil>"%string, w') ∧
    spanHeap w' !! 1%positive = Some sp ∧
    span_parent sp = None ∧
    span_parentId sp = None ∧
    span_trace sp = mkTrace newTraceId ∅.
Proof.
  split.
  { intros next w. unfold TraceHandler.
    by rewrite (extract_malformed h newTraceId Hbad). }
  destruct (TraceHandler_run f (Some h) newTraceId serverSpanId fn taskId
              sh1 sh2 srt (mkTrace newTraceId ∅) None Hsrt
              (extract_malformed h newTraceId Hbad))
    as (w' & sp & Hrun & Hsp & _ & Hpar & Hpid & Htr & _).
  split; [by apply extract_malformed|].
  destruct (server_span_registered f serverSpanId (mkTrace newTraceId ∅) None)
    as (w1 & Hstart & Hroot & Hno).
  by exists w1, w', sp.
Qed.

(** C8 at a header that is no list of key=value pairs. *)
Lemma malformed_header_is_absent_witness :
  decode "garbage" = None ∧
  sorts insertionSort ∧
  ∃ w' sp,
    TraceHandler (mkFunc "server.GET") (Some "garbage"%string) 1000 7
      (helloHandler (mkFunc "http.handler") 8 in_order in_order insertionSort)
      server_world = Done ("0/hello/<nil>"%string, w') ∧
    spanHeap w' !! 1%positive = Some sp ∧
    span_parentId sp = None ∧
    span_trace sp = mkTrace 1000 ∅.
Proof.
  split; [reflexivity|]. split; [apply insertionSort_sorts|].
  destruct (malformed_header_is_absent "garbage" (mkFunc "server.GET")
              (mkFunc "http.handler") 1000 7 8 in_order in_order
              insertionSort eq_refl insertionSort_sorts)
    as (_ & _ & w1 & w' & sp & _ & _ & _ & Hrun & Hsp & _ & Hpid & Htr).
  by exists w', sp.
Defined.

(** Headers the decoder rejects. *)
Example malformed_headers :
  decode EmptyString = None ∧
  decode "sampled" = None ∧
  decode "sampled=maybe" = None ∧
  decode "trace=1,parent=x" = None ∧
  decode "trace=9223372036854775808,parent=1" = None ∧
  decode "color=red" = None.
Proof. repeat split. Qed.

(** ** The sorters as [sort.Interface] *)

Lemma at_index_Some {A} (s : list A) i x :
  at_index s i = Some x ↔ 0 ≤ i ∧ s !! Z.to_nat i = Some x.
Proof.
  unfold at_index. destruct (Z.leb_spec 0 i); [naive_solver|].
  split; [done|]. intros [? _]. lia.
Qed.

Lemma at_index_None {A} (s : list A) i :
  at_index s i = None ↔ ¬ (0 ≤ i < Z.of_nat (length s)).
Proof.
  unfold at_index. destruct (Z.leb_spec 0 i).
  - rewrite lookup_ge_None. lia.
  - split; [lia|done].
Qed.

Lemma insert_swap_lookup {A} (s : list A) (a b k : nat) x y :
  s !! a = Some x → s !! b = Some y →
  <[b := x]> (<[a := y]> s) !! k =
  if decide (k = b) then Some x
  else if decide (k = a) then Some y else s !! k.
Proof.
  intros Ha%lookup_lt_Some Hb%lookup_lt_Some.
  rewrite !list_lookup_insert, length_insert.
  repeat case_decide; try done; lia.
Qed.

Lemma insert_swap_perm {A} (s : list A) (a b : nat) x y :
  s !! a = Some x → s !! b = Some y →
  <[b := x]> (<[a := y]> s) ≡ₚ s.
Proof.
  intros Ha Hb. apply Permutation_inj. split; [by rewrite !length_insert|].
  exists (λ k, if decide (k = b) then a else if decide (k = a) then b else k).
  split.
  - intros k1 k2. repeat case_decide; lia.
  - intros k. rewrite (insert_swap_lookup s a b k x y Ha Hb).
    repeat case_decide; by subst.
Qed.

Lemma exchange_Some {A} (s : list A) i j s' :
  exchange s i j = Some s' ↔
  ∃ si sj, 0 ≤ i ∧ 0 ≤ j ∧
           s !! Z.to_nat i = Some si ∧ s !! Z.to_nat j = Some sj ∧
           s' = <[Z.to_nat j := si]> (<[Z.to_nat i := sj]> s).
Proof.
  unfold exchange. split.
  - destruct (at_index s j) as [sj|] eqn:Hj; [|done].
    destruct (at_index s i) as [si|] eqn:Hi; [|done].
    apply at_index_Some in Hi as [? ?], Hj as [? ?].
    intros [= <-]. by exists si, sj.
  - intros (si & sj & ? & ? & Hi & Hj & ->).
    assert (at_index s i = Some si) as -> by by apply at_index_Some.
    assert (at_index s j = Some sj) as -> by by apply at_index_Some.
    done.
Qed.

(** X1. [Swap] of either sorter panics exactly when one of the two indices
    is outside the slice.  Otherwise the slice it leaves has the same
    length and the same elements; the elements at [i] and [j] have changed
    places and every other index holds what it held; a second [Swap] of
    the same indices restores the slice. *)
Theorem Swap_exchanges_two_elements (s : list loc) (i j : Z) :
  (spanSorter.Swap s i j = None ↔
     ¬ (0 ≤ i < spanSorter.Len s ∧ 0 ≤ j < spanSorter.Len s)) ∧
  scopeSorter.Swap s i j = spanSorter.Swap s i j ∧
  ∀ s', spanSorter.Swap s i j = Some s' →
    spanSorter.Len s' = spanSorter.Len s ∧
    s' ≡ₚ s ∧
    at_index s' i = at_index s j ∧
    at_index s' j = at_index s i ∧
    (∀ k, k ≠ i → k ≠ j → at_index s' k = at_index s k) ∧
    spanSorter.Swap s' i j = Some s.
Proof.
  unfold spanSorter.Swap, scopeSorter.Swap, spanSorter.Len.
  split; [|split; [done|]].
  - unfold exchange.
    destruct (at_index s j) as [sj|] eqn:Hj; simpl.
    + destruct (at_index s i) as [si|] eqn:Hi; simpl.
      * split; [done|]. intros Hno. exfalso. apply Hno.
        assert (is_Some (at_index s i)) as Hi' by by eexists.
        assert (is_Some (at_index s j)) as Hj' by by eexists.
        rewrite <-not_eq_None_Some, at_index_None in Hi', Hj'. lia.
      * split; [|done]. intros _. apply at_index_None in Hi. lia.
    + split; [|done]. intros _. apply at_index_None in Hj. lia.
  - intros s' (si & sj & Hi0 & Hj0 & Hi & Hj & ->)%exchange_Some.
    split; [by rewrite !length_insert|].
    split; [by apply insert_swap_perm|].
    assert (Hati : at_index (<[Z.to_nat j:=si]> (<[Z.to_nat i:=sj]> s)) i
                   = Some sj).
    { apply at_index_Some. split; [done|].
      rewrite (insert_swap_lookup s _ _ _ si sj Hi Hj).
      destruct (decide (Z.to_nat i = Z.to_nat j)) as [E|E];
        [congruence|by rewrite decide_True]. }
    assert (Hatj : at_index (<[Z.to_nat j:=si]> (<[Z.to_nat i:=sj]> s)) j
                   = Some si).
    { apply at_index_Some. split; [done|].
      rewrite (insert_swap_lookup s _ _ _ si sj Hi Hj). by rewrite decide_True. }
    split; [rewrite Hati; symmetry; by apply at_index_Some|].
    split; [rewrite Hatj; symmetry; by apply at_index_Some|].
    split.
    + intros k Hki Hkj. unfold at_index. destruct (Z.leb_spec 0 k); [|done].
      rewrite (insert_swap_lookup s _ _ _ si sj Hi Hj).
      rewrite !decide_False by lia. done.
    + apply exchange_Some. exists sj, si.
      apply at_index_Some in Hati as [_ Hati], Hatj as [_ Hatj].
      split; [done|]. split; [done|]. split; [done|]. split; [done|].
      apply list_eq. intros k.
      rewrite (insert_swap_lookup _ _ _ k sj si Hati Hatj).
      rewrite (insert_swap_lookup s _ _ k si sj Hi Hj).
      repeat case_decide; subst; congruence.
Qed.

Lemma index_run {A} (s : list A) i w :
  index s i w = match at_index s i with
                | Some x => Done (x, w)
                | None => Panicked
                end.
Proof. unfold index. by destruct (at_index s i). Qed.

Lemma Less_key_before h a b :
  Less h a b = true ↔ key_before (key_of h a) (key_of h b).
Proof. apply key_lt_before. Qed.

(** X2. [spanSorter.Less(i, j)] panics when an index is outside the slice
    or one of the two pointers is nil; otherwise it changes nothing and
    answers whether the key (Func name, span id) of [s[i]] comes strictly
    before that of [s[j]] in the lexicographic order.  That comparison is
    a strict weak order, as [sort.Sort] requires: no span is less than
    itself, it is transitive, and two spans neither of which is less than
    the other have the same key. *)
Theorem spanSorter_Less_strict_weak_order (s : list loc) (w : World) :
  let h := spanHeap w in
  (∀ i j,
     spanSorter.Less s i j w =
     match at_index s i, at_index s j with
     | Some ispan, Some jspan =>
         match h !! ispan, h !! jspan with
         | Some _, Some _ => Done (Less h ispan jspan, w)
         | _, _ => Panicked
         end
     | _, _ => Panicked
     end) ∧
  (∀ a b, Less h a b = true ↔ key_before (key_of h a) (key_of h b)) ∧
  (∀ a, Less h a a = false) ∧
  (∀ a b c, Less h a b = true → Less h b c = true → Less h a c = true) ∧
  (∀ a b, Less h a b = false → Less h b a = false →
          key_of h a = key_of h b) ∧
  (∀ a b, key_of h a = key_of h b → Less h a b = false).
Proof.
  intros h. split; [|split; [apply Less_key_before|]].
  - intros i j. unfold spanSorter.Less, bind. rewrite index_run.
    destruct (at_index s i) as [a|]; [|done]. rewrite index_run.
    destruct (at_index s j) as [b|]; [|done].
    unfold getSpan, Less, key_of, key_lt. subst h.
    destruct (spanHeap w !! a) as [isp|]; [|done].
    destruct (spanHeap w !! b) as [jsp|]; done.
  - assert (Hfalse : ∀ a b, Less h a b = false ↔
                            ¬ key_before (key_of h a) (key_of h b)).
    { intros a b. rewrite <-Less_key_before. by destruct (Less h a b). }
    split; [|split; [|split]].
    + intros a. apply Hfalse, key_before_irrefl.
    + intros a b c. rewrite !Less_key_before. apply key_before_trans.
    + intros a b. rewrite !Hfalse. intros Hab Hba.
      by destruct (key_trichotomy (key_of h a) (key_of h b)) as [?|[?|?]].
    + intros a b E. apply Hfalse. rewrite E. apply key_before_irrefl.
Qed.

Lemma string_lt_trans (a b c : string) :
  OrderedTypeEx.String_as_OT.lt a b → OrderedTypeEx.String_as_OT.lt b c →
  OrderedTypeEx.String_as_OT.lt a c.
Proof. apply OrderedTypeEx.String_as_OT.lt_trans. Qed.

Lemma string_ltb_false (a b : string) :
  (a <? b)%string = false ↔ ¬ OrderedTypeEx.String_as_OT.lt a b.
Proof. rewrite <-string_ltb_lt. by destruct (a <? b)%string. Qed.

(** X3. [scopeSorter.Less(i, j)] panics when an index is outside the slice
    or one of the two pointers is nil; otherwise it changes nothing and
    answers whether the name of [s[i]] comes strictly before the name of
    [s[j]].  The comparison is a strict order on names: irreflexive and
    transitive, and two Scopes are tied only when they have the same
    name. *)
Theorem scopeSorter_Less_orders_by_name (s : list loc) (w : World) :
  let h := scopeHeap w in
  (∀ i j,
     scopeSorter.Less s i j w =
     match at_index s i, at_index s j with
     | Some si, Some sj =>
         match h !! si, h !! sj with
         | Some _, Some _ => Done (name_lt h si sj, w)
         | _, _ => Panicked
         end
     | _, _ => Panicked
     end) ∧
  (∀ a b, name_lt h a b = true ↔
          OrderedTypeEx.String_as_OT.lt (name_of h a) (name_of h b)) ∧
  (∀ a, name_lt h a a = false) ∧
  (∀ a b c, name_lt h a b = true → name_lt h b c = true →
            name_lt h a c = true) ∧
  (∀ a b, name_lt h a b = false → name_lt h b a = false →
          name_of h a = name_of h b).
Proof.
  intros h. split; [|split; [intros; apply string_ltb_lt|]].
  - intros i j. unfold scopeSorter.Less, bind. rewrite index_run.
    destruct (at_index s i) as [a|]; [|done]. rewrite index_run.
    destruct (at_index s j) as [b|]; [|done].
    unfold getScope, name_lt, name_of. subst h.
    destruct (scopeHeap w !! a) as [isc|]; [|done].
    destruct (scopeHeap w !! b) as [jsc|]; done.
  - unfold name_lt. split; [|split].
    + intros a. apply string_ltb_false, string_lt_irrefl.
    + intros a b c. rewrite !string_ltb_lt. apply string_lt_trans.
    + intros a b. rewrite !string_ltb_false. intros Hab Hba.
      by destruct (string_trichotomy (name_of h a) (name_of h b))
        as [?|[?|?]].
Qed.

(** ** Scopes, Funcs and Stats *)

Lemma forM__app {A} (l1 l2 : list A) (f : A → M unit) : ∀ w,
  forM_ (l1 ++ l2) f w = (forM_ l1 f ;;; forM_ l2 f) w.
Proof.
  induction l1 as [|x l1 IH]; intros w; [done|].
  simpl. unfold bind in *. destruct (f x w) as [[[] w1]| | |]; [|done..].
  apply IH.
Qed.

Lemma forM__bind {A B} (l : list A) (g : A → list B) (f : B → M unit) : ∀ w,
  forM_ l (λ a, forM_ (g a) f) w = forM_ (l ≫= g) f w.
Proof.
  induction l as [|x l IH]; intros w; [done|].
  simpl. rewrite forM__app. unfold bind.
  destruct (forM_ (g x) f w) as [[[] w1]| | |]; [|done..].
  apply IH.
Qed.

Lemma string_order_false (a b : string) :
  sort_order String.ltb a b ↔ ¬ OrderedTypeEx.String_as_OT.lt b a.
Proof. apply string_ltb_false. Qed.

Global Instance string_order_total : Total (sort_order String.ltb).
Proof.
  intros a b. rewrite !string_order_false.
  destruct (string_trichotomy a b) as [H|[->|H]].
  - left. intros H'. eapply string_lt_irrefl, string_lt_trans; eauto.
  - left. apply string_lt_irrefl.
  - right. intros H'. eapply string_lt_irrefl, string_lt_trans; eauto.
Qed.

Global Instance string_order_trans : Transitive (sort_order String.ltb).
Proof.
  intros a b c. rewrite !string_order_false. intros Hab Hbc Hca.
  destruct (string_trichotomy a b) as [H|[->|H]]; [|done..].
  apply Hbc. by eapply string_lt_trans.
Qed.

Global Instance string_order_antisym : AntiSymm (=) (sort_order String.ltb).
Proof.
  intros a b. rewrite !string_order_false. intros Hab Hba.
  by destruct (string_trichotomy a b) as [H|[->|H]].
Qed.

Lemma name_lt_total h : Total (sort_order (name_lt h)).
Proof. intros a b. apply (string_order_total (name_of h a) (name_of h b)). Qed.

Lemma name_lt_trans h : Transitive (sort_order (name_lt h)).
Proof.
  intros a b c.
  apply (string_order_trans (name_of h a) (name_of h b) (name_of h c)).
Qed.

Lemma sorted_NoDup_strict (l : list string) :
  StronglySorted (sort_order String.ltb) l → NoDup l →
  StronglySorted OrderedTypeEx.String_as_OT.lt l.
Proof.
  induction 1 as [|a l Hs IH Hall]; intros Hnd; [constructor|].
  apply NoDup_cons in Hnd as [Hni Hnd].
  constructor; [by apply IH|].
  apply Forall_forall. intros b Hb.
  rewrite Forall_forall in Hall. specialize (Hall b Hb).
  apply string_order_false in Hall.
  destruct (string_trichotomy a b) as [?|[->|?]]; done.
Qed.

Lemma Scopes_run sh srt cb w :
  scopeMtx (registry w) = false →
  (∀ s, s ∈ (map_to_list (scopes (registry w))).*2 →
        is_Some (scopeHeap w !! s)) →
  Scopes sh srt cb w =
  forM_ (srt _ (name_lt (scopeHeap w))
           (permute sh _ (map_to_list (scopes (registry w)))).*2) cb w.
Proof.
  intros Hm Hall.
  assert (Hfa : forallb (λ s, bool_decide (is_Some (scopeHeap w !! s)))
                  (permute sh _ (map_to_list (scopes (registry w)))).*2
                = true).
  { apply forallb_forall. intros s Hs. apply bool_decide_eq_true.
    apply Hall. apply list_elem_of_In in Hs. by rewrite permute_perm in Hs. }
  destruct w as [r sc sp o]. destruct r. simpl in *. subst.
  unfold Scopes, bind, Lock, Unlock, getR, sortScopes. simpl.
  by rewrite Hfa, orb_true_r.
Qed.

Lemma scopes_named_value w s :
  scopes_named w →
  s ∈ (map_to_list (scopes (registry w))).*2 →
  scopes (registry w) !! name_of (scopeHeap w) s = Some s.
Proof.
  intros Hn ([n s'] & -> & Hin%elem_of_map_to_list)%list_elem_of_fmap.
  simpl. unfold name_of. by rewrite (Hn _ _ Hin).
Qed.

Lemma scopes_named_names w :
  scopes_named w →
  name_of (scopeHeap w) <$> (map_to_list (scopes (registry w))).*2 =
  (map_to_list (scopes (registry w))).*1.
Proof.
  intros Hn. rewrite <-list_fmap_compose. apply list_fmap_ext.
  intros i [n s] Hi.
  apply list_elem_of_lookup_2, elem_of_map_to_list in Hi.
  simpl. unfold name_of. by rewrite (Hn _ _ Hi).
Qed.

Lemma scopes_named_allocated w s :
  scopes_named w →
  s ∈ (map_to_list (scopes (registry w))).*2 →
  is_Some (scopeHeap w !! s).
Proof.
  intros Hn Hs. apply scopes_named_value in Hs; [|done].
  rewrite (Hn _ _ Hs). by eexists.
Qed.

(** Scopes stored under their own names sort in one way only. *)
Lemma sorted_scopes_unique (w : World) :
  scopes_named w →
  ∃ visited,
    (∀ s, s ∈ visited ↔ ∃ name, scopes (registry w) !! name = Some s) ∧
    StronglySorted OrderedTypeEx.String_as_OT.lt
      (name_of (scopeHeap w) <$> visited) ∧
    ∀ (sh : shuffle) (srt : sort_fn),
      sorts srt →
      srt _ (name_lt (scopeHeap w))
        (permute sh _ (map_to_list (scopes (registry w)))).*2 = visited.
Proof.
  intros Hn.
  set (h := scopeHeap w). set (vals := (map_to_list (scopes (registry w))).*2).
  assert (Hsorted : ∀ sh srt, sorts srt →
            srt _ (name_lt h) (permute sh _ (map_to_list (scopes (registry w)))).*2
              ≡ₚ vals ∧
            StronglySorted (sort_order (name_lt h))
              (srt _ (name_lt h)
                 (permute sh _ (map_to_list (scopes (registry w)))).*2)).
  { intros sh srt Hsrt.
    destruct (Hsrt _ (name_lt h)
                (permute sh _ (map_to_list (scopes (registry w)))).*2)
      as [Hp Hs].
    split; [by rewrite Hp, permute_perm|].
    apply Hs; [apply name_lt_total|apply name_lt_trans]. }
  destruct (Hsorted in_order insertionSort insertionSort_sorts) as [Hp Hs].
  set (visited := insertionSort _ (name_lt h)
                    (permute in_order _ (map_to_list (scopes (registry w)))).*2)
    in *.
  exists visited. split; [|split].
  - intros s. rewrite Hp. unfold vals. rewrite list_elem_of_fmap. split.
    + intros ([n s'] & -> & Hin%elem_of_map_to_list). by exists n.
    + intros [n Hin]. exists (n, s). split; [done|].
      by apply elem_of_map_to_list.
  - apply sorted_NoDup_strict.
    + eapply StronglySorted_fmap; [|exact Hs]. done.
    + rewrite Hp. unfold vals, h. rewrite scopes_named_names by done.
      apply NoDup_fst_map_to_list.
  - intros sh srt Hsrt.
    destruct (Hsorted sh srt Hsrt) as [Hp' Hs'].
    apply (same_keys_same_list (name_of h)).
    + by rewrite Hp, Hp'.
    + apply (StronglySorted_unique (sort_order String.ltb)).
      * eapply StronglySorted_fmap; [|exact Hs']. done.
      * eapply StronglySorted_fmap; [|exact Hs]. done.
      * by rewrite Hp, Hp'.
    + intros a b Ha Hb Hab. rewrite Hp' in Ha, Hb.
      apply scopes_named_value in Ha, Hb; try done. fold h in Ha, Hb.
      rewrite Hab in Ha. congruence.
Qed.

(** X4. With the scope mutex free and every Scope of the map carrying the
    name it is stored under, [Scopes(cb)] calls [cb] on the Scopes of one
    list: it holds every Scope of the map, its names are strictly
    increasing (so no Scope is visited twice), and it is the same list
    whatever order the map is walked in and however [sort.Sort] works.
    The callbacks run one after the other from the world [Scopes] was
    called in: the mutex was released before the first of them, and the
    snapshot is not re-read between them. *)
Theorem Scopes_visits_in_name_order (w : World) :
  scopeMtx (registry w) = false →
  scopes_named w →
  ∃ visited,
    (∀ s, s ∈ visited ↔ ∃ name, scopes (registry w) !! name = Some s) ∧
    StronglySorted OrderedTypeEx.String_as_OT.lt
      (name_of (scopeHeap w) <$> visited) ∧
    ∀ (sh : shuffle) (srt : sort_fn) (cb : loc → M unit),
      sorts srt → Scopes sh srt cb w = forM_ visited cb w.
Proof.
  intros Hm Hn.
  destruct (sorted_scopes_unique w Hn) as (visited & Hin & Hs & Huniq).
  exists visited. split; [done|]. split; [done|].
  intros sh srt cb Hsrt. rewrite Scopes_run.
  - by rewrite Huniq.
  - done.
  - intros s. by apply scopes_named_allocated.
Qed.


Lemma world_three_scopes_named : scopes_named world_three_scopes.
Proof.
  intros name s. simpl. intros Hs.
  apply lookup_insert_Some in Hs as [[<- <-]|[_ Hs]]; [done|].
  apply lookup_insert_Some in Hs as [[<- <-]|[_ Hs]]; [done|].
  apply lookup_singleton_Some in Hs as [<- <-]. done.
Qed.

Lemma Scopes_visits_in_name_order_witness :
  ∃ visited,
    (∀ s, s ∈ visited ↔
          ∃ name, scopes (registry world_three_scopes) !! name = Some s) ∧
    StronglySorted OrderedTypeEx.String_as_OT.lt
      (name_of (scopeHeap world_three_scopes) <$> visited) ∧
    ∀ (sh : shuffle) (srt : sort_fn) (cb : loc → M unit),
      sorts srt →
      Scopes sh srt cb world_three_scopes = forM_ visited cb world_three_scopes.
Proof.
  apply (Scopes_visits_in_name_order world_three_scopes).
  - reflexivity.
  - apply world_three_scopes_named.
Defined.

(** What the three-Scope world gives: client, main, server. *)
Example Scopes_world_three_scopes :
  Scopes reversed insertionSort visit world_three_scopes =
  Done (tt, set_out [Visited 2%positive; Visited 3%positive;
                     Visited 1%positive] world_three_scopes).
Proof. vm_compute. reflexivity. Qed.

Lemma PackageNamed_step name w :
  scopeMtx (registry w) = false →
  scopes_named w →
  ∃ s w', PackageNamed name w = Done (s, w') ∧
          scopeMtx (registry w') = false ∧
          scopes_named w' ∧
          scopes (registry w) ⊆ scopes (registry w') ∧
          scopes (registry w') !! name = Some s ∧
          dom (scopes (registry w')) = {[name]} ∪ dom (scopes (registry w)).
Proof.
  intros Hm Hn. rewrite PackageNamed_run by done.
  destruct (scopes (registry w) !! name) as [s|] eqn:Hs.
  - exists s, w. split; [done|]. split; [done|]. split; [done|].
    split; [done|]. split; [done|].
    apply elem_of_dom_2 in Hs. set_solver.
  - eexists _, _. split; [done|].
    split; [by destruct w as [[] ? ? ?]|].
    split; [|split; [|split]].
    + intros n s. simpl. intros Hin.
      apply lookup_insert_Some in Hin as [[<- <-]|[Hne Hin]].
      * apply lookup_insert_eq.
      * rewrite lookup_insert_ne; [by apply Hn|].
        intros <-. apply Hn in Hin.
        apply elem_of_dom_2 in Hin. by apply is_fresh in Hin.
    + simpl. by apply insert_subseteq.
    + simpl. apply lookup_insert_eq.
    + simpl. by rewrite dom_insert_L.
Qed.

Lemma forM_PackageNamed_run names : ∀ w,
  scopeMtx (registry w) = false →
  scopes_named w →
  ∃ ss w', forM PackageNamed names w = Done (ss, w') ∧
           scopeMtx (registry w') = false ∧
           scopes_named w' ∧
           scopes (registry w) ⊆ scopes (registry w') ∧
           Forall2 (λ name s, scopes (registry w') !! name = Some s)
             names ss ∧
           dom (scopes (registry w')) =
             list_to_set names ∪ dom (scopes (registry w)).
Proof.
  induction names as [|n names IH]; intros w Hm Hn.
  - exists [], w. split; [done|]. split; [done|]. split; [done|].
    split; [done|]. split; [constructor|]. set_solver.
  - destruct (PackageNamed_step n w Hm Hn)
      as (s & w1 & Hrun & Hm1 & Hn1 & Hsub1 & Hs1 & Hdom1).
    destruct (IH w1 Hm1 Hn1) as (ss & w' & Hrun' & Hm' & Hn' & Hsub' & Hall & Hdom').
    exists (s :: ss), w'. simpl. unfold bind. rewrite Hrun, Hrun'.
    split; [done|]. split; [done|]. split; [done|].
    split; [by etrans|].
    split; [constructor; [by eapply lookup_weaken|done]|].
    rewrite Hdom', Hdom1. set_solver.
Qed.

(** X5. Any sequence of [PackageNamed] calls on a new Registry runs to its
    end with the mutex released.  The Scope returned for a name carries
    that name; two calls return the same Scope exactly when they were
    given the same name; and the map then holds one Scope for each name
    that was asked for and nothing else, each stored under its own name. *)
Theorem PackageNamed_one_scope_per_name (names : list string) (w0 : World) :
  ∃ ss w,
    forM PackageNamed names (set_registry NewRegistry w0) = Done (ss, w) ∧
    scopeMtx (registry w) = false ∧
    scopes_named w ∧
    dom (scopes (registry w)) = list_to_set names ∧
    Forall2 (λ name s, scopes (registry w) !! name = Some s) names ss ∧
    name_of (scopeHeap w) <$> ss = names ∧
    ∀ i j name name' s s',
      names !! i = Some name → names !! j = Some name' →
      ss !! i = Some s → ss !! j = Some s' →
      (s = s' ↔ name = name').
Proof.
  destruct (forM_PackageNamed_run names (set_registry NewRegistry w0))
    as (ss & w & Hrun & Hm & Hn & _ & Hall & Hdom); [done| |].
  { intros n s. simpl. by rewrite lookup_empty. }
  assert (Hnames : name_of (scopeHeap w) <$> ss = names).
  { clear Hrun Hdom. induction Hall as [|n s names ss Hs Hall IH]; [done|].
    simpl. f_equal; [|done]. unfold name_of. by rewrite (Hn _ _ Hs). }
  exists ss, w. split; [done|]. split; [done|]. split; [done|].
  split; [simpl in Hdom; set_solver|]. split; [done|]. split; [done|].
  intros i j n n' s s' Hi Hj Hsi Hsj.
  pose proof (Forall2_lookup_lr _ _ _ _ _ _ Hall Hi Hsi) as Hs.
  pose proof (Forall2_lookup_lr _ _ _ _ _ _ Hall Hj Hsj) as Hs'.
  simpl in Hs, Hs'. split.
  - intros <-. apply Hn in Hs, Hs'. congruence.
  - intros <-. congruence.
Qed.

(** X6. With the scope mutex free and every Scope stored under its own
    name, [Funcs(cb)] hands to [cb] the Funcs of every Scope of the map,
    Scope after Scope in strictly increasing order of the Scope names and,
    within a Scope, in the order [Scope.Funcs] reports them; nothing is
    left out and nothing is handed over twice. *)
Theorem Funcs_reports_scope_by_scope {F} (funcs : loc → list F) (w : World) :
  scopeMtx (registry w) = false →
  scopes_named w →
  ∃ visited,
    (∀ s, s ∈ visited ↔ ∃ name, scopes (registry w) !! name = Some s) ∧
    StronglySorted OrderedTypeEx.String_as_OT.lt
      (name_of (scopeHeap w) <$> visited) ∧
    ∀ (sh : shuffle) (srt : sort_fn) (cb : F → M unit),
      sorts srt →
      Funcs (reporting funcs) sh srt cb w = forM_ (visited ≫= funcs) cb w.
Proof.
  intros Hm Hn.
  destruct (sorted_scopes_unique w Hn) as (visited & Hin & Hs & Huniq).
  exists visited. split; [done|]. split; [done|].
  intros sh srt cb Hsrt. unfold Funcs.
  rewrite Scopes_run; [|done|intros s; by apply scopes_named_allocated].
  rewrite Huniq by done. apply forM__bind.
Qed.

Lemma Funcs_reports_scope_by_scope_witness :
  ∃ visited,
    (∀ s, s ∈ visited ↔
          ∃ name, scopes (registry world_three_scopes) !! name = Some s) ∧
    StronglySorted OrderedTypeEx.String_as_OT.lt
      (name_of (scopeHeap world_three_scopes) <$> visited) ∧
    ∀ (sh : shuffle) (srt : sort_fn) (cb : loc → M unit),
      sorts srt →
      Funcs (reporting (λ s, [s; s])) sh srt cb world_three_scopes =
      forM_ (visited ≫= λ s, [s; s]) cb world_three_scopes.
Proof.
  apply (Funcs_reports_scope_by_scope (λ s, [s; s]) world_three_scopes).
  - reflexivity.
  - apply world_three_scopes_named.
Defined.

Lemma bind_cong {A B} (m m' : M A) (k k' : A → M B) w :
  m w = m' w →
  (∀ a w1, m' w = Done (a, w1) → k a w1 = k' a w1) →
  bind m k w = bind m' k' w.
Proof.
  intros Hm Hk. unfold bind. rewrite Hm.
  destruct (m' w) as [[a w1]| | |]; auto.
Qed.

Lemma forM__keeps_scopes {V} (cb : string → V → M unit) l : ∀ w r w',
  keeps_scopes cb →
  forM_ l (λ p, cb p.1 p.2) w = Done (r, w') →
  scopeHeap w' = scopeHeap w.
Proof.
  induction l as [|p l IH]; intros w r w' Hk; simpl.
  - by intros [= _ <-].
  - unfold bind. destruct (cb p.1 p.2 w) as [[[] w1]| | |] eqn:Hcb; try done.
    intros Hrest. apply (IH _ _ _ Hk) in Hrest.
    apply Hk in Hcb. congruence.
Qed.

Lemma reporting_stats_prefixed {V} (cb : string → V → M unit) s sc st : ∀ w,
  keeps_scopes cb →
  scopeHeap w !! s = Some sc →
  forM_ st (λ p, sc <- getScope s ;; cb (scope_name sc +:+ "." +:+ p.1) p.2) w =
  forM_ (prefixed (scopeHeap w) s st) (λ p, cb p.1 p.2) w.
Proof.
  induction st as [|p st IH]; intros w Hk Hs; [done|].
  simpl.
  assert (Hhead :
    (sc <- getScope s ;; cb (scope_name sc +:+ "." +:+ p.1) p.2) w =
    cb (name_of (scopeHeap w) s +:+ "." +:+ p.1) p.2 w).
  { unfold bind, getScope, name_of. by rewrite Hs. }
  unfold bind at 1. rewrite Hhead. unfold bind.
  destruct (cb _ p.2 w) as [[[] w1]| | |] eqn:Hcb; try done.
  apply Hk in Hcb. rewrite IH by (done || by rewrite Hcb).
  unfold prefixed. by rewrite Hcb.
Qed.

Lemma Stats_prefixed {V} (stats : loc → list (string * V))
    (cb : string → V → M unit) h l : ∀ w,
  keeps_scopes cb →
  scopeHeap w = h →
  (∀ s, s ∈ l → is_Some (h !! s)) →
  forM_ l (λ s, reporting_stats stats s (λ name val,
             sc <- getScope s ;; cb (scope_name sc +:+ "." +:+ name) val)) w =
  forM_ (l ≫= λ s, prefixed h s (stats s)) (λ p, cb p.1 p.2) w.
Proof.
  induction l as [|s l IH]; intros w Hk Hh Hall; [done|].
  simpl. rewrite forM__app.
  destruct (Hall s) as [sc Hsc]; [left|]. rewrite <-Hh in Hsc.
  apply bind_cong.
  - unfold reporting_stats.
    by rewrite (reporting_stats_prefixed cb s sc (stats s) w Hk Hsc), Hh.
  - intros [] w1 Hrun.
    apply IH; [done| |intros s' Hs'; apply Hall; by right].
    apply forM__keeps_scopes in Hrun; [congruence|done].
Qed.

(** X7. With the scope mutex free and every Scope stored under its own
    name, [Stats(cb)] forwards to [cb] every stat of every Scope of the
    map, once each: Scope after Scope in strictly increasing order of the
    Scope names, each stat under the name of its Scope, a dot, and the
    name the Scope reports it under, with its value untouched.  This holds
    for every [cb] that leaves the Scopes as they are. *)
Theorem Stats_prefixes_scope_name {V} (stats : loc → list (string * V))
    (w : World) :
  scopeMtx (registry w) = false →
  scopes_named w →
  ∃ visited,
    (∀ s, s ∈ visited ↔ ∃ name, scopes (registry w) !! name = Some s) ∧
    StronglySorted OrderedTypeEx.String_as_OT.lt
      (name_of (scopeHeap w) <$> visited) ∧
    ∀ (sh : shuffle) (srt : sort_fn) (cb : string → V → M unit),
      sorts srt →
      keeps_scopes cb →
      Stats (reporting_stats stats) sh srt cb w =
      forM_ (visited ≫= λ s, prefixed (scopeHeap w) s (stats s))
        (λ p, cb p.1 p.2) w.
Proof.
  intros Hm Hn.
  destruct (sorted_scopes_unique w Hn) as (visited & Hin & Hs & Huniq).
  exists visited. split; [done|]. split; [done|].
  intros sh srt cb Hsrt Hk. unfold Stats.
  rewrite Scopes_run; [|done|intros s; by apply scopes_named_allocated].
  rewrite Huniq by done.
  apply Stats_prefixed; [done|done|].
  intros s [n Hs']%Hin. rewrite (Hn _ _ Hs'). by eexists.
Qed.

Lemma Stats_prefixes_scope_name_witness :
  ∃ visited,
    (∀ s, s ∈ visited ↔
          ∃ name, scopes (registry world_three_scopes) !! name = Some s) ∧
    StronglySorted OrderedTypeEx.String_as_OT.lt
      (name_of (scopeHeap world_three_scopes) <$> visited) ∧
    ∀ (sh : shuffle) (srt : sort_fn) (cb : string → Z → M unit),
      sorts srt →
      keeps_scopes cb →
      Stats (reporting_stats (λ _, [("calls"%string, 3); ("errors"%string, 0)]))
        sh srt cb world_three_scopes =
      forM_ (visited ≫= λ s,
               prefixed (scopeHeap world_three_scopes) s
                 [("calls"%string, 3); ("errors"%string, 0)])
        (λ p, cb p.1 p.2) world_three_scopes.
Proof.
  apply (Stats_prefixes_scope_name
           (λ _, [("calls"%string, 3); ("errors"%string, 0)])
           world_three_scopes).
  - reflexivity.
  - apply world_three_scopes_named.
Defined.

(** ** One call at a time *)

Lemma run_call_blocked c m w :
  mutex_of c = Some m →
  held m (registry w) = true →
  run_call c w = Blocked.
Proof.
  intros Hc Hm.
  destruct c; simpl in Hc; simplify_eq; simpl in Hm;
    unfold run_call, ObserveTraces, cancel, PackageNamed, rootSpanStart,
      rootSpanEnd, orphanedSpan, orphanEnd, bind, Lock; simpl;
    by rewrite Hm.
Qed.

Lemma run_call_shape c w :
  (∀ m, mutex_of c = Some m → held m (registry w) = false) →
  ∃ w', run_call c w = Done (tt, w') ∧
        same_mutexes (registry w) (registry w') ∧
        spanHeap w' = spanHeap w ∧
        spans (registry w') =
          match c with
          | CallRootSpanStart s => {[s]} ∪ spans (registry w)
          | CallRootSpanEnd s => spans (registry w) ∖ {[s]}
          | _ => spans (registry w)
          end ∧
        orphans (registry w') =
          match c with
          | CallOrphanedSpan s => {[s]} ∪ orphans (registry w)
          | CallOrphanEnd s => orphans (registry w) ∖ {[s]}
          | _ => orphans (registry w)
          end.
Proof.
  intros Hfree. destruct c; simpl in *;
    try (specialize (Hfree _ eq_refl); simpl in Hfree).
  - unfold bind. rewrite ObserveTraces_run by done.
    eexists. split; [done|]. by destruct w as [[] ? ? ?].
  - rewrite cancel_run by done.
    eexists. split; [done|]. by destruct w as [[] ? ? ?].
  - rewrite observeTrace_run.
    eexists. split; [done|]. by destruct w as [[] ? ? ?].
  - unfold bind. rewrite PackageNamed_run by done.
    destruct (scopes (registry w) !! name).
    + eexists. split; [done|]. by destruct w as [[] ? ? ?].
    + eexists. split; [done|]. by destruct w as [[] ? ? ?].
  - destruct w as [[] ? ? ?]. simpl in *. subst.
    eexists. split; [reflexivity|]. done.
  - destruct w as [[] ? ? ?]. simpl in *. subst.
    eexists. split; [reflexivity|]. done.
  - destruct w as [[] ? ? ?]. simpl in *. subst.
    eexists. split; [reflexivity|]. done.
  - destruct w as [[] ? ? ?]. simpl in *. subst.
    eexists. split; [reflexivity|]. done.
Qed.

(** X8. Each call of the Registry needs one mutex at most, and gives back
    what it took.  [ObserveTraces] and the cancel function take the
    watcher mutex, [PackageNamed] the scope mutex, [rootSpanStart] and
    [rootSpanEnd] the span mutex, [orphanedSpan] and [orphanEnd] the
    orphan mutex: the call waits when that mutex is held, and otherwise
    returns with all four mutexes in the state it found them, whoever
    holds the other three.  [observeTrace] takes none: it returns in every
    state and leaves the Registry as it is. *)
Theorem calls_take_one_mutex (c : reg_call) (w : World) :
  match mutex_of c with
  | None =>
      ∃ w', run_call c w = Done (tt, w') ∧ registry w' = registry w
  | Some m =>
      if held m (registry w)
      then run_call c w = Blocked
      else ∃ w', run_call c w = Done (tt, w') ∧
                 same_mutexes (registry w) (registry w')
  end.
Proof.
  destruct (mutex_of c) as [m|] eqn:Hc.
  - destruct (held m (registry w)) eqn:Hm.
    + by eapply run_call_blocked.
    + destruct (run_call_shape c w) as (w' & Hrun & Hsame & _).
      { intros m' Hm'. congruence. }
      by exists w'.
  - destruct c; try discriminate Hc. simpl.
    rewrite observeTrace_run. eexists. split; [done|]. by destruct w.
Qed.

(** ** The two span sets *)

Lemma last_call_wins {C} (kind : C → option bool) (start stop : C)
    (script : list C) : ∀ m0 : Prop,
  (∀ c, kind c = Some true ↔ c = start) →
  (∀ c, kind c = Some false ↔ c = stop) →
  foldl (λ (m : Prop) c, match kind c with
                         | Some true => True
                         | Some false => False
                         | None => m
                         end) m0 script ↔
  (∃ pre post, script = pre ++ start :: post ∧ stop ∉ post) ∨
  (m0 ∧ stop ∉ script).
Proof.
  intros m0 Hstart Hstop. revert m0.
  assert (Hne : start ≠ stop).
  { intros E. pose proof (proj2 (Hstart start) eq_refl) as H1.
    pose proof (proj2 (Hstop stop) eq_refl) as H2. congruence. }
  induction script as [|c cs IH]; intros m0.
  - simpl. split.
    + intros Hm. right. split; [done|]. apply not_elem_of_nil.
    + intros [(pre & post & E & _)|[Hm _]]; [|done].
      by destruct pre.
  - simpl. rewrite IH. rewrite not_elem_of_cons. split.
    + intros [(pre & post & -> & Hpost)|[Hm Hcs]].
      * left. by exists (c :: pre), post.
      * destruct (kind c) as [[]|] eqn:Hk.
        -- apply Hstart in Hk as ->. left. by exists [], cs.
        -- done.
        -- right. split; [done|]. split; [|done].
           intros <-. pose proof (proj2 (Hstop stop) eq_refl). congruence.
    + intros [(pre & post & E & Hpost)|(Hm & Hc & Hcs)].
      * destruct pre as [|c' pre]; simpl in E; simplify_eq.
        -- right. split; [|done].
           by rewrite (proj2 (Hstart start) eq_refl).
        -- left. by exists pre, post.
      * right. split; [|done].
        destruct (kind c) as [[]|] eqn:Hk; [done| |done].
        apply Hstop in Hk. congruence.
Qed.

Lemma foldl_kind_iff {C} (kind : C → option bool) cs : ∀ a b : Prop,
  (a ↔ b) →
  foldl (λ (m : Prop) c, match kind c with
                         | Some true => True
                         | Some false => False
                         | None => m
                         end) a cs ↔
  foldl (λ (m : Prop) c, match kind c with
                         | Some true => True
                         | Some false => False
                         | None => m
                         end) b cs.
Proof.
  induction cs as [|c cs IH]; intros a b Hab; [done|].
  simpl. apply IH. by destruct (kind c) as [[]|].
Qed.

Lemma forM__run_call script : ∀ w,
  unlocked (registry w) →
  ∃ w', forM_ script run_call w = Done (tt, w') ∧
        unlocked (registry w') ∧
        spanHeap w' = spanHeap w ∧
        (∀ s, s ∈ spans (registry w') ↔
           foldl (λ (m : Prop) c,
                    match match c with
                          | CallRootSpanStart s' =>
                              if decide (s' = s) then Some true else None
                          | CallRootSpanEnd s' =>
                              if decide (s' = s) then Some false else None
                          | _ => None
                          end
                    with
                    | Some true => True
                    | Some false => False
                    | None => m
                    end) (s ∈ spans (registry w)) script) ∧
        (∀ s, s ∈ orphans (registry w') ↔
           foldl (λ (m : Prop) c,
                    match match c with
                          | CallOrphanedSpan s' =>
                              if decide (s' = s) then Some true else None
                          | CallOrphanEnd s' =>
                              if decide (s' = s) then Some false else None
                          | _ => None
                          end
                    with
                    | Some true => True
                    | Some false => False
                    | None => m
                    end) (s ∈ orphans (registry w)) script).
Proof.
  induction script as [|c cs IH]; intros w Hu.
  - exists w. split; [done|]. split; [done|]. split; [done|].
    split; intros s; reflexivity.
  - destruct (run_call_shape c w) as (w1 & Hrun & Hsame & Hh & Hsp & Hor).
    { destruct Hu as (? & ? & ? & ?).
      intros m Hm. destruct c; simpl in Hm; simplify_eq; done. }
    assert (Hu1 : unlocked (registry w1)).
    { destruct Hu as (? & ? & ? & ?), Hsame as (? & ? & ? & ?).
      unfold unlocked. by repeat split; congruence. }
    destruct (IH w1 Hu1) as (w' & Hrun' & Hu' & Hh' & Hsp' & Hor').
    exists w'. simpl. unfold bind. rewrite Hrun.
    split; [done|]. split; [done|]. split; [congruence|].
    split.
    + intros s. rewrite Hsp'. simpl.
      apply foldl_kind_iff.
      rewrite Hsp. destruct c; try done; case_decide; set_solver.
    + intros s. rewrite Hor'. simpl.
      apply foldl_kind_iff.
      rewrite Hor. destruct c; try done; case_decide; set_solver.
Qed.

(** X9. Let any sequence of Registry calls run from a state with the
    mutexes free: it runs to its end and leaves them free.  A span is then
    in the root set exactly when the sequence holds a [rootSpanStart] of
    it with no [rootSpanEnd] of it after, or when it was there before and
    the sequence holds no [rootSpanEnd] of it.  So a span started twice
    and ended once is out, an end with no start changes nothing, and no
    other call (watchers, Scopes, the orphan set) moves a span in or
    out.  The same holds for the orphan set with [orphanedSpan] and
    [orphanEnd]. *)
Theorem span_sets_follow_last_call
    (script : list reg_call) (w : World) (s : loc) :
  unlocked (registry w) →
  ∃ w',
    forM_ script run_call w = Done (tt, w') ∧
    unlocked (registry w') ∧
    (s ∈ spans (registry w') ↔
       (∃ pre post, script = pre ++ CallRootSpanStart s :: post ∧
                    CallRootSpanEnd s ∉ post) ∨
       (s ∈ spans (registry w) ∧ CallRootSpanEnd s ∉ script)) ∧
    (s ∈ orphans (registry w') ↔
       (∃ pre post, script = pre ++ CallOrphanedSpan s :: post ∧
                    CallOrphanEnd s ∉ post) ∨
       (s ∈ orphans (registry w) ∧ CallOrphanEnd s ∉ script)).
Proof.
  intros Hu.
  destruct (forM__run_call script w Hu) as (w' & Hrun & Hu' & _ & Hsp & Hor).
  exists w'. split; [done|]. split; [done|]. split.
  - rewrite Hsp. apply last_call_wins.
    + intros c. destruct c; try case_decide; naive_solver.
    + intros c. destruct c; try case_decide; naive_solver.
  - rewrite Hor. apply last_call_wins.
    + intros c. destruct c; try case_decide; naive_solver.
    + intros c. destruct c; try case_decide; naive_solver.
Qed.

Lemma span_sets_follow_last_call_witness :
  ∃ w',
    forM_ [CallRootSpanStart 1%positive; CallRootSpanStart 1%positive;
           CallOrphanedSpan 1%positive; CallRootSpanEnd 1%positive]
      run_call (mkWorld NewRegistry ∅ ∅ []) = Done (tt, w') ∧
    unlocked (registry w') ∧
    (1%positive ∈ spans (registry w') ↔
       (∃ pre post,
          [CallRootSpanStart 1%positive; CallRootSpanStart 1%positive;
           CallOrphanedSpan 1%positive; CallRootSpanEnd 1%positive] =
          pre ++ CallRootSpanStart 1%positive :: post ∧
          CallRootSpanEnd 1%positive ∉ post) ∨
       (1%positive ∈ spans (registry (mkWorld NewRegistry ∅ ∅ [])) ∧
        CallRootSpanEnd 1%positive ∉
          [CallRootSpanStart 1%positive; CallRootSpanStart 1%positive;
           CallOrphanedSpan 1%positive; CallRootSpanEnd 1%positive])) ∧
    (1%positive ∈ orphans (registry w') ↔
       (∃ pre post,
          [CallRootSpanStart 1%positive; CallRootSpanStart 1%positive;
           CallOrphanedSpan 1%positive; CallRootSpanEnd 1%positive] =
          pre ++ CallOrphanedSpan 1%positive :: post ∧
          CallOrphanEnd 1%positive ∉ post) ∨
       (1%positive ∈ orphans (registry (mkWorld NewRegistry ∅ ∅ [])) ∧
        CallOrphanEnd 1%positive ∉
          [CallRootSpanStart 1%positive; CallRootSpanStart 1%positive;
           CallOrphanedSpan 1%positive; CallRootSpanEnd 1%positive])).
Proof.
  apply (span_sets_follow_last_call _ (mkWorld NewRegistry ∅ ∅ [])).
  repeat split.
Defined.

(** ** Callbacks that call the Registry *)

Lemma end_span_run s w :
  spanMtx (registry w) = false →
  orphanMtx (registry w) = false →
  end_span s w =
  Done (tt, set_registry
              (set_orphans (orphans (registry w) ∖ {[s]})
                 (set_spans (spans (registry w) ∖ {[s]}) (registry w))) w).
Proof.
  intros H1 H2. destruct w as [[] ? ? ?]. simpl in *. subst. reflexivity.
Qed.

Lemma forM__end_span l : ∀ w,
  spanMtx (registry w) = false →
  orphanMtx (registry w) = false →
  forM_ l end_span w =
  Done (tt, set_registry
              (set_orphans (orphans (registry w) ∖ list_to_set l)
                 (set_spans (spans (registry w) ∖ list_to_set l)
                    (registry w))) w).
Proof.
  induction l as [|s l IH]; intros w H1 H2.
  - simpl. unfold ret. rewrite !difference_empty_L.
    by destruct w as [[] ? ? ?].
  - simpl. unfold bind. rewrite end_span_run by done.
    rewrite IH by (by destruct w as [[] ? ? ?]).
    assert (E : ∀ X : gset loc,
              X ∖ {[s]} ∖ list_to_set l = X ∖ list_to_set (s :: l))
      by set_solver.
    destruct w as [[] ? ? ?]. simpl. by rewrite !E.
Qed.

(** X10. With the span and orphan mutexes free and every span of the two
    sets a live object, [RootSpans(cb)] calls [cb] on the spans of a
    snapshot of the two sets, one after the other, starting from the very
    world it was called in: both mutexes have been released before the
    first callback, and the sets are not read again.  So a callback may
    call the Registry itself.  With the callback that ends the span it is
    handed (in both sets) [RootSpans] returns, every span of the snapshot
    was handed over although earlier callbacks had emptied the sets under
    it, and both sets are empty at the end. *)
Theorem RootSpans_callbacks_run_unlocked
    (sh1 sh2 : shuffle) (srt : sort_fn) (w : World) :
  sorts srt →
  spanMtx (registry w) = false →
  orphanMtx (registry w) = false →
  spans_allocated w →
  ∃ visited,
    visited ≡ₚ elements (spans (registry w)) ++
               elements (orphans (registry w)) ∧
    (∀ cb, RootSpans sh1 sh2 srt cb w = forM_ visited cb w) ∧
    RootSpans sh1 sh2 srt end_span w =
    Done (tt, set_registry (set_orphans ∅ (set_spans ∅ (registry w))) w).
Proof.
  intros Hsrt H1 H2 Hall.
  exists (srt _ (Less (spanHeap w)) (snapshot sh1 sh2 (registry w))).
  destruct (Hsrt _ (Less (spanHeap w)) (snapshot sh1 sh2 (registry w)))
    as [Hp _].
  assert (Hp' : srt _ (Less (spanHeap w)) (snapshot sh1 sh2 (registry w))
                ≡ₚ elements (spans (registry w)) ++
                   elements (orphans (registry w)))
    by (by rewrite Hp, snapshot_perm).
  split; [done|]. split; [intros cb; by apply RootSpans_run|].
  rewrite RootSpans_run, forM__end_span by done.
  assert (E : ∀ X : gset loc,
            X ⊆ spans (registry w) ∪ orphans (registry w) →
            X ∖ list_to_set
                  (srt _ (Less (spanHeap w)) (snapshot sh1 sh2 (registry w)))
            = ∅).
  { intros X HX. apply set_eq. intros s.
    rewrite elem_of_difference, elem_of_list_to_set.
    rewrite Hp', elem_of_app, !elem_of_elements. set_solver. }
  rewrite !E by set_solver. done.
Qed.

Lemma RootSpans_callbacks_run_unlocked_witness :
  ∃ visited,
    visited ≡ₚ elements (spans (registry world_three_spans)) ++
               elements (orphans (registry world_three_spans)) ∧
    (∀ cb, RootSpans in_order reversed insertionSort cb world_three_spans =
           forM_ visited cb world_three_spans) ∧
    RootSpans in_order reversed insertionSort end_span world_three_spans =
    Done (tt, set_registry
                (set_orphans ∅ (set_spans ∅ (registry world_three_spans)))
                world_three_spans).
Proof.
  apply (RootSpans_callbacks_run_unlocked in_order reversed insertionSort
           world_three_spans).
  - apply insertionSort_sorts.
  - reflexivity.
  - reflexivity.
  - apply world_three_spans_allocated.
Defined.

(** ** More on the watchers *)

(** X11. Registering a callback and calling the cancel function at once is
    a round trip when the id the registration takes is not in use: the
    watcher map is the one before, the closure published is the one for
    that map, the counter has moved on by one (wrapping around), the mutex
    is free again, and nothing else in the world has changed. *)
Theorem register_cancel_round_trip
    (cb : TraceFn) (sh1 sh2 : shuffle) (w : World) :
  watcherMtx (registry w) = false →
  traceWatchers (registry w) !! watcherCounter (registry w) = None →
  (c <- ObserveTraces cb sh1 ;; c sh2) w =
  Done (tt,
        set_registry
          (set_traceWatcher (published sh2 (traceWatchers (registry w)))
             (set_watcherCounter (wrap64 (watcherCounter (registry w) + 1))
                (registry w))) w).
Proof.
  intros Hm Hfresh. unfold bind. rewrite ObserveTraces_run by done.
  rewrite cancel_run by (by destruct w as [[] ? ? ?]).
  destruct w as [[] ? ? ?]. simpl in *.
  unfold after_cancel, after_register. simpl.
  by rewrite delete_insert_id.
Qed.

Lemma register_cancel_round_trip_witness :
  (c <- ObserveTraces (named 2) in_order ;; c reversed)
    (mkWorld (set_watcherCounter 1 (registry wrapped_world)) ∅ ∅ []) =
  Done (tt,
        mkWorld
          (set_traceWatcher (published reversed {[ 0 := named 1 ]})
             (set_watcherCounter (wrap64 (1 + 1))
                (set_watcherCounter 1 (registry wrapped_world)))) ∅ ∅ []).
Proof.
  apply (register_cancel_round_trip (named 2) in_order reversed
           (mkWorld (set_watcherCounter 1 (registry wrapped_world)) ∅ ∅ [])).
  - reflexivity.
  - reflexivity.
Defined.

Lemma dispatch_of_None cbs : dispatch_of cbs = None ↔ cbs = [].
Proof. destruct cbs as [|cb [|cb' cbs]]; naive_solver. Qed.

(** X12. After any sequence of registrations, cancellations and trace
    completions on a new Registry the published pointer is nil exactly
    when no watcher is registered; [observeTrace] then returns without a
    call and leaves the world as it is. *)
Theorem no_watchers_nil_pointer (script : list call) (w0 : World) :
  ∃ cancels w,
    exec script [] (set_registry NewRegistry w0) = Done (cancels, w) ∧
    (traceWatcher (registry w) = None ↔ traceWatchers (registry w) = ∅) ∧
    (traceWatchers (registry w) = ∅ →
     ∀ t, observeTrace t w = Done (tt, w)).
Proof.
  destruct (exec_consistent script [] (set_registry NewRegistry w0))
    as (cancels & w & Hrun & _ & [sh Hcons] & _); [done| |done|].
  { exists in_order. reflexivity. }
  assert (Hnil : traceWatcher (registry w) = None ↔
                 traceWatchers (registry w) = ∅).
  { rewrite Hcons. unfold published. rewrite dispatch_of_None. split.
    - intros Hp%fmap_nil_inv. apply map_to_list_empty_iff.
      apply Permutation_nil_r. by rewrite <-Hp, permute_perm.
    - intros ->. rewrite map_to_list_empty.
      assert (permute sh (Z * TraceFn) [] = []) as ->; [|done].
      apply Permutation_nil_r, permute_perm. }
  exists cancels, w. split; [done|]. split; [done|].
  intros Hempty t. rewrite observeTrace_run.
  apply Hnil in Hempty. rewrite Hempty, app_nil_r. by destruct w.
Qed.

(** ** walkSpan on a store that is not a forest *)

Lemma forM__keeps_heap {A} (f : A → M unit) l : ∀ w r,
  (∀ x w r, f x w = Done r → spanHeap r.2 = spanHeap w) →
  forM_ l f w = Done r → spanHeap r.2 = spanHeap w.
Proof.
  induction l as [|x l IH]; intros w r Hf; simpl.
  - by intros [= <-].
  - unfold bind. destruct (f x w) as [[[] w1]| | |] eqn:Hx; try done.
    intros Hrest. apply (IH _ _ Hf) in Hrest. apply Hf in Hx.
    simpl in Hx. congruence.
Qed.

Lemma walkSpan_keeps_heap fuel : ∀ s w r,
  walkSpan fuel s visit w = Done r → spanHeap r.2 = spanHeap w.
Proof.
  induction fuel as [|fuel IH]; intros s w r; [done|].
  simpl. unfold bind, visit, emit, Children. simpl.
  destruct (spanHeap w !! s) as [sp|]; [|done].
  intros Hrun. by apply forM__keeps_heap in Hrun.
Qed.

Lemma forM__reaches {A} (f : A → M unit) l x : ∀ w r,
  (∀ x w r, f x w = Done r → spanHeap r.2 = spanHeap w) →
  x ∈ l →
  forM_ l f w = Done r →
  ∃ w1 r1, spanHeap w1 = spanHeap w ∧ f x w1 = Done r1.
Proof.
  induction l as [|y l IH]; intros w r Hf Hx; [by apply not_elem_of_nil in Hx|].
  simpl. unfold bind.
  destruct (f y w) as [[[] w1]| | |] eqn:Hy; try done.
  apply elem_of_cons in Hx as [->|Hx].
  - intros _. by exists w, (tt, w1).
  - intros Hrest. destruct (IH _ _ Hf Hx Hrest) as (w2 & r2 & Hh & Hrun).
    exists w2, r2. split; [|done]. apply Hf in Hy. simpl in Hy. congruence.
Qed.

Lemma reaches_cycle_step h s :
  reaches_cycle h s → ∃ s', child h s s' ∧ reaches_cycle h s'.
Proof.
  intros (c & Hsc & Hcc).
  apply rtc_inv in Hsc as [->|(s' & Hss' & Hs'c)].
  - assert (Hstep : ∀ a b, tc (child h) a b →
                           ∃ c', child h a c' ∧ rtc (child h) c' b).
    { intros a b [x y Hxy|x y z Hxy Hrest].
      - exists y. split; [done|]. apply rtc_refl.
      - exists y. split; [done|]. by apply tc_rtc. }
    destruct (Hstep c c Hcc) as (c' & Hcc' & Hc'c).
    exists c'. split; [done|]. by exists c.
  - exists s'. split; [done|]. by exists c.
Qed.

Lemma walkSpan_cycle fuel : ∀ s w r,
  reaches_cycle (spanHeap w) s → walkSpan fuel s visit w ≠ Done r.
Proof.
  induction fuel as [|fuel IH]; intros s w r Hcyc; [done|].
  destruct (reaches_cycle_step _ _ Hcyc) as (s' & (sp & Hsp & Hin) & Hcyc').
  simpl. unfold bind, visit, emit, Children. simpl. rewrite Hsp.
  intros Hrun.
  eapply (forM__reaches (λ c, walkSpan fuel c visit)) in Hrun
    as (w1 & r1 & Hh & Hrun); [|intros ???; apply walkSpan_keeps_heap|exact Hin].
  eapply IH; [|exact Hrun]. simpl in Hh. by rewrite Hh.
Qed.

(** X13. [walkSpan] has no guard against cycles: when some span that can
    be reached from [s] through child links is its own descendant, the
    walk from [s] does not return, however deep the recursion is allowed
    to go; and [AllSpans] does not return either when such an [s] is in
    the root set. *)
Theorem walkSpan_never_returns_on_a_cycle (s : loc) (w : World) :
  reaches_cycle (spanHeap w) s →
  (∀ fuel r, walkSpan fuel s visit w ≠ Done r) ∧
  (s ∈ spans (registry w) →
   ∀ fuel sh1 sh2 srt r,
     sorts srt → AllSpans fuel sh1 sh2 srt visit w ≠ Done r).
Proof.
  intros Hcyc. split; [intros fuel r; by apply walkSpan_cycle|].
  intros Hs fuel sh1 sh2 srt r Hsrt. unfold AllSpans, RootSpans, bind.
  destruct (sortedRootSpans sh1 sh2 srt w) as [[l w1]| | |] eqn:Hsorted;
    try done.
  assert (spanHeap w1 = spanHeap w ∧ s ∈ l) as [Hh Hin].
  { unfold sortedRootSpans, bind, Lock, Unlock, getR, sortSpans in Hsorted.
    destruct w as [[tw wm wc tws sm sc pm sps om ors] sch sph o].
    simpl in *.
    repeat (case_match; simplify_eq; simpl in * ).
    split; [done|].
    destruct (Hsrt _ (Less sph)
                (permute sh1 _ (elements sps) ++
                 permute sh2 _ (elements ors))) as [Hp _].
    rewrite Hp, elem_of_app, permute_perm, elem_of_elements. by left. }
  intros Hrun.
  eapply (forM__reaches (λ c, walkSpan fuel c visit)) in Hrun
    as (w2 & r2 & Hh2 & Hrun); [|intros ???; apply walkSpan_keeps_heap|exact Hin].
  eapply walkSpan_cycle; [|exact Hrun]. by rewrite Hh2, Hh.
Qed.

Lemma world_cycle_reaches_cycle :
  reaches_cycle (spanHeap world_cycle) 1%positive.
Proof.
  exists 1%positive. split; [done|].
  apply tc_l with 2%positive; [|apply tc_once].
  - eexists. split; [reflexivity|]. simpl. set_solver.
  - eexists. split; [reflexivity|]. simpl. set_solver.
Qed.

Lemma walkSpan_never_returns_on_a_cycle_witness :
  (∀ fuel r, walkSpan fuel 1%positive visit world_cycle ≠ Done r) ∧
  (1%positive ∈ spans (registry world_cycle) →
   ∀ fuel sh1 sh2 srt r,
     sorts srt → AllSpans fuel sh1 sh2 srt visit world_cycle ≠ Done r).
Proof.
  apply (walkSpan_never_returns_on_a_cycle 1%positive world_cycle).
  apply world_cycle_reaches_cycle.
Defined.

(** The walk on the two-span cycle, with room for five calls. *)
Example walkSpan_world_cycle :
  walkSpan 5 1%positive visit world_cycle = OutOfFuel.
Proof. vm_compute. reflexivity. Qed.

(** ** The retry loop of the test client *)

Lemma retry_failure env err n : ∀ tw,
  (∀ i, (i < n)%nat → (clientCall (env (calls tw + i)%nat)).2 ≠ None) →
  retry env n err tw =
  (Fatal err, mkTestWorld (calls tw + n) (slept tw + 50 * Z.of_nat n)).
Proof.
  induction n as [|n IH]; intros tw Hfail.
  - simpl. destruct tw as [c s]. simpl. f_equal. f_equal; lia.
  - simpl. pose proof (Hfail O ltac:(lia)) as H0.
    rewrite Nat.add_0_r in H0.
    destruct (clientCall (env (calls tw))) as [[body header] [e|]]; [|done].
    rewrite IH.
    + simpl. f_equal. f_equal; lia.
    + intros i Hi. specialize (Hfail (S i) ltac:(lia)).
      rewrite Nat.add_succ_r in Hfail. exact Hfail.
Qed.

Lemma retry_success env err n : ∀ tw k,
  first_success env (calls tw) n k →
  retry env n err tw =
  (Returned (clientCall (env (calls tw + k)%nat)).1,
   mkTestWorld (S (calls tw + k)) (slept tw + 50 * Z.of_nat k)).
Proof.
  induction n as [|n IH]; intros tw k (Hk & Hok & Hfail); [lia|].
  simpl. destruct k as [|k].
  - rewrite Nat.add_0_r in *.
    destruct (clientCall (env (calls tw))) as [[body header] [e|]];
      [done|]. simpl. do 2 f_equal. lia.
  - pose proof (Hfail O ltac:(lia)) as H0. rewrite Nat.add_0_r in H0.
    destruct (clientCall (env (calls tw))) as [[body header] [e|]]; [|done].
    rewrite (IH _ k).
    + rewrite !Nat.add_succ_r. simpl. do 2 f_equal. lia.
    + split; [lia|]. rewrite Nat.add_succ_r in Hok.
      split; [exact Hok|]. intros i Hi. specialize (Hfail (S i) ltac:(lia)).
      rewrite Nat.add_succ_r in Hfail. exact Hfail.
Qed.

(** X14. [clientCallWithRetry] makes at most 100 calls.  When call number
    [k] (counting from 0) is the first that succeeds, it returns the body
    and the header of that call, having made [k + 1] calls and slept 50 ms
    after each of the [k] that failed.  When all 100 calls fail it has
    slept 5 s, and it stops the test with [t.Fatal(nil)]: the errors of
    the calls were assigned to a variable of the loop body, and the [err]
    handed to [t.Fatal] is still the nil it was declared with.  A call
    fails when [http.NewRequest], the caller or [io.ReadAll] fails, in
    that order, and then carries an empty body and header. *)
Theorem clientCallWithRetry_returns_first_success
    (env : nat → attempt) (tw : TestWorld) :
  (∀ k, first_success env (calls tw) 100 k →
        clientCallWithRetry env tw =
        (Returned (clientCall (env (calls tw + k)%nat)).1,
         mkTestWorld (calls tw + k + 1) (slept tw + 50 * Z.of_nat k))) ∧
  ((∀ i, (i < 100)%nat → (clientCall (env (calls tw + i)%nat)).2 ≠ None) →
   clientCallWithRetry env tw =
   (Fatal None, mkTestWorld (calls tw + 100) (slept tw + 5000))) ∧
  (∀ a, match newRequest_err a, caller_result a with
        | Some err, _ => clientCall a = (EmptyString, EmptyString, Some err)
        | None, inr err => clientCall a = (EmptyString, EmptyString, Some err)
        | None, inl resp =>
            match resp_body resp with
            | inr err => clientCall a = (EmptyString, EmptyString, Some err)
            | inl body => clientCall a = (body, resp_tracestate resp, None)
            end
        end).
Proof.
  unfold clientCallWithRetry. split; [|split].
  - intros k Hk. rewrite (retry_success env None 100 tw k Hk).
    do 2 f_equal. lia.
  - intros Hfail. by rewrite retry_failure.
  - intros a. unfold clientCall.
    destruct (newRequest_err a); [done|].
    destruct (caller_result a) as [resp|]; [|done].
    by destruct (resp_body resp).
Qed.

(** A server that comes up after three refused calls, and one that never
    does. *)
Example clientCallWithRetry_up_after_3 :
  clientCallWithRetry (up_after 3 "0/hello/true" "sampled=true")
    (mkTestWorld 0 0) =
  (Returned ("0/hello/true"%string, "sampled=true"%string),
   mkTestWorld 4 150) ∧
  clientCallWithRetry (up_after 100 "0/hello/true" "sampled=true")
    (mkTestWorld 0 0) =
  (Fatal None, mkTestWorld 100 5000).
Proof. split; vm_compute; reflexivity. Qed.

(** ** Enumerating a new Registry *)

Lemma sorts_nil {A} srt (lt : A → A → bool) : sorts srt → srt A lt [] = [].
Proof. intros Hsrt. apply Permutation_nil_r. apply Hsrt. Qed.

Lemma permute_nil {A} sh : permute sh A [] = [].
Proof. apply Permutation_nil_r, permute_perm. Qed.

(** X15. On a new Registry every enumeration returns at once and never
    calls its callback: [RootSpans], [AllSpans], [Scopes], [Funcs] and
    [Stats] leave the world as it is whatever the callback would do, were
    it called. *)
Theorem new_registry_enumerates_nothing
    (sh1 sh2 : shuffle) (srt : sort_fn) (w0 : World) :
  sorts srt →
  let w := set_registry NewRegistry w0 in
  (∀ cb, RootSpans sh1 sh2 srt cb w = Done (tt, w)) ∧
  (∀ fuel cb, AllSpans fuel sh1 sh2 srt cb w = Done (tt, w)) ∧
  (∀ cb, Scopes sh1 srt cb w = Done (tt, w)) ∧
  (∀ F (Scope_Funcs : loc → (F → M unit) → M unit) cb,
     Funcs Scope_Funcs sh1 srt cb w = Done (tt, w)) ∧
  (∀ V (Scope_Stats : loc → (string → V → M unit) → M unit) cb,
     Stats Scope_Stats sh1 srt cb w = Done (tt, w)).
Proof.
  intros Hsrt w.
  assert (HR : ∀ cb, RootSpans sh1 sh2 srt cb w = Done (tt, w)).
  { intros cb. rewrite RootSpans_run; [|done|done|].
    - unfold snapshot. simpl. rewrite elements_empty, !permute_nil. simpl.
      by rewrite sorts_nil.
    - intros s Hs. simpl in Hs. set_solver. }
  assert (HS : ∀ cb, Scopes sh1 srt cb w = Done (tt, w)).
  { intros cb. rewrite Scopes_run; [|done|].
    - simpl. rewrite map_to_list_empty, permute_nil. simpl.
      by rewrite sorts_nil.
    - intros s. simpl. rewrite map_to_list_empty. simpl.
      intros Hs. by apply not_elem_of_nil in Hs. }
  split; [done|]. split; [intros fuel cb; apply HR|].
  split; [done|]. split; [intros F f cb; apply HS|].
  intros V f cb. apply HS.
Qed.

Lemma new_registry_enumerates_nothing_witness :
  let w := set_registry NewRegistry world_three_spans in
  (∀ cb, RootSpans in_order reversed insertionSort cb w = Done (tt, w)) ∧
  (∀ fuel cb, AllSpans fuel in_order reversed insertionSort cb w
              = Done (tt, w)) ∧
  (∀ cb, Scopes in_order insertionSort cb w = Done (tt, w)) ∧
  (∀ F (Scope_Funcs : loc → (F → M unit) → M unit) cb,
     Funcs Scope_Funcs in_order insertionSort cb w = Done (tt, w)) ∧
  (∀ V (Scope_Stats : loc → (string → V → M unit) → M unit) cb,
     Stats Scope_Stats in_order insertionSort cb w = Done (tt, w)).
Proof.
  apply (new_registry_enumerates_nothing in_order reversed insertionSort
           world_three_spans).
  apply insertionSort_sorts.
Defined.
